(** * ReST-style docstring parsing and composing (docstring_parser/rest.py)

    A shallow embedding of [rest.py]: the Python string primitives the module
    calls, the three regular expressions it uses (each written out as the
    function the pattern denotes), [inspect.cleandoc], [_build_meta], [parse]
    and [compose], followed by the properties of the parser and composer.

    Text is a list of characters.  A character is a code point below 256, so
    that the predicates of [str] ([isspace], the classes of [re]) are the
    Unicode ones restricted to that range. *)

From Stdlib Require Import List Ascii Bool Arith Lia.
From Stdlib Require String.
Import ListNotations String.StringSyntax.
Local Open Scope list_scope.

Set Implicit Arguments.

(** ** Text *)

Abbreviation str := (list ascii) (only parsing).

(** A literal. *)
Definition L (s : String.string) : str := String.list_ascii_of_string s.
Arguments L s%_string_scope.

Definition str_eqb (a b : str) : bool :=
  if list_eq_dec ascii_dec a b then true else false.

(** ** The Python primitives used by [rest.py] *)

Module Py.

Definition nl : ascii := "010"%char.
Definition cr : ascii := "013"%char.
Definition tab : ascii := "009"%char.
Definition space : ascii := " "%char.
Definition colon : ascii := ":"%char.
Definition dot : ascii := "."%char.
Definition qmark : ascii := "?"%char.

Definition ch_eq (c d : ascii) : bool := Ascii.eqb c d.

(** [str.isspace] on one character: TAB LF VT FF CR, FS GS RS US, SPACE,
    NEL (0x85) and NBSP (0xa0). *)
Definition isspace (c : ascii) : bool :=
  let n := nat_of_ascii c in
  ((9 <=? n) && (n <=? 13)) || ((28 <=? n) && (n <=? 32))
  || (n =? 133) || (n =? 160).

(** Truthiness of a string and of an optional string. *)
Definition truthy (s : str) : bool :=
  match s with [] => false | _ => true end.

Definition truthy_opt (o : option str) : bool :=
  match o with Some s => truthy s | None => false end.

(** [s or None] *)
Definition or_None (s : str) : option str :=
  match s with [] => None | _ => Some s end.

Fixpoint dropwhile (p : ascii -> bool) (s : str) : str :=
  match s with
  | c :: s' => if p c then dropwhile p s' else s
  | [] => []
  end.

Fixpoint takewhile (p : ascii -> bool) (s : str) : str :=
  match s with
  | c :: s' => if p c then c :: takewhile p s' else []
  | [] => []
  end.

(** [s.lstrip()], [s.rstrip()], [s.strip()] *)
Definition lstrip (s : str) : str := dropwhile isspace s.
Definition rstrip (s : str) : str := rev (dropwhile isspace (rev s)).
Definition strip (s : str) : str := lstrip (rstrip s).

(** [s.lstrip(chars)] and [s.rstrip(chars)] for a one-character [chars] *)
Definition lstrip_char (c : ascii) (s : str) : str := dropwhile (ch_eq c) s.
Definition rstrip_char (c : ascii) (s : str) : str :=
  rev (dropwhile (ch_eq c) (rev s)).

(** [s.startswith(p)] and [s.endswith(p)] *)
Fixpoint startswith (s p : str) {struct p} : bool :=
  match p, s with
  | [], _ => true
  | a :: p', b :: s' => ch_eq a b && startswith s' p'
  | _ :: _, [] => false
  end.

Definition endswith (s p : str) : bool := startswith (rev s) (rev p).

(** [c in s] for a one-character [c] *)
Definition contains (c : ascii) (s : str) : bool := existsb (ch_eq c) s.

(** [s.split(sep, 1)] for a one-character [sep]: the text before the first
    [sep], and the text after it when there is one (a list of one or two
    parts in Python). *)
Fixpoint split1 (sep : ascii) (s : str) : str * option str :=
  match s with
  | [] => ([], None)
  | c :: s' =>
      if ch_eq c sep then ([], Some s')
      else let (a, b) := split1 sep s' in (c :: a, b)
  end.

(** [s.split(sep)] for a one-character [sep]: never empty. *)
Fixpoint split (sep : ascii) (s : str) : list str :=
  match s with
  | [] => [[]]
  | c :: s' =>
      if ch_eq c sep then [] :: split sep s'
      else match split sep s' with
           | l :: ls => (c :: l) :: ls
           | [] => [[c]]
           end
  end.

(** [s.split()]: the maximal runs of characters that are not whitespace.
    [split_ws_run s] is the run [s] starts with (empty when [s] starts with
    whitespace) and the runs after it. *)
Definition cons_word (w : str) (ws : list str) : list str :=
  match w with [] => ws | _ => w :: ws end.

Fixpoint split_ws_run (s : str) : str * list str :=
  match s with
  | [] => ([], [])
  | c :: s' =>
      let (w, ws) := split_ws_run s' in
      if isspace c then ([], cons_word w ws) else (c :: w, ws)
  end.

Definition split_ws (s : str) : list str :=
  let (w, ws) := split_ws_run s in cons_word w ws.

(** [sep.join(parts)] *)
Fixpoint join (sep : str) (parts : list str) : str :=
  match parts with
  | [] => []
  | [p] => p
  | p :: ps => p ++ sep ++ join sep ps
  end.

(** [s.expandtabs()]: tab stops every 8 columns; the column restarts after
    a line feed and after a carriage return. *)
Fixpoint expandtabs_from (col : nat) (s : str) : str :=
  match s with
  | [] => []
  | c :: s' =>
      if ch_eq c tab then
        let incr := 8 - (col mod 8) in
        repeat space incr ++ expandtabs_from (col + incr) s'
      else if ch_eq c nl || ch_eq c cr then c :: expandtabs_from 0 s'
      else c :: expandtabs_from (S col) s'
  end.

Definition expandtabs (s : str) : str := expandtabs_from 0 s.

(** [s.splitlines()]: a line ends at LF, CR, CR LF, VT, FF, FS, GS, RS or
    NEL; the line ends are dropped and no empty last line is produced. *)
Definition is_linebreak (c : ascii) : bool :=
  let n := nat_of_ascii c in
  ((10 <=? n) && (n <=? 13)) || ((28 <=? n) && (n <=? 30)) || (n =? 133).

Fixpoint splitlines_aux (cur : str) (s : str) : list str :=
  match s with
  | [] => match cur with [] => [] | _ => [rev cur] end
  | c :: s' =>
      if is_linebreak c then
        rev cur ::
        match s' with
        | d :: s'' =>
            if ch_eq c cr && ch_eq d nl then splitlines_aux [] s''
            else splitlines_aux [] s'
        | [] => []
        end
      else splitlines_aux (c :: cur) s'
  end.

Definition splitlines (s : str) : list str := splitlines_aux [] s.

End Py.

(** ** The regular expressions of [rest.py]

    Each pattern is used at one place, with fixed flags; it is written here
    as the function that the backtracking matcher of [re] computes for it. *)

Module Re.
Import Py.

(** [re.search("^:", text, flags=re.M)]: [match.start()] of the first colon
    that stands at the start of a line (at offset 0 or just after a line
    feed).  [bol] tells whether the current offset starts a line. *)
Fixpoint search_tag_from (bol : bool) (pos : nat) (text : str) : option nat :=
  match text with
  | [] => None
  | c :: text' =>
      if bol && ch_eq c colon then Some pos
      else search_tag_from (ch_eq c nl) (S pos) text'
  end.

Definition search_tag (text : str) : option nat := search_tag_from true 0 text.

(** [re.finditer(r"(^:.*?)(?=^:|\Z)", s, flags=re.S | re.M)]: the
    [group(0)] of every match, in order.  A match starts at a colon at the
    start of a line and, the dot matching line feeds and the star being
    lazy, runs up to the next colon at the start of a line, or to the end of
    [s]; the search for the next match resumes where the last one ended.
    [tag_blocks bol s] is the text skipped before the first match together
    with the matches. *)
Fixpoint tag_blocks (bol : bool) (s : str) : str * list str :=
  match s with
  | [] => ([], [])
  | c :: s' =>
      let (pre, bs) := tag_blocks (ch_eq c nl) s' in
      if bol && ch_eq c colon then ([], (c :: pre) :: bs) else (c :: pre, bs)
  end.

Definition finditer_blocks (s : str) : list str := snd (tag_blocks true s).

(** [re.match(r".*defaults to (.+)", desc, flags=re.DOTALL)]: [group(1)]
    when the pattern matches.  The prefix [.*] is greedy and spans line
    feeds, so the matcher tries the longest prefix first: the match found is
    at the last offset where ["defaults to "] is followed by at least one
    character, and [group(1)] is everything after it. *)
Fixpoint strip_prefix (p s : str) : option str :=
  match p, s with
  | [], _ => Some s
  | a :: p', b :: s' => if ch_eq a b then strip_prefix p' s' else None
  | _ :: _, [] => None
  end.

Definition defaults_here (s : str) : option str :=
  match strip_prefix (L "defaults to ") s with
  | Some (c :: r) => Some (c :: r)
  | _ => None
  end.

Fixpoint match_defaults (desc : str) : option str :=
  match desc with
  | [] => None
  | _ :: desc' =>
      match match_defaults desc' with
      | Some g => Some g
      | None => defaults_here desc
      end
  end.

(** [re.search(r"^(?P<version>v?((?:\d+)(?:\.[0-9a-z\.]+))) (?P<desc>.+)",
    desc, flags=re.I)]: the groups [version] and [desc] when the pattern
    matches.  Without [re.M] the caret anchors the match at offset 0, and
    without [re.S] the dot stops at a line feed.  Every repetition is
    followed by a character outside its class, so the greedy runs are the
    only way to match: an optional [v] or [V], a run of digits, a dot, a
    run of digits, letters and dots, one space, and the rest of the line,
    which must not be empty. *)
Definition isdigit (c : ascii) : bool :=
  let n := nat_of_ascii c in (48 <=? n) && (n <=? 57).

Definition isalpha_ascii (c : ascii) : bool :=
  let n := nat_of_ascii c in
  ((65 <=? n) && (n <=? 90)) || ((97 <=? n) && (n <=? 122)).

Definition is_v (c : ascii) : bool := ch_eq c "v"%char || ch_eq c "V"%char.

Definition is_version_char (c : ascii) : bool :=
  isdigit c || isalpha_ascii c || ch_eq c dot.

Definition not_nl (c : ascii) : bool := negb (ch_eq c nl).

Definition search_version (desc : str) : option (str * str) :=
  let v := match desc with c :: _ => if is_v c then [c] else [] | [] => [] end in
  let s1 := skipn (length v) desc in
  let digits := takewhile isdigit s1 in
  match digits, dropwhile isdigit s1 with
  | _ :: _, d :: s2 =>
      if ch_eq d dot then
        let seg := takewhile is_version_char s2 in
        match seg, dropwhile is_version_char s2 with
        | _ :: _, sp :: s3 =>
            if ch_eq sp space then
              match takewhile not_nl s3 with
              | [] => None
              | rest => Some (v ++ digits ++ [dot] ++ seg, rest)
              end
            else None
        | _, _ => None
        end
      else None
  | _, _ => None
  end.

End Re.

(** ** [inspect.cleandoc] *)

Module Inspect.
Import Py.

(** The indentation of a line that is not blank. *)
Definition indent_of (line : str) : option nat :=
  match lstrip line with
  | [] => None
  | content => Some (length line - length content)
  end.

(** The minimum indentation of the lines that are not blank; [None] stands
    for [sys.maxsize], the value the margin keeps when no line counts. *)
Fixpoint margin_of (lines : list str) : option nat :=
  match lines with
  | [] => None
  | line :: lines' =>
      match indent_of line, margin_of lines' with
      | Some i, Some m => Some (Nat.min m i)
      | Some i, None => Some i
      | None, m => m
      end
  end.

(** [while lines and not lines[0]: lines.pop(0)] *)
Fixpoint pop_leading (lines : list str) : list str :=
  match lines with
  | [] :: lines' => pop_leading lines'
  | _ => lines
  end.

(** [while lines and not lines[-1]: lines.pop()] *)
Definition pop_trailing (lines : list str) : list str :=
  rev (pop_leading (rev lines)).

Definition cleandoc (doc : str) : str :=
  match split nl (expandtabs doc) with
  | [] => []
  | first :: others =>
      let margin := margin_of others in
      let first := lstrip first in
      let others :=
        match margin with
        | Some m => map (skipn m) others
        | None => others
        end in
      join [nl] (pop_leading (pop_trailing (first :: others)))
  end.

End Inspect.

(** ** Exceptions *)

Inductive exn : Type :=
| ParseError (msg : str)
| IndexError.

Inductive result (A : Type) : Type :=
| Ok (a : A)
| Raise (e : exn).

Arguments Ok {A} a.
Arguments Raise {A} e.

Definition bind {A B} (r : result A) (k : A -> result B) : result B :=
  match r with
  | Ok a => k a
  | Raise e => Raise e
  end.

Notation "x <- r ;; k" := (bind r (fun x => k))
  (at level 61, r at next level, right associativity).

(** ** The data model ([common.py], which [rest.py] imports) *)

(** Modelled from the spec: the record classes of [common.py], absent from the
    sources.  A [MetaRecord] is one of five variants sharing [args] (the
    [raw_tokens]) and [description]; [DocstringMeta] itself is the fallback
    for an unrecognised keyword.  None of [DocstringParam], [DocstringReturns]
    and [DocstringRaises], the classes [compose] tests with [isinstance],
    derives from another. *)
Inductive DocstringMeta : Type :=
| Meta (args : list str) (description : option str)
| DocstringParam (args : list str) (description : option str)
    (arg_name : str) (type_name : option str) (is_optional : option bool)
    (default : option str)
| DocstringReturns (args : list str) (description : option str)
    (type_name : option str) (is_generator : bool)
| DocstringRaises (args : list str) (description : option str)
    (type_name : option str)
| DocstringDeprecated (args : list str) (description : option str)
    (version : option str).

Definition args (m : DocstringMeta) : list str :=
  match m with
  | Meta a _ | DocstringParam a _ _ _ _ _ | DocstringReturns a _ _ _
  | DocstringRaises a _ _ | DocstringDeprecated a _ _ => a
  end.

Definition description (m : DocstringMeta) : option str :=
  match m with
  | Meta _ d | DocstringParam _ d _ _ _ _ | DocstringReturns _ d _ _
  | DocstringRaises _ d _ | DocstringDeprecated _ d _ => d
  end.

(** Modelled from the spec: the [Docstring] class of [common.py], absent from
    the sources; a new one has no description, both flags false and no
    item.  Its [style] tag, which [parse] sets to a constant and nothing
    reads, is left out. *)
Record Docstring : Type := mkDocstring {
  short_description : option str;
  long_description : option str;
  blank_after_short_description : bool;
  blank_after_long_description : bool;
  meta : list DocstringMeta
}.

Definition empty_docstring : Docstring := mkDocstring None None false false [].

Inductive RenderingStyle : Type := COMPACT | CLEAN | EXPANDED.

(** The keyword families of [common.py], absent from the sources: they are a
    parameter of the parser. *)
Record Keywords : Type := mkKeywords {
  PARAM_KEYWORDS : list str;
  RETURNS_KEYWORDS : list str;
  YIELDS_KEYWORDS : list str;
  RAISES_KEYWORDS : list str;
  DEPRECATION_KEYWORDS : list str
}.

(** [key in keywords] *)
Definition kw_in (key : str) (keywords : list str) : bool :=
  existsb (str_eqb key) keywords.

(** ** [rest.py] *)

Module Rest.
Import Py.

Definition dquote : ascii := "034"%char.

(** ["Expected one or two arguments for a {} keyword.".format(key)] *)
Definition msg_param_arity (key : str) : str :=
  L "Expected one or two arguments for a " ++ key ++ L " keyword.".

(** ["Expected one or no arguments for a {} keyword.".format(key)] *)
Definition msg_type_arity (key : str) : str :=
  L "Expected one or no arguments for a " ++ key ++ L " keyword.".

(** ['Error parsing meta information near "{}".'.format(chunk)] *)
Definition msg_near (chunk : str) : str :=
  L "Error parsing meta information near " ++ [dquote] ++ chunk
    ++ [dquote] ++ L ".".

(** [type_name[:-1]] *)
Definition drop_last (s : str) : str := removelast s.

Section WithKeywords.
Variable kw : Keywords.

(** [_build_meta(args, desc)].  Reading [args[0]] of an empty list raises
    [IndexError]; the families are tested in the order of the source, and in
    the param family the arity error is raised before the description is
    searched for a default value. *)
Definition _build_meta (args : list str) (desc : str) : result DocstringMeta :=
  match args with
  | [] => Raise IndexError
  | key :: _ =>
      if kw_in key (PARAM_KEYWORDS kw) then
        r <- match args with
             | [_; type_name; arg_name] =>
                 if endswith type_name (L "?")
                 then Ok (arg_name, Some (drop_last type_name), Some true)
                 else Ok (arg_name, Some type_name, Some false)
             | [_; arg_name] => Ok (arg_name, None, None)
             | _ => Raise (ParseError (msg_param_arity key))
             end ;;
        let '(arg_name, type_name, is_optional) := r in
        let default :=
          match Re.match_defaults desc with
          | Some g => Some (rstrip_char dot g)
          | None => None
          end in
        Ok (DocstringParam args (Some desc) arg_name type_name
              is_optional default)
      else if kw_in key (RETURNS_KEYWORDS kw) || kw_in key (YIELDS_KEYWORDS kw) then
        type_name <- match args with
                     | [_; t] => Ok (Some t)
                     | [_] => Ok None
                     | _ => Raise (ParseError (msg_type_arity key))
                     end ;;
        Ok (DocstringReturns args (Some desc) type_name
              (kw_in key (YIELDS_KEYWORDS kw)))
      else if kw_in key (DEPRECATION_KEYWORDS kw) then
        match Re.search_version desc with
        | Some (version, d) =>
            Ok (DocstringDeprecated args (Some d) (Some version))
        | None => Ok (DocstringDeprecated args (Some desc) None)
        end
      else if kw_in key (RAISES_KEYWORDS kw) then
        type_name <- match args with
                     | [_; t] => Ok (Some t)
                     | [_] => Ok None
                     | _ => Raise (ParseError (msg_type_arity key))
                     end ;;
        Ok (DocstringRaises args (Some desc) type_name)
      else Ok (Meta args (Some desc))
  end.

(** The description of a block: [desc_chunk.strip()], with the lines
    after the first cleaned by [inspect.cleandoc]. *)
Definition block_desc (desc_chunk : str) : str :=
  let desc := strip desc_chunk in
  if contains nl desc then
    match split1 nl desc with
    | (first_line, Some rest) => first_line ++ [nl] ++ Inspect.cleandoc rest
    | (first_line, None) => desc
    end
  else desc.

(** The body of the loop over the matches, for a chunk that is not
    empty. *)
Definition parse_chunk (chunk : str) : result DocstringMeta :=
  match split1 colon (lstrip_char colon chunk) with
  | (args_chunk, Some desc_chunk) =>
      _build_meta (split_ws args_chunk) (block_desc desc_chunk)
  | (_, None) => Raise (ParseError (msg_near chunk))
  end.

(** The loop over the matches: an empty chunk is skipped, and the first
    exception ends the loop. *)
Fixpoint parse_chunks (chunks : list str) : result (list DocstringMeta) :=
  match chunks with
  | [] => Ok []
  | chunk :: chunks' =>
      if truthy chunk then
        m <- parse_chunk chunk ;;
        ms <- parse_chunks chunks' ;;
        Ok (m :: ms)
      else parse_chunks chunks'
  end.

(** [desc_chunk] and [meta_chunk] of a cleaned text. *)
Definition chunks_of (text : str) : str * str :=
  match Re.search_tag text with
  | Some start => (firstn start text, skipn start text)
  | None => (text, [])
  end.

(** The fields [parse] sets from [desc_chunk], in a document whose items are
    [ms]: the short description is the first line; when a line feed follows
    it, the flags and the long description are read off the rest. *)
Definition split_preamble (desc_chunk : str) (ms : list DocstringMeta)
  : Docstring :=
  let parts := split1 nl desc_chunk in
  match snd parts with
  | Some long_desc_chunk =>
      mkDocstring (or_None (fst parts)) (or_None (strip long_desc_chunk))
        (startswith long_desc_chunk [nl]) (endswith long_desc_chunk [nl; nl])
        ms
  | None => mkDocstring (or_None (fst parts)) None false false ms
  end.

(** [parse(text)] *)
Definition parse (text : str) : result Docstring :=
  if truthy text then
    let text := Inspect.cleandoc text in
    let '(desc_chunk, meta_chunk) := chunks_of text in
    ms <- parse_chunks (Re.finditer_blocks meta_chunk) ;;
    Ok (split_preamble desc_chunk ms)
  else Ok empty_docstring.

End WithKeywords.

(** *** [compose] *)

Section Compose.
Variable rendering_style : RenderingStyle.
Variable indent : str.

(** The inner function [process_desc] of [compose]. *)
Definition process_desc (desc : option str) : str :=
  if truthy_opt desc then
    let desc := match desc with Some d => d | None => [] end in
    match rendering_style with
    | CLEAN =>
        match splitlines desc with
        | first :: rest =>
            join [nl] (([space] ++ first) :: map (app indent) rest)
        | [] => []
        end
    | EXPANDED =>
        match splitlines desc with
        | first :: rest =>
            join [nl] (([nl] ++ indent ++ first) :: map (app indent) rest)
        | [] => []
        end
    | COMPACT => [space] ++ desc
    end
  else [].

(** The text between the two colons of the tag line of a record. *)
Definition tag_text (m : DocstringMeta) : str :=
  match m with
  | DocstringParam _ _ arg_name type_name is_optional _ =>
      let type_text :=
        match type_name with
        | Some (c :: t) =>
            match is_optional with
            | Some true => [space] ++ (c :: t) ++ L "? "
            | _ => [space] ++ (c :: t) ++ [space]
            end
        | _ => [space]
        end in
      L "param" ++ type_text ++ arg_name
  | DocstringReturns _ _ type_name is_generator =>
      let type_text :=
        match type_name with
        | Some (c :: t) => [space] ++ (c :: t) ++ [space]
        | _ => []
        end in
      let key := if is_generator then L "yields" else L "returns" in
      key ++ type_text
  | DocstringRaises _ _ type_name =>
      let type_text :=
        match type_name with
        | Some (c :: t) => [space] ++ (c :: t) ++ [space]
        | _ => []
        end in
      L "raises" ++ type_text
  | Meta a _ | DocstringDeprecated a _ _ => join [space] a
  end.

(** The part [compose] appends for one record. *)
Definition compose_meta (m : DocstringMeta) : str :=
  [colon] ++ tag_text m ++ [colon] ++ process_desc (description m).

(** The parts [compose] collects before the items. *)
Definition preamble_parts (docstring : Docstring) : list str :=
  (if truthy_opt (short_description docstring)
   then match short_description docstring with Some s => [s] | None => [] end
   else [])
  ++ (if blank_after_short_description docstring then [[]] else [])
  ++ (if truthy_opt (long_description docstring)
      then match long_description docstring with Some s => [s] | None => [] end
      else [])
  ++ (if blank_after_long_description docstring then [[]] else []).

(** [compose(docstring, rendering_style, indent)] *)
Definition compose (docstring : Docstring) : str :=
  join [nl] (preamble_parts docstring ++ map compose_meta (meta docstring)).

End Compose.

End Rest.

(** ** Vocabulary of the statements *)

(** Modelled from the spec: a keyword configuration with the one keyword per
    family that the spec names ([param], [returns], [yields], [raises],
    [deprecated]); [common.py], which holds the real sets, is absent from the
    sources.  It is used for the concrete examples only: the theorems hold
    for every configuration. *)
Definition spec_keywords : Keywords :=
  mkKeywords [L "param"] [L "returns"] [L "yields"] [L "raises"]
    [L "deprecated"].

(** The family [_build_meta] dispatches a keyword to: the tests are made in
    the order param, returns or yields, deprecated, raises, and the first
    that succeeds decides. *)
Inductive Family : Type := FParam | FReturns | FDeprecated | FRaises | FGeneric.

Definition family_of (kw : Keywords) (key : str) : Family :=
  if kw_in key (PARAM_KEYWORDS kw) then FParam
  else if kw_in key (RETURNS_KEYWORDS kw) || kw_in key (YIELDS_KEYWORDS kw)
       then FReturns
  else if kw_in key (DEPRECATION_KEYWORDS kw) then FDeprecated
  else if kw_in key (RAISES_KEYWORDS kw) then FRaises
  else FGeneric.

(** A tagged block, seen as the parser sees it: the text after the leading
    colons is cut at its first colon into the tag line and the body. *)
Definition block_parts (chunk : str) : str * option str :=
  Py.split1 Py.colon (Py.lstrip_char Py.colon chunk).

(** The [default] of a param record. *)
Definition param_default (m : DocstringMeta) : option str :=
  match m with
  | DocstringParam _ _ _ _ _ default => default
  | _ => None
  end.

Definition defaults_to : str := L "defaults to ".

(** [desc] reads [pre], then ["defaults to "], then a text [g] that is not
    empty: a place where the pattern of the default value can match. *)
Definition defaults_split (desc pre g : str) : Prop :=
  desc = pre ++ defaults_to ++ g /\ g <> [].

(** The last such place of [desc]. *)
Definition last_defaults_split (desc pre g : str) : Prop :=
  defaults_split desc pre g
  /\ forall pre' g', defaults_split desc pre' g' -> length pre' <= length pre.

(** The number of offsets of [s] at which [p] occurs, and the text that
    follows the last occurrence of [p] in [s]. *)
Fixpoint occurrences (p s : str) : nat :=
  match s with
  | [] => 0
  | _ :: s' => (if Py.startswith s p then 1 else 0) + occurrences p s'
  end.

Fixpoint after_last (p s : str) : option str :=
  match s with
  | [] => Re.strip_prefix p []
  | _ :: s' =>
      match after_last p s' with
      | Some r => Some r
      | None => Re.strip_prefix p s
      end
  end.

(** The preamble of a text, the part before the first tagged block of the
    cleaned text, and what remains of it after its first line feed. *)
Definition preamble (text : str) : str :=
  fst (Rest.chunks_of (Inspect.cleandoc text)).

Definition preamble_remainder (text : str) : option str :=
  snd (Py.split1 Py.nl (preamble text)).

(** The tagged blocks of a text: the matches the parser iterates over. *)
Definition tagged_blocks (text : str) : list str :=
  Re.finditer_blocks (snd (Rest.chunks_of (Inspect.cleandoc text))).

(** The tokens of the tag line of a block. *)
Definition tag_tokens (chunk : str) : list str :=
  Py.split_ws (fst (block_parts chunk)).

(** A block without a colon after its leading colons: there is no body. *)
Definition lacks_body_delimiter (chunk : str) : Prop :=
  snd (block_parts chunk) = None.

(** The arity rule of each family, on the tokens of a tag line: two or three
    tokens for the param family, one or two for the returns, yields and
    raises families, no rule for the others. *)
Definition arity_violation (kw : Keywords) (tokens : list str) : Prop :=
  match tokens with
  | [] => False
  | key :: _ =>
      match family_of kw key with
      | FParam => length tokens <> 2 /\ length tokens <> 3
      | FReturns | FRaises => length tokens <> 1 /\ length tokens <> 2
      | FDeprecated | FGeneric => False
      end
  end.

(** The message of the arity error of a tag line. *)
Definition arity_message (kw : Keywords) (tokens : list str) : str :=
  match tokens with
  | [] => []
  | key :: _ =>
      match family_of kw key with
      | FParam => Rest.msg_param_arity key
      | _ => Rest.msg_type_arity key
      end
  end.

(** As the spec words the malformed block: once the leading delimiter is
    stripped, no further delimiter exists in the block. *)
Definition lacks_second_delimiter (block : str) : bool :=
  negb (Py.contains Py.colon (tl block)).

(** A text made of whitespace only. *)
Definition whitespace_only (s : str) : Prop :=
  Forall (fun c => Py.isspace c = true) s.

(** Whether the offset after [s] starts a line, when the offset before [s]
    does so or not according to [bol]. *)
Fixpoint bol_after (bol : bool) (s : str) : bool :=
  match s with
  | [] => bol
  | c :: s' => bol_after (Py.ch_eq c Py.nl) s'
  end.

(** No colon of [s] starts a line; [bol] tells whether [s] itself starts at
    the start of a line. *)
Definition no_tag_line (bol : bool) (s : str) : Prop :=
  snd (Re.tag_blocks bol s) = [].

(** A line feed after every line but the last: [join] cut into pieces. *)
Fixpoint with_line_feeds (lines : list str) : list str :=
  match lines with
  | [] => []
  | [l] => [l]
  | l :: lines' => (l ++ [Py.nl]) :: with_line_feeds lines'
  end.

(** A token of a tag line: not empty, without whitespace and without
    colon. *)
Definition is_token (t : str) : Prop :=
  t <> [] /\ Forall (fun c => Py.isspace c = false /\ c <> Py.colon) t.

(** One pass of parsing and composing in the compact style. *)
Definition recompose (kw : Keywords) (indent text : str) : result str :=
  d <- Rest.parse kw text ;; Ok (Rest.compose COMPACT indent d).

(** A document with a preamble and three records, for the examples. *)
Definition join_paths_doc : Docstring :=
  mkDocstring (Some (L "Join two paths.")) (Some (L "The result is normal."))
    true true
    [DocstringParam [L "param"; L "str?"; L "base"]
       (Some (L "first part" ++ [Py.nl] ++ L "defaults to cwd."))
       (L "base") (Some (L "str")) (Some true) (Some (L "cwd"));
     DocstringReturns [L "returns"; L "str"] (Some (L "the path"))
       (Some (L "str")) false;
     Meta [L "note"] (Some (L "stable"))].

(** A text that parses to [join_paths_doc]. *)
Definition join_paths_text : str :=
  L "Join two paths." ++ [Py.nl; Py.nl] ++ L "The result is normal."
    ++ [Py.nl; Py.nl] ++ L ":param str? base: first part" ++ [Py.nl]
    ++ L "    defaults to cwd." ++ [Py.nl] ++ L ":returns str: the path"
    ++ [Py.nl] ++ L ":note: stable".

(** A version-looking token: an optional [v] or [V], digits, a dot, and a
    run of digits, letters and dots. *)
Definition version_token (v : str) : Prop :=
  exists p digits seg,
    v = p ++ digits ++ [Py.dot] ++ seg
    /\ (p = [] \/ exists c, p = [c] /\ Re.is_v c = true)
    /\ digits <> [] /\ Forall (fun c => Re.isdigit c = true) digits
    /\ seg <> [] /\ Forall (fun c => Re.is_version_char c = true) seg.

(** A line that begins, or that ends, with a character that is not
    whitespace. *)
Definition starts_black (l : str) : bool :=
  match l with
  | c :: _ => negb (Py.isspace c)
  | [] => false
  end.

Definition ends_black (l : str) : bool := starts_black (rev l).

(** An indentation: whitespace, without line feed and without tab. *)
Definition is_indent (pad : str) : bool :=
  forallb (fun c => Py.isspace c && negb (Py.ch_eq c Py.nl)
                    && negb (Py.ch_eq c Py.tab)) pad.

(** No line of [s] begins with a colon. *)
Definition colon_line_free (s : str) : bool :=
  forallb (fun l => negb (Py.startswith l [Py.colon])) (Py.split Py.nl s).

(** The characters of a description that a style writes and the parser
    reads back unchanged: no tab, which [inspect.cleandoc] expands, and, in
    the styles that cut the description with [splitlines], no line
    boundary. *)
Definition plain_char (style : RenderingStyle) (c : ascii) : bool :=
  negb (Py.ch_eq c Py.tab)
  && match style with
     | COMPACT => true
     | CLEAN | EXPANDED => negb (Py.is_linebreak c)
     end.

(** The lines of a description that a style writes at the start of a line
    of the text, or after the indentation only: every line but the first,
    and the first too in the expanded style. *)
Definition own_lines (style : RenderingStyle) (first : str) (rest : list str)
  : list str :=
  match style with
  | EXPANDED => first :: rest
  | COMPACT | CLEAN => rest
  end.

(** The indentation a style puts before the lines of a description that it
    writes on lines of their own. *)
Definition style_pad (style : RenderingStyle) (pad : str) : str :=
  match style with
  | COMPACT => []
  | CLEAN | EXPANDED => pad
  end.

(** A description in the form in which the parser returns descriptions, and
    which a style renders readably: it is empty, or its lines hold plain
    characters only, it begins and ends with a character that is not
    whitespace, so does its second line begin, so does some line after the
    second (when there is one), and no line that the style writes on a line
    of its own begins with a colon. *)
Definition description_normal (style : RenderingStyle) (desc : str) : bool :=
  match Py.split Py.nl desc with
  | [] | [[]] => true
  | first :: rest =>
      starts_black first
      && forallb (forallb (plain_char style)) (first :: rest)
      && ends_black (last rest first)
      && match rest with
         | [] => true
         | second :: others =>
             starts_black second
             && match others with
                | [] => true
                | _ :: _ => existsb starts_black others
                end
         end
      && forallb (fun l => negb (Py.startswith l [Py.colon]))
           (own_lines style first rest)
  end.

(** The description of a record, an absent description counting as the
    empty one. *)
Definition desc_text (m : DocstringMeta) : str :=
  match description m with
  | Some d => d
  | None => []
  end.

(** The raw tokens of a record agree with its fields, as [compose] writes
    them: the keyword [param], [returns], [yields] or [raises] of the kind of
    the record, then the type token when there is a type name (with the
    marker [?] when the parameter is optional), then the name of the
    parameter; a generic record and a deprecation are written with their raw
    tokens. *)
Definition record_tokens_wf (m : DocstringMeta) : Prop :=
  match m with
  | DocstringParam a _ arg_name type_name is_optional _ =>
      is_token arg_name
      /\ match type_name with
         | None => a = [L "param"; arg_name]
         | Some t =>
             is_token t
             /\ a = [L "param";
                     match is_optional with
                     | Some true => t ++ L "?"
                     | _ => t
                     end;
                     arg_name]
         end
  | DocstringReturns a _ type_name is_generator =>
      let key := if is_generator then L "yields" else L "returns" in
      match type_name with
      | None => a = [key]
      | Some t => is_token t /\ a = [key; t]
      end
  | DocstringRaises a _ type_name =>
      match type_name with
      | None => a = [L "raises"]
      | Some t => is_token t /\ a = [L "raises"; t]
      end
  | Meta a _ | DocstringDeprecated a _ _ => a <> [] /\ Forall is_token a
  end.

(** The family of the keyword of a record. *)
Definition record_family (kw : Keywords) (m : DocstringMeta) : Family :=
  match args m with
  | key :: _ => family_of kw key
  | [] => FGeneric
  end.

(** A well-formed record, for a style: its raw tokens agree with its fields
    and respect the arity of the family of its keyword, its description is
    in normal form for the style and, in the deprecated family, does not
    begin with a version. *)
Definition record_wf (kw : Keywords) (style : RenderingStyle)
    (m : DocstringMeta) : Prop :=
  record_tokens_wf m
  /\ ~ arity_violation kw (args m)
  /\ description_normal style (desc_text m) = true
  /\ (record_family kw m = FDeprecated ->
      Re.search_version (desc_text m) = None).

(** A well-formed preamble: without short description there is no preamble
    at all; the short description is one line, without tab, that begins with
    a character that is neither whitespace nor a colon; the long description
    is stripped, without tab, and none of its lines begins with a colon. *)
Definition preamble_wf (d : Docstring) : bool :=
  match short_description d with
  | None =>
      match long_description d with
      | None =>
          negb (blank_after_short_description d)
          && negb (blank_after_long_description d)
      | Some _ => false
      end
  | Some s =>
      starts_black s && negb (Py.contains Py.nl s)
      && negb (Py.contains Py.tab s) && negb (Py.startswith s [Py.colon])
      && match long_description d with
         | None => true
         | Some l =>
             starts_black l && ends_black l && negb (Py.contains Py.tab l)
             && colon_line_free l
         end
  end.

(** A well-formed document, for a style. *)
Definition document_wf (kw : Keywords) (style : RenderingStyle)
    (d : Docstring) : Prop :=
  preamble_wf d = true /\ Forall (record_wf kw style) (meta d).

(** A keyword configuration in which the four keywords that [compose] writes
    belong to the families they stand for. *)
Definition keywords_sane (kw : Keywords) : Prop :=
  family_of kw (L "param") = FParam
  /\ family_of kw (L "returns") = FReturns
  /\ kw_in (L "returns") (YIELDS_KEYWORDS kw) = false
  /\ family_of kw (L "yields") = FReturns
  /\ kw_in (L "yields") (YIELDS_KEYWORDS kw) = true
  /\ family_of kw (L "raises") = FRaises.

(** A tag line as [compose] writes it from well-formed tokens: it is not
    empty and holds no colon, no line feed and no tab. *)
Definition tag_line_plain (t : str) : Prop :=
  t <> [] /\ Py.contains Py.colon t = false
  /\ Py.contains Py.nl t = false /\ Py.contains Py.tab t = false.

(** A record [compose] renders readably in a style: its tag line is plain and
    its description is in normal form. *)
Definition record_ready (style : RenderingStyle) (m : DocstringMeta) : Prop :=
  tag_line_plain (Rest.tag_text m)
  /\ description_normal style (desc_text m) = true.

(** A keyword configuration with a second keyword in four families ([arg],
    [return], [yield], [raise]), as a configuration with aliases has them;
    it is used for examples only. *)
Definition alias_keywords : Keywords :=
  mkKeywords [L "param"; L "arg"] [L "returns"; L "return"]
    [L "yields"; L "yield"] [L "raises"; L "raise"] [L "deprecated"].

(** A text with a line of one space after the short description, a
    deprecation with a version and a returns block written with the keyword
    [return], and the document [parse] returns for it under
    [alias_keywords]. *)
Definition notice_text : str :=
  L "Short" ++ [Py.nl] ++ L " " ++ [Py.nl; Py.nl]
    ++ L ":deprecated: 1.2 gone" ++ [Py.nl] ++ L ":return: the x".

Definition notice_doc : Docstring :=
  mkDocstring (Some (L "Short")) None false true
    [DocstringDeprecated [L "deprecated"] (Some (L "gone")) (Some (L "1.2"));
     DocstringReturns [L "return"] (Some (L "the x")) None false].

(** ** Lemmas on text *)

Lemma app_eq_length (A : Type) (a a' b b' : list A) :
  length a = length a' -> a ++ b = a' ++ b' -> a = a' /\ b = b'.
Proof.
  revert a'; induction a as [|x a IH]; intros [|x' a'] Hlen H;
    try discriminate; cbn in *.
  - auto.
  - injection H as -> H. injection Hlen as Hlen.
    destruct (IH _ Hlen H) as [-> ->]. auto.
Qed.

Lemma str_eqb_eq a b : str_eqb a b = true <-> a = b.
Proof. unfold str_eqb. destruct (list_eq_dec ascii_dec a b); split; congruence. Qed.

Lemma str_eqb_refl a : str_eqb a a = true.
Proof. now apply str_eqb_eq. Qed.

Lemma str_eqb_neq a b : str_eqb a b = false <-> a <> b.
Proof. unfold str_eqb. destruct (list_eq_dec ascii_dec a b); split; congruence. Qed.

(** ** Family-specific parsing *)

Section BuildMeta.
Import Py Rest.
Variable kw : Keywords.

Lemma family_param key :
  family_of kw key = FParam -> kw_in key (PARAM_KEYWORDS kw) = true.
Proof.
  unfold family_of.
  destruct (kw_in key (PARAM_KEYWORDS kw)); [reflexivity|].
  destruct (kw_in key (RETURNS_KEYWORDS kw) || kw_in key (YIELDS_KEYWORDS kw));
    [discriminate|].
  destruct (kw_in key (DEPRECATION_KEYWORDS kw)); [discriminate|].
  destruct (kw_in key (RAISES_KEYWORDS kw)); discriminate.
Qed.

Lemma family_deprecated key :
  family_of kw key = FDeprecated ->
  kw_in key (PARAM_KEYWORDS kw) = false
  /\ kw_in key (RETURNS_KEYWORDS kw) || kw_in key (YIELDS_KEYWORDS kw) = false
  /\ kw_in key (DEPRECATION_KEYWORDS kw) = true.
Proof.
  unfold family_of.
  destruct (kw_in key (PARAM_KEYWORDS kw)); [discriminate|].
  destruct (kw_in key (RETURNS_KEYWORDS kw) || kw_in key (YIELDS_KEYWORDS kw));
    [discriminate|].
  destruct (kw_in key (DEPRECATION_KEYWORDS kw)); [auto|].
  destruct (kw_in key (RAISES_KEYWORDS kw)); discriminate.
Qed.

(** What [_build_meta] returns for a keyword of the param family and two
    tokens. *)
Lemma build_param_two key arg_name desc :
  kw_in key (PARAM_KEYWORDS kw) = true ->
  _build_meta kw [key; arg_name] desc =
  Ok (DocstringParam [key; arg_name] (Some desc) arg_name None None
        (option_map (rstrip_char dot) (Re.match_defaults desc))).
Proof.
  intros Hk. unfold _build_meta. rewrite Hk. cbn [bind].
  destruct (Re.match_defaults desc); reflexivity.
Qed.

(** What [_build_meta] returns for a keyword of the deprecated family. *)
Lemma build_deprecated key rest desc :
  family_of kw key = FDeprecated ->
  _build_meta kw (key :: rest) desc =
  Ok (match Re.search_version desc with
      | Some (version, d) =>
          DocstringDeprecated (key :: rest) (Some d) (Some version)
      | None => DocstringDeprecated (key :: rest) (Some desc) None
      end).
Proof.
  intros Hf. destruct (family_deprecated _ Hf) as (Hp & Hr & Hd).
  unfold _build_meta. rewrite Hp, Hr, Hd.
  destruct (Re.search_version desc) as [[v d]|]; reflexivity.
Qed.

End BuildMeta.

(** C6: a param-family block whose tag line has two tokens, [:param <name>:],
    parses to a [DocstringParam] record whose [type_name] is absent and whose
    [is_optional] is [None], the unknown value, and not [False]. *)
Theorem param_two_tokens_type_unknown :
  forall (kw : Keywords) (chunk args_chunk desc_chunk key arg_name : str),
    block_parts chunk = (args_chunk, Some desc_chunk) ->
    Py.split_ws args_chunk = [key; arg_name] ->
    family_of kw key = FParam ->
    exists default,
      Rest.parse_chunk kw chunk =
      Ok (DocstringParam [key; arg_name] (Some (Rest.block_desc desc_chunk))
            arg_name None None default).
Proof.
  intros kw chunk args_chunk desc_chunk key arg_name Hparts Hargs Hfam.
  unfold Rest.parse_chunk. unfold block_parts in Hparts. rewrite Hparts, Hargs.
  rewrite build_param_two by now apply family_param.
  eexists. reflexivity.
Qed.

Lemma param_two_tokens_type_unknown_witness :
  exists default,
    Rest.parse_chunk spec_keywords (L ":param x: the value") =
    Ok (DocstringParam [L "param"; L "x"] (Some (L "the value")) (L "x")
          None None default).
Proof.
  exact (@param_two_tokens_type_unknown spec_keywords (L ":param x: the value")
           (L "param x") (L " the value") (L "param") (L "x")
           eq_refl eq_refl eq_refl).
Defined.

(** C9: a deprecated-family block is never checked for arity: whatever the
    number of tokens of its tag line, one or more, the block parses to a
    [DocstringDeprecated] record holding all of them, and no [ParseError] is
    raised. *)
Theorem deprecated_any_arity :
  forall (kw : Keywords) (chunk args_chunk desc_chunk key : str)
         (more : list str),
    block_parts chunk = (args_chunk, Some desc_chunk) ->
    Py.split_ws args_chunk = key :: more ->
    family_of kw key = FDeprecated ->
    exists d version,
      Rest.parse_chunk kw chunk =
      Ok (DocstringDeprecated (key :: more) (Some d) version).
Proof.
  intros kw chunk args_chunk desc_chunk key more Hparts Hargs Hfam.
  unfold Rest.parse_chunk. unfold block_parts in Hparts. rewrite Hparts, Hargs.
  rewrite build_deprecated by assumption.
  destruct (Re.search_version _) as [[v d]|]; eauto.
Qed.

Lemma deprecated_any_arity_witness :
  exists d version,
    Rest.parse_chunk spec_keywords (L ":deprecated a b c d: 2.0 gone") =
    Ok (DocstringDeprecated [L "deprecated"; L "a"; L "b"; L "c"; L "d"]
          (Some d) version).
Proof.
  exact (@deprecated_any_arity spec_keywords
           (L ":deprecated a b c d: 2.0 gone") (L "deprecated a b c d")
           (L " 2.0 gone") (L "deprecated") [L "a"; L "b"; L "c"; L "d"]
           eq_refl eq_refl eq_refl).
Defined.

(** ** The deprecated family: the version pattern stops at the first line *)

(** C4 (evaluation at the failing input): the description of
    [:deprecated: 1.2.3 first] followed by a second line [second] starts with
    a version token and a space, yet the record keeps [first] only: the text
    after the first line feed is dropped, because the dot of the version
    pattern does not match a line feed. *)
Theorem deprecated_version_drops_later_lines :
  Rest.parse spec_keywords
    (L ":deprecated: 1.2.3 first" ++ [Py.nl] ++ L "second") =
  Ok (mkDocstring None None false false
        [DocstringDeprecated [L "deprecated"] (Some (L "first"))
           (Some (L "1.2.3"))]).
Proof. vm_compute. reflexivity. Qed.

(** ** The default value of a parameter *)

Section Defaults.
Import Py.

Lemma strip_prefix_Some p s r :
  Re.strip_prefix p s = Some r <-> s = p ++ r.
Proof.
  revert s; induction p as [|a p IH]; intros s; cbn.
  - split; congruence.
  - destruct s as [|b s]; [split; discriminate|].
    unfold ch_eq. destruct (Ascii.eqb_spec a b) as [->|Hne].
    + rewrite IH. split; [intros ->; reflexivity | now intros [= ->]].
    + split; [discriminate | intros [= ? _]; congruence].
Qed.

Lemma defaults_here_Some s g :
  Re.defaults_here s = Some g <-> defaults_split s [] g.
Proof.
  unfold Re.defaults_here, defaults_split. cbn [app].
  destruct (Re.strip_prefix (L "defaults to ") s) as [r|] eqn:E.
  - apply strip_prefix_Some in E. fold defaults_to in E. subst s.
    destruct r as [|c r].
    + split; [discriminate|]. intros [H1 H2]. apply app_inv_head in H1.
      subst g. contradiction.
    + split.
      * intros [= <-]. split; [reflexivity | discriminate].
      * intros [H1 _]. apply app_inv_head in H1. now subst g.
  - split; [discriminate|]. intros [H1 _].
    fold defaults_to in E.
    assert (Re.strip_prefix defaults_to s = Some g) as E'
        by now apply strip_prefix_Some.
    congruence.
Qed.

Lemma defaults_split_cons c desc pre g :
  defaults_split (c :: desc) pre g <->
  (pre = [] /\ defaults_split (c :: desc) [] g)
  \/ exists pre', pre = c :: pre' /\ defaults_split desc pre' g.
Proof.
  unfold defaults_split. split.
  - intros [H Hg]. destruct pre as [|c' pre'].
    + left. auto.
    + right. cbn in H. injection H as -> H. eauto.
  - intros [[-> H]|[pre' [-> [H Hg]]]]; [exact H|].
    split; [cbn; now rewrite H | exact Hg].
Qed.

Lemma match_defaults_None desc :
  Re.match_defaults desc = None <-> forall pre g, ~ defaults_split desc pre g.
Proof.
  induction desc as [|c desc IH].
  - cbn. split; [|reflexivity]. intros _ pre g [H _].
    destruct pre; discriminate.
  - cbn [Re.match_defaults]. destruct (Re.match_defaults desc) as [g0|] eqn:E.
    + split; [discriminate|]. intros Hno.
      assert (Hsome : ~ forall pre g, ~ defaults_split desc pre g).
      { intros H. apply IH in H. discriminate. }
      exfalso. apply Hsome. intros pre g Hs.
      apply (Hno (c :: pre) g). apply defaults_split_cons. right. eauto.
    + assert (IH' : forall pre g, ~ defaults_split desc pre g)
        by now apply IH.
      split.
      * intros Hhere pre g Hs. apply defaults_split_cons in Hs.
        destruct Hs as [[-> Hs]|[pre' [-> Hs]]].
        -- apply defaults_here_Some in Hs. congruence.
        -- exact (IH' _ _ Hs).
      * intros Hno. destruct (Re.defaults_here (c :: desc)) as [g|] eqn:Eh;
          [|reflexivity].
        apply defaults_here_Some in Eh. exfalso. exact (Hno _ _ Eh).
Qed.

Lemma match_defaults_Some desc g :
  Re.match_defaults desc = Some g -> exists pre, last_defaults_split desc pre g.
Proof.
  revert g. induction desc as [|c desc IH]; intros g; [discriminate|].
  cbn [Re.match_defaults].
  destruct (Re.match_defaults desc) as [g0|] eqn:E.
  - intros [= <-]. destruct (IH _ eq_refl) as [pre [Hs Hmax]].
    exists (c :: pre). split.
    + apply defaults_split_cons. right. eauto.
    + intros pre' g' Hs'. apply defaults_split_cons in Hs'.
      destruct Hs' as [[-> _]|[p' [-> Hs']]]; cbn; [lia|].
      specialize (Hmax _ _ Hs'). lia.
  - intros Hh. apply defaults_here_Some in Hh. exists []. split; [exact Hh|].
    intros pre' g' Hs'. apply defaults_split_cons in Hs'.
    destruct Hs' as [[-> _]|[p' [-> Hs']]]; [cbn; lia|].
    exfalso. revert Hs'. now apply match_defaults_None.
Qed.

Lemma last_defaults_split_unique desc pre g pre' g' :
  last_defaults_split desc pre g -> last_defaults_split desc pre' g' ->
  g = g'.
Proof.
  intros [[H Hg] Hmax] [[H' Hg'] Hmax'].
  assert (Hlen : length pre = length pre').
  { apply Nat.le_antisymm;
      [apply (Hmax' pre g) | apply (Hmax pre' g')]; split; assumption. }
  rewrite H in H'.
  destruct (app_eq_length _ _ _ _ Hlen H') as [_ H''].
  now apply app_inv_head in H''.
Qed.

End Defaults.

Section ParamDefault.
Import Py Rest.
Variable kw : Keywords.

(** A param record carries the group of the pattern, its trailing periods
    stripped. *)
Lemma build_param_default key more desc m :
  kw_in key (PARAM_KEYWORDS kw) = true ->
  _build_meta kw (key :: more) desc = Ok m ->
  param_default m = option_map (rstrip_char dot) (Re.match_defaults desc).
Proof.
  intros Hk. unfold _build_meta. rewrite Hk.
  destruct more as [|a [|b [|c more]]]; cbn [bind]; try discriminate.
  - destruct (Re.match_defaults desc); intros [= <-]; reflexivity.
  - destruct (endswith a (L "?")); cbn [bind];
      destruct (Re.match_defaults desc); intros [= <-]; reflexivity.
Qed.

End ParamDefault.

(** C10 (as the code has it): the default value of a param-family block is
    taken after the last place of the description where ["defaults to "],
    with its space, is followed by at least one character; it is everything
    after that place, line feeds included, with the trailing periods
    stripped.  The match is case-sensitive: a description without such a
    place, like ["Defaults to X"], yields no default value. *)
Theorem defaults_to_last_place :
  forall (kw : Keywords) (chunk args_chunk desc_chunk key : str)
         (more : list str) (m : DocstringMeta),
    block_parts chunk = (args_chunk, Some desc_chunk) ->
    Py.split_ws args_chunk = key :: more ->
    family_of kw key = FParam ->
    Rest.parse_chunk kw chunk = Ok m ->
    (forall pre g,
        last_defaults_split (Rest.block_desc desc_chunk) pre g ->
        param_default m = Some (Py.rstrip_char Py.dot g))
    /\ ((forall pre g, ~ defaults_split (Rest.block_desc desc_chunk) pre g) ->
        param_default m = None)
    /\ (forall x, Rest.block_desc desc_chunk = L "Defaults to " ++ x ->
        Re.match_defaults x = None -> param_default m = None).
Proof.
  intros kw chunk args_chunk desc_chunk key more m Hparts Hargs Hfam Hm.
  unfold Rest.parse_chunk in Hm. unfold block_parts in Hparts.
  rewrite Hparts, Hargs in Hm.
  apply build_param_default in Hm; [|now apply family_param].
  rewrite Hm. clear Hm. split; [|split].
  - intros pre g Hlast.
    destruct (Re.match_defaults (Rest.block_desc desc_chunk)) as [g0|] eqn:E.
    + apply match_defaults_Some in E. destruct E as [pre0 E].
      cbn. f_equal. f_equal. eapply last_defaults_split_unique; eassumption.
    + exfalso. destruct Hlast as [Hs _]. revert Hs.
      now apply match_defaults_None.
  - intros Hno. apply match_defaults_None in Hno. now rewrite Hno.
  - intros x -> Hx.
    replace (Re.match_defaults (L "Defaults to " ++ x)) with (@None str);
      [reflexivity|].
    symmetry. cbn. rewrite Hx. reflexivity.
Qed.

Lemma defaults_to_last_place_witness :
  param_default
    (DocstringParam [L "param"; L "x"]
       (Some (L "defaults to 1, no, defaults to 2.")) (L "x") None None
       (Some (L "2"))) = Some (Py.rstrip_char Py.dot (L "2.")).
Proof.
  destruct (@match_defaults_Some (L "defaults to 1, no, defaults to 2.")
              (L "2.") eq_refl) as [pre Hlast].
  exact (proj1 (@defaults_to_last_place spec_keywords
                  (L ":param x: defaults to 1, no, defaults to 2.")
                  (L "param x") (L " defaults to 1, no, defaults to 2.")
                  (L "param") [L "x"] _ eq_refl eq_refl eq_refl eq_refl)
           pre (L "2.") Hlast).
Defined.

(** C10 (counterexample): in ["defaults to A defaults to"] the text occurs
    twice and nothing follows its last occurrence, but the default value
    extracted is ["A defaults to"], the text after the first occurrence. *)
Lemma defaults_to_last_occurrence_counterexample :
  occurrences (L "defaults to") (L "defaults to A defaults to") = 2
  /\ after_last (L "defaults to") (L "defaults to A defaults to") = Some []
  /\ Rest.parse_chunk spec_keywords (L ":param x: defaults to A defaults to") =
     Ok (DocstringParam [L "param"; L "x"]
           (Some (L "defaults to A defaults to")) (L "x") None None
           (Some (L "A defaults to"))).
Proof. vm_compute. repeat split. Qed.

(** ** The blank-line flags *)

(** The fields of a parsed document that come from the preamble, whatever the
    tagged blocks are. *)
Lemma parse_preamble_fields kw text d :
  Rest.parse kw text = Ok d ->
  blank_after_short_description d =
    match preamble_remainder text with
    | Some r => Py.startswith r [Py.nl]
    | None => false
    end
  /\ blank_after_long_description d =
    match preamble_remainder text with
    | Some r => Py.endswith r [Py.nl; Py.nl]
    | None => false
    end
  /\ short_description d = Py.or_None (fst (Py.split1 Py.nl (preamble text)))
  /\ long_description d =
    match preamble_remainder text with
    | Some r => Py.or_None (Py.strip r)
    | None => None
    end.
Proof.
  unfold Rest.parse, preamble_remainder, preamble.
  destruct text as [|c text]; cbn [Py.truthy].
  - intros [= <-]. repeat split.
  - destruct (Rest.chunks_of (Inspect.cleandoc (c :: text))) as [dc mc].
    cbn [fst snd]. unfold Rest.split_preamble.
    destruct (Py.split1 Py.nl dc) as [first [r|]]; cbn [fst snd];
      destruct (Rest.parse_chunks kw (Re.finditer_blocks mc)) as [ms|e];
      cbn [bind]; try discriminate; intros [= <-]; repeat split.
Qed.

(** C7: ["Short.\n\nLong."] parses to [blank_after_short = true] and
    [long_description = "Long."], and ["Short.\nLong."] to
    [blank_after_short = false]; in general [blank_after_short] is true iff
    the remainder of the preamble after its first line feed begins with a
    line feed, and [blank_after_long] is true iff that remainder ends with two
    line feeds. *)
Theorem blank_line_flags :
  forall (kw : Keywords),
    Rest.parse kw (L "Short." ++ [Py.nl; Py.nl] ++ L "Long.") =
      Ok (mkDocstring (Some (L "Short.")) (Some (L "Long.")) true false [])
    /\ Rest.parse kw (L "Short." ++ [Py.nl] ++ L "Long.") =
      Ok (mkDocstring (Some (L "Short.")) (Some (L "Long.")) false false [])
    /\ forall (text : str) (d : Docstring),
        Rest.parse kw text = Ok d ->
        (blank_after_short_description d = true <->
         exists r, preamble_remainder text = Some r
                   /\ Py.startswith r [Py.nl] = true)
        /\ (blank_after_long_description d = true <->
            exists r, preamble_remainder text = Some r
                      /\ Py.endswith r [Py.nl; Py.nl] = true).
Proof.
  intros kw. split; [reflexivity|]. split; [reflexivity|].
  intros text d Hd.
  destruct (parse_preamble_fields _ _ Hd) as (Hs & Hl & _).
  rewrite Hs, Hl. destruct (preamble_remainder text) as [r|].
  - split; (split; [eauto | intros (r' & [= <-] & H); exact H]).
  - split; (split; [discriminate | intros (r' & [=] & _)]).
Qed.

Lemma blank_line_flags_witness :
  (true = true <->
   exists r,
     preamble_remainder
       (L "Usage." ++ [Py.nl; Py.nl] ++ L "Details." ++ [Py.nl; Py.nl]
          ++ L ":returns: nothing") = Some r
     /\ Py.startswith r [Py.nl] = true)
  /\ (true = true <->
      exists r,
        preamble_remainder
          (L "Usage." ++ [Py.nl; Py.nl] ++ L "Details." ++ [Py.nl; Py.nl]
             ++ L ":returns: nothing") = Some r
        /\ Py.endswith r [Py.nl; Py.nl] = true).
Proof.
  exact (proj2 (proj2 (blank_line_flags spec_keywords))
           (L "Usage." ++ [Py.nl; Py.nl] ++ L "Details." ++ [Py.nl; Py.nl]
              ++ L ":returns: nothing")
           (mkDocstring (Some (L "Usage.")) (Some (L "Details.")) true true
              [DocstringReturns [L "returns"] (Some (L "nothing")) None false])
           eq_refl).
Defined.

(** ** When the parser fails *)

Section Failures.
Import Py Rest.
Variable kw : Keywords.

Lemma build_meta_raise tokens desc e :
  _build_meta kw tokens desc = Raise e <->
  (tokens = [] /\ e = IndexError)
  \/ (arity_violation kw tokens /\ e = ParseError (arity_message kw tokens)).
Proof.
  destruct tokens as [|key more].
  - cbn. split.
    + intros [= <-]. auto.
    + intros [[_ ->]|[[] _]]. reflexivity.
  - unfold _build_meta, arity_violation, arity_message, family_of.
    destruct (kw_in key (PARAM_KEYWORDS kw)).
    { destruct more as [|a [|b [|c more]]]; cbn [bind length].
      - split; [intros [= <-]; right; split; [lia | reflexivity]|].
        intros [[[=] _]|[_ ->]]. reflexivity.
      - destruct (Re.match_defaults desc); split; try discriminate;
          intros [[[=] _]|[[H _] _]]; contradiction.
      - destruct (endswith a (L "?")); cbn [bind];
          destruct (Re.match_defaults desc); split; try discriminate;
          intros [[[=] _]|[[_ H] _]]; contradiction.
      - split; [intros [= <-]; right; split; [lia | reflexivity]|].
        intros [[[=] _]|[_ ->]]. reflexivity. }
    destruct (kw_in key (RETURNS_KEYWORDS kw) || kw_in key (YIELDS_KEYWORDS kw)).
    { destruct more as [|a [|b more]]; cbn [bind length].
      - split; try discriminate. intros [[[=] _]|[[H _] _]]; contradiction.
      - split; try discriminate. intros [[[=] _]|[[_ H] _]]; contradiction.
      - split; [intros [= <-]; right; split; [lia | reflexivity]|].
        intros [[[=] _]|[_ ->]]. reflexivity. }
    destruct (kw_in key (DEPRECATION_KEYWORDS kw)).
    { destruct (Re.search_version desc) as [[v d]|]; split; try discriminate;
        intros [[[=] _]|[[] _]]. }
    destruct (kw_in key (RAISES_KEYWORDS kw)).
    { destruct more as [|a [|b more]]; cbn [bind length].
      - split; try discriminate. intros [[[=] _]|[[H _] _]]; contradiction.
      - split; try discriminate. intros [[[=] _]|[[_ H] _]]; contradiction.
      - split; [intros [= <-]; right; split; [lia | reflexivity]|].
        intros [[[=] _]|[_ ->]]. reflexivity. }
    split; try discriminate. intros [[[=] _]|[[] _]].
Qed.

(** Every record keeps the tokens it was built from. *)
Lemma build_meta_args tokens desc m :
  _build_meta kw tokens desc = Ok m -> args m = tokens.
Proof.
  destruct tokens as [|key more]; [discriminate|].
  unfold _build_meta.
  destruct (kw_in key (PARAM_KEYWORDS kw)).
  { destruct more as [|a [|b [|c more]]]; cbn [bind]; try discriminate.
    - destruct (Re.match_defaults desc); intros [= <-]; reflexivity.
    - destruct (endswith a (L "?")); cbn [bind];
        destruct (Re.match_defaults desc); intros [= <-]; reflexivity. }
  destruct (kw_in key (RETURNS_KEYWORDS kw) || kw_in key (YIELDS_KEYWORDS kw)).
  { destruct more as [|a [|b more]]; cbn [bind]; try discriminate;
      intros [= <-]; reflexivity. }
  destruct (kw_in key (DEPRECATION_KEYWORDS kw)).
  { destruct (Re.search_version desc) as [[v d]|]; intros [= <-]; reflexivity. }
  destruct (kw_in key (RAISES_KEYWORDS kw)).
  { destruct more as [|a [|b more]]; cbn [bind]; try discriminate;
      intros [= <-]; reflexivity. }
  intros [= <-]; reflexivity.
Qed.

(** Whether [_build_meta] succeeds depends on the tokens only. *)
Lemma build_meta_total tokens desc desc' m :
  _build_meta kw tokens desc = Ok m ->
  exists m', _build_meta kw tokens desc' = Ok m'.
Proof.
  intros H. destruct (_build_meta kw tokens desc') as [m'|e] eqn:E; [eauto|].
  exfalso. apply build_meta_raise in E.
  assert (H' : _build_meta kw tokens desc = Raise e -> False) by congruence.
  apply H'. apply build_meta_raise.
  destruct E as [[-> ->]|[Hv ->]]; auto.
Qed.

Lemma parse_chunk_raise chunk e :
  parse_chunk kw chunk = Raise e <->
  (lacks_body_delimiter chunk /\ e = ParseError (msg_near chunk))
  \/ (~ lacks_body_delimiter chunk /\ tag_tokens chunk = [] /\ e = IndexError)
  \/ (~ lacks_body_delimiter chunk /\ arity_violation kw (tag_tokens chunk)
      /\ e = ParseError (arity_message kw (tag_tokens chunk))).
Proof.
  unfold parse_chunk, lacks_body_delimiter, tag_tokens, block_parts.
  destruct (split1 colon (lstrip_char colon chunk)) as [a [d|]]; cbn [fst snd].
  - rewrite build_meta_raise. split.
    + intros [[H ->]|[H ->]]; [right; left | right; right];
        (split; [discriminate | auto]).
    + intros [[[=] _]|[(_ & H & ->)|(_ & H & ->)]]; auto.
  - split.
    + intros [= <-]. auto.
    + intros [[_ ->]|[(H & _)|(H & _)]]; [reflexivity | |]; now destruct H.
Qed.

(** The loop stops at the first chunk that fails, with its exception. *)
Lemma parse_chunks_raise chunks e :
  Forall (fun b => b <> []) chunks ->
  (parse_chunks kw chunks = Raise e <->
   exists before b after,
     chunks = before ++ b :: after
     /\ Forall (fun b' => exists m, parse_chunk kw b' = Ok m) before
     /\ parse_chunk kw b = Raise e).
Proof.
  induction chunks as [|c chunks IH]; intros Hne.
  - cbn. split; [discriminate|]. intros (before & b & after & H & _).
    destruct before; discriminate.
  - inversion Hne as [|? ? Hc Hne']; subst.
    specialize (IH Hne').
    cbn [parse_chunks]. destruct c as [|x c]; [contradiction|].
    cbn [truthy]. split.
    + destruct (parse_chunk kw (x :: c)) as [m|e0] eqn:Ec; cbn [bind].
      * destruct (parse_chunks kw chunks) as [ms|e1] eqn:Ecs; cbn [bind];
          [discriminate|].
        intros [= <-].
        destruct (proj1 IH eq_refl) as (before & b & after & -> & Hb & Hr).
        exists ((x :: c) :: before), b, after. repeat split; eauto.
      * intros [= <-]. exists [], (x :: c), chunks. auto.
    + intros (before & b & after & H & Hb & Hr).
      destruct before as [|b0 before]; cbn in H.
      * injection H as <- <-. rewrite Hr. reflexivity.
      * injection H as <- ->. inversion Hb as [|? ? [m Hm] Hb']; subst.
        rewrite Hm. cbn [bind].
        rewrite (proj2 IH) by eauto 6. reflexivity.
Qed.

End Failures.

Lemma classic_delim chunk :
  lacks_body_delimiter chunk \/ ~ lacks_body_delimiter chunk.
Proof.
  unfold lacks_body_delimiter. destruct (snd (block_parts chunk));
    [right; discriminate | left; reflexivity].
Qed.

Lemma tag_blocks_nonempty bol s :
  Forall (fun b => b <> []) (snd (Re.tag_blocks bol s)).
Proof.
  revert bol; induction s as [|c s IH]; intros bol; cbn; [constructor|].
  specialize (IH (Py.ch_eq c Py.nl)).
  destruct (Re.tag_blocks (Py.ch_eq c Py.nl) s) as [pre bs].
  destruct (bol && Py.ch_eq c Py.colon); cbn in *; [|exact IH].
  constructor; [discriminate | exact IH].
Qed.

Lemma tagged_blocks_nonempty text :
  Forall (fun b => b <> []) (tagged_blocks text).
Proof. apply tag_blocks_nonempty. Qed.

(** [parse] fails exactly when the loop over the tagged blocks does, and with
    the same exception. *)
Lemma parse_by_chunks kw text :
  exists f : list DocstringMeta -> Docstring,
    Rest.parse kw text =
    (ms <- Rest.parse_chunks kw (tagged_blocks text) ;; Ok (f ms)).
Proof.
  unfold Rest.parse, tagged_blocks. destruct text as [|c text].
  - exists (fun _ => empty_docstring). reflexivity.
  - cbn [Py.truthy].
    destruct (Rest.chunks_of (Inspect.cleandoc (c :: text))) as [dc mc].
    cbn [snd]. eexists. reflexivity.
Qed.

Lemma parse_chunks_ok kw chunks ms :
  Rest.parse_chunks kw chunks = Ok ms ->
  Forall (fun b => b <> [] -> exists m, Rest.parse_chunk kw b = Ok m) chunks.
Proof.
  revert ms; induction chunks as [|c chunks IH]; intros ms; [constructor|].
  cbn [Rest.parse_chunks]. destruct c as [|x c]; cbn [Py.truthy].
  - intros H. constructor; [congruence | eauto].
  - destruct (Rest.parse_chunk kw (x :: c)) as [m|e] eqn:E; cbn [bind];
      [|discriminate].
    destruct (Rest.parse_chunks kw chunks) as [ms'|e]; cbn [bind];
      [|discriminate].
    intros _. constructor; eauto.
Qed.

(** C3 (as the code has it): where every tagged block that has a body
    delimiter also has a tag token, [parse] raises a [ParseError], and returns
    no document, exactly when some tagged block has no colon after its
    leading colons, or has a tag line that violates the arity of its keyword
    family.  The message then quotes the block, or names the keyword;
    otherwise a document is returned.  In particular [:param a b c:] and
    [:returns a b:] raise a [ParseError]. *)
Theorem parse_error_exactly_when :
  Rest.parse spec_keywords (L ":param a b c: d") =
    Raise (ParseError (L "Expected one or two arguments for a param keyword."))
  /\ Rest.parse spec_keywords (L ":returns a b: d") =
    Raise (ParseError (L "Expected one or no arguments for a returns keyword."))
  /\ forall (kw : Keywords) (text : str),
      (forall b, In b (tagged_blocks text) -> ~ lacks_body_delimiter b ->
                 tag_tokens b <> []) ->
      ((exists msg, Rest.parse kw text = Raise (ParseError msg)) <->
       (exists b, In b (tagged_blocks text)
                  /\ (lacks_body_delimiter b
                      \/ arity_violation kw (tag_tokens b))))
      /\ (forall msg,
            Rest.parse kw text = Raise (ParseError msg) ->
            exists b, In b (tagged_blocks text)
                      /\ ((lacks_body_delimiter b /\ msg = Rest.msg_near b)
                          \/ (arity_violation kw (tag_tokens b)
                              /\ msg = arity_message kw (tag_tokens b))))
      /\ ((forall b, In b (tagged_blocks text) ->
                     ~ lacks_body_delimiter b
                     /\ ~ arity_violation kw (tag_tokens b)) ->
          exists d, Rest.parse kw text = Ok d).
Proof.
  split; [reflexivity|]. split; [reflexivity|].
  intros kw text Htok.
  destruct (parse_by_chunks kw text) as [f Hf].
  pose proof (tagged_blocks_nonempty text) as Hne.
  assert (Hraise : forall e, Rest.parse kw text = Raise e ->
            exists b, In b (tagged_blocks text)
                      /\ Rest.parse_chunk kw b = Raise e).
  { intros e He. rewrite Hf in He.
    destruct (Rest.parse_chunks kw (tagged_blocks text)) as [ms|e'] eqn:E;
      cbn [bind] in He; [discriminate|]. injection He as ->.
    apply (parse_chunks_raise kw e Hne) in E.
    destruct E as (before & b & after & Hb & _ & Hr).
    exists b. split; [|exact Hr]. rewrite Hb. apply in_elt. }
  assert (Hno_index : Rest.parse kw text <> Raise IndexError).
  { intros He. destruct (Hraise _ He) as (b & Hin & Hr).
    apply parse_chunk_raise in Hr.
    destruct Hr as [[_ [=]]|[(Hd & Ht & _)|(_ & _ & [=])]].
    exact (Htok b Hin Hd Ht). }
  assert (Hmsg : forall msg,
            Rest.parse kw text = Raise (ParseError msg) ->
            exists b, In b (tagged_blocks text)
                      /\ ((lacks_body_delimiter b /\ msg = Rest.msg_near b)
                          \/ (arity_violation kw (tag_tokens b)
                              /\ msg = arity_message kw (tag_tokens b)))).
  { intros msg He. destruct (Hraise _ He) as (b & Hin & Hr).
    exists b. split; [exact Hin|]. apply parse_chunk_raise in Hr.
    destruct Hr as [[Hl [= ->]]|[(_ & _ & [=])|(_ & Hv & [= ->])]]; auto. }
  assert (Hbad : forall b, In b (tagged_blocks text) ->
            lacks_body_delimiter b \/ arity_violation kw (tag_tokens b) ->
            exists e, Rest.parse kw text = Raise e).
  { intros b Hin Hv.
    destruct (Rest.parse kw text) as [d|e] eqn:E; [|eauto]. exfalso.
    rewrite Hf in E.
    destruct (Rest.parse_chunks kw (tagged_blocks text)) as [ms|e'] eqn:Ec;
      cbn [bind] in E; [|discriminate].
    apply parse_chunks_ok in Ec. rewrite Forall_forall in Ec, Hne.
    destruct (Ec b Hin (Hne b Hin)) as [m Hm].
    assert (Hr : exists e, Rest.parse_chunk kw b = Raise e).
    { destruct Hv as [Hl|Hv].
      - eexists. apply parse_chunk_raise. left. eauto.
      - destruct (classic_delim b) as [Hl|Hl].
        + eexists. apply parse_chunk_raise. left. eauto.
        + eexists. apply parse_chunk_raise. right. right. eauto. }
    destruct Hr as [e Hr]. congruence. }
  split; [|split].
  - split.
    + intros [msg He]. destruct (Hmsg _ He) as (b & Hin & [[H _]|[H _]]); eauto.
    + intros (b & Hin & Hv). destruct (Hbad b Hin Hv) as [[msg|] He]; eauto.
      contradiction.
  - exact Hmsg.
  - intros Hgood. destruct (Rest.parse kw text) as [d|e] eqn:E; [eauto|].
    exfalso. destruct (Hraise _ eq_refl) as (b & Hin & Hr).
    destruct (Hgood b Hin) as [Hd Ha]. apply parse_chunk_raise in Hr.
    destruct Hr as [[Hl _]|[(_ & Ht & _)|(_ & Hv & _)]]; auto.
    exact (Htok b Hin Hd Ht).
Qed.

Lemma parse_error_exactly_when_witness :
  (exists msg,
      Rest.parse spec_keywords
        (L ":param x: a" ++ [Py.nl] ++ L ":raises E extra word: b") =
      Raise (ParseError msg)) <->
  (exists b,
      In b (tagged_blocks
              (L ":param x: a" ++ [Py.nl] ++ L ":raises E extra word: b"))
      /\ (lacks_body_delimiter b
          \/ arity_violation spec_keywords (tag_tokens b))).
Proof.
  refine (proj1 (proj2 (proj2 parse_error_exactly_when) spec_keywords
                   (L ":param x: a" ++ [Py.nl] ++ L ":raises E extra word: b")
                   _)).
  intros b Hin Hd. vm_compute in Hin.
  destruct Hin as [<-|[<-|[]]]; vm_compute; discriminate.
Defined.

(** C3 (counterexample): the block [::x] has a second delimiter, and no tag
    token whose family could set an arity; yet [parse] raises a [ParseError],
    because all the leading colons are stripped before the body delimiter is
    looked for. *)
Lemma parse_error_empty_tag_counterexample :
  tagged_blocks (L "::x") = [L "::x"]
  /\ lacks_second_delimiter (L "::x") = false
  /\ Py.split_ws (fst (Py.split1 Py.colon (tl (L "::x")))) = []
  /\ Rest.parse spec_keywords (L "::x") =
     Raise (ParseError (Rest.msg_near (L "::x"))).
Proof. vm_compute. repeat split. Qed.

(** An empty tag line is not reported as a [ParseError]: [_build_meta] reads
    [args[0]] of an empty list, and the [IndexError] escapes from [parse],
    also when a later block is malformed. *)
Example parse_empty_tag_line_index_error :
  Rest.parse spec_keywords (L ": : x" ++ [Py.nl] ++ L ":a") = Raise IndexError.
Proof. reflexivity. Qed.

(** ** Whitespace-only input *)

Section Whitespace.
Import Py Inspect.

Lemma split_not_nil sep s : split sep s <> [].
Proof.
  destruct s as [|c s]; cbn; [discriminate|].
  destruct (ch_eq c sep); [discriminate|].
  destruct (split sep s); discriminate.
Qed.

Lemma split_cons sep s : exists l ls, split sep s = l :: ls.
Proof.
  destruct (split sep s) as [|l ls] eqn:E; [|eauto].
  now apply split_not_nil in E.
Qed.

(** A prefix without separator stays in the first part. *)
Lemma split_app_prefix sep a s :
  contains sep a = false ->
  split sep (a ++ s) =
  match split sep s with
  | l :: ls => (a ++ l) :: ls
  | [] => []
  end.
Proof.
  destruct (split_cons sep s) as (l & ls & E). rewrite E.
  induction a as [|c a IH]; cbn [app contains existsb]; intros H.
  - exact E.
  - apply orb_false_iff in H. destruct H as [Hc Ha].
    cbn [split]. unfold ch_eq in *. rewrite Ascii.eqb_sym, Hc.
    rewrite (IH Ha). reflexivity.
Qed.

Lemma contains_repeat_space n : contains nl (repeat space n) = false.
Proof. induction n; cbn; auto. Qed.

(** The lines of a text with its tabs expanded are the lines of the text,
    each with its tabs expanded. *)
Lemma split_expandtabs s :
  forall col,
    split nl (expandtabs_from col s) =
    match split nl s with
    | l :: ls => expandtabs_from col l :: map (expandtabs_from 0) ls
    | [] => []
    end.
Proof.
  induction s as [|c s IH]; intros col; [reflexivity|].
  cbn [expandtabs_from split]. unfold ch_eq.
  destruct (Ascii.eqb c tab) eqn:Et.
  - apply Ascii.eqb_eq in Et. subst c.
    assert (Hn : Ascii.eqb tab nl = false) by reflexivity. rewrite Hn.
    rewrite split_app_prefix by apply contains_repeat_space.
    rewrite IH. destruct (split_cons nl s) as (l & ls & ->).
    cbn [expandtabs_from]. unfold ch_eq. rewrite Ascii.eqb_refl. reflexivity.
  - destruct (Ascii.eqb c nl) eqn:En.
    + cbn [orb split]. unfold ch_eq. rewrite En, IH.
      destruct (split_cons nl s) as (l & ls & ->). reflexivity.
    + cbn [orb].
      destruct (Ascii.eqb c cr) eqn:Ec; cbn [split]; unfold ch_eq;
        rewrite En, IH; destruct (split_cons nl s) as (l & ls & ->);
        cbn [expandtabs_from]; unfold ch_eq; rewrite Et, En, Ec;
        reflexivity.
Qed.

Lemma whitespace_expandtabs s :
  whitespace_only s -> forall col, whitespace_only (expandtabs_from col s).
Proof.
  unfold whitespace_only. induction 1 as [|c s Hc Hs IH]; intros col;
    cbn [expandtabs_from]; [constructor|].
  destruct (ch_eq c tab).
  - apply Forall_app. split; [|apply IH].
    apply Forall_forall. intros x Hx. apply repeat_spec in Hx. now subst.
  - destruct (ch_eq c nl || ch_eq c cr); constructor; auto.
Qed.

Lemma whitespace_split s :
  whitespace_only s -> Forall whitespace_only (split nl s).
Proof.
  unfold whitespace_only. induction 1 as [|c s Hc Hs IH]; cbn [split].
  - repeat constructor.
  - destruct (ch_eq c nl); [constructor; [constructor | exact IH]|].
    destruct (split nl s) as [|l ls]; [repeat constructor; assumption|].
    inversion IH; subst. constructor; [constructor|]; assumption.
Qed.

Lemma whitespace_lstrip s : whitespace_only s -> lstrip s = [].
Proof.
  unfold lstrip. induction 1 as [|c s Hc Hs IH]; cbn; [reflexivity|].
  now rewrite Hc.
Qed.

Lemma whitespace_rev s : whitespace_only s -> whitespace_only (rev s).
Proof. apply Forall_rev. Qed.

Lemma whitespace_strip s : whitespace_only s -> strip s = [].
Proof.
  intros H. unfold strip, rstrip.
  change (dropwhile isspace (rev s)) with (lstrip (rev s)).
  rewrite (whitespace_lstrip (whitespace_rev H)). reflexivity.
Qed.

Lemma whitespace_margin ls :
  Forall whitespace_only ls -> margin_of ls = None.
Proof.
  induction 1 as [|l ls Hl Hls IH]; cbn; [reflexivity|].
  unfold indent_of. rewrite (whitespace_lstrip Hl). exact IH.
Qed.

Lemma pop_leading_Forall (P : str -> Prop) ls :
  Forall P ls -> Forall P (pop_leading ls).
Proof.
  induction 1 as [|l ls Hl Hls IH]; cbn; [constructor|].
  destruct l; [exact IH | constructor; assumption].
Qed.

Lemma pop_trailing_Forall (P : str -> Prop) ls :
  Forall P ls -> Forall P (pop_trailing ls).
Proof.
  intros H. unfold pop_trailing. apply Forall_rev, pop_leading_Forall.
  now apply Forall_rev.
Qed.

Lemma whitespace_join ls :
  Forall whitespace_only ls -> whitespace_only (join [nl] ls).
Proof.
  unfold whitespace_only.
  induction 1 as [|l ls Hl Hls IH]; cbn [join]; [constructor|].
  destruct ls as [|l' ls]; [exact Hl|].
  apply Forall_app. split; [exact Hl|]. cbn [app]. constructor; [reflexivity|].
  exact IH.
Qed.

(** The lines [cleandoc] joins, for a text of whitespace. *)
Lemma cleandoc_whitespace_lines doc :
  whitespace_only doc ->
  exists others,
    split nl (expandtabs doc) = hd [] (split nl (expandtabs doc)) :: others
    /\ Forall whitespace_only others
    /\ cleandoc doc = join [nl] (pop_leading (pop_trailing ([] :: others))).
Proof.
  intros H. unfold cleandoc.
  pose proof (whitespace_split (whitespace_expandtabs H 0)) as Hls.
  fold (expandtabs doc) in Hls.
  destruct (split nl (expandtabs doc)) as [|first others] eqn:E;
    [now apply split_not_nil in E|].
  inversion Hls as [|? ? Hf Ho]; subst.
  exists others. cbn [hd]. repeat split; [exact Ho|].
  rewrite (whitespace_margin Ho), (whitespace_lstrip Hf). reflexivity.
Qed.

Lemma whitespace_cleandoc doc :
  whitespace_only doc -> whitespace_only (cleandoc doc).
Proof.
  intros H. destruct (cleandoc_whitespace_lines H) as (others & _ & Ho & ->).
  apply whitespace_join, pop_leading_Forall, pop_trailing_Forall.
  constructor; [constructor | exact Ho].
Qed.

End Whitespace.

Section CleandocEnd.
Import Py Inspect.

Lemma contains_false_iff c s :
  contains c s = false <-> ~ In c s.
Proof.
  unfold contains. split.
  - intros H Hin. assert (existsb (ch_eq c) s = true); [|congruence].
    apply existsb_exists. exists c. split; [exact Hin | apply Ascii.eqb_refl].
  - intros H. destruct (existsb (ch_eq c) s) eqn:E; [|reflexivity].
    apply existsb_exists in E. destruct E as (x & Hx & Heq).
    apply Ascii.eqb_eq in Heq. subst x. contradiction.
Qed.

Lemma contains_cons c x s :
  contains c (x :: s) = ch_eq c x || contains c s.
Proof. reflexivity. Qed.

Lemma contains_app c a b :
  contains c (a ++ b) = contains c a || contains c b.
Proof. apply existsb_app. Qed.

Lemma split_no_sep sep s :
  Forall (fun l => contains sep l = false) (split sep s).
Proof.
  induction s as [|c s IH]; cbn [split]; [repeat constructor|].
  destruct (ch_eq c sep) eqn:E; [constructor; [reflexivity | exact IH]|].
  destruct (split sep s) as [|l ls]; [repeat constructor|].
  - cbn. unfold ch_eq in *. now rewrite Ascii.eqb_sym, E.
  - inversion IH; subst. constructor; [|assumption].
    cbn. unfold ch_eq in *. rewrite Ascii.eqb_sym, E. assumption.
Qed.

Lemma dropwhile_incl p s x : In x (dropwhile p s) -> In x s.
Proof.
  induction s as [|c s IH]; cbn; [auto|].
  destruct (p c); cbn; auto.
Qed.

Lemma contains_lstrip c s : contains c s = false -> contains c (lstrip s) = false.
Proof.
  rewrite !contains_false_iff. intros H Hin. apply H.
  eapply dropwhile_incl, Hin.
Qed.

Lemma contains_skipn c n s : contains c s = false -> contains c (skipn n s) = false.
Proof.
  rewrite !contains_false_iff. intros H Hin. apply H.
  rewrite <- (firstn_skipn n s). apply in_or_app. now right.
Qed.

Lemma pop_leading_head ls :
  match pop_leading ls with
  | [] => True
  | l :: _ => l <> []
  end.
Proof.
  induction ls as [|l ls IH]; cbn; [exact I|].
  destruct l; [exact IH | discriminate].
Qed.

Lemma pop_trailing_last ls :
  pop_trailing ls = []
  \/ exists init l, pop_trailing ls = init ++ [l] /\ l <> [].
Proof.
  unfold pop_trailing. pose proof (pop_leading_head (rev ls)) as H.
  destruct (pop_leading (rev ls)) as [|l t]; [now left|].
  right. exists (rev t), l. auto.
Qed.

Lemma pop_leading_last init l :
  l <> [] -> exists init', pop_leading (init ++ [l]) = init' ++ [l].
Proof.
  intros Hl. induction init as [|x init IH]; cbn.
  - exists []. destruct l; [contradiction | reflexivity].
  - destruct x; [exact IH|]. eexists (_ :: _). reflexivity.
Qed.

(** A joined list of lines whose last line is not empty ends with the last
    character of that line. *)
Lemma join_last_char init l :
  l <> [] -> contains nl l = false ->
  exists x c, join [nl] (init ++ [l]) = x ++ [c] /\ c <> nl.
Proof.
  intros Hl Hnl. induction init as [|y init IH]; cbn [app join].
  - destruct (exists_last Hl) as (x & c & ->). exists x, c. split; [reflexivity|].
    intros ->. rewrite contains_app in Hnl. cbn in Hnl.
    now rewrite orb_true_r in Hnl.
  - destruct IH as (x & c & Hx & Hc).
    destruct (init ++ [l]) as [|z zs] eqn:E; [destruct init; discriminate|].
    rewrite Hx. exists (y ++ [nl] ++ x), c.
    split; [now rewrite <- !app_assoc | exact Hc].
Qed.

(** The text [cleandoc] returns never ends with a line feed. *)
Lemma cleandoc_last_char doc :
  cleandoc doc = []
  \/ exists x c, cleandoc doc = x ++ [c] /\ c <> nl.
Proof.
  unfold cleandoc.
  pose proof (split_no_sep nl (expandtabs doc)) as Hno.
  destruct (split nl (expandtabs doc)) as [|first others]; [now left|].
  inversion Hno as [|? ? Hf Ho]; subst.
  set (others' := match margin_of others with
                  | Some m => map (skipn m) others
                  | None => others
                  end).
  assert (Hall : Forall (fun l => contains nl l = false)
                   (lstrip first :: others')).
  { constructor; [now apply contains_lstrip|]. unfold others'.
    destruct (margin_of others); [|exact Ho].
    apply Forall_map. revert Ho. apply Forall_impl. intros a.
    apply contains_skipn. }
  destruct (pop_trailing_last (lstrip first :: others'))
    as [E|(init & l & E & Hl)].
  - rewrite E. now left.
  - assert (Hl' : contains nl l = false).
    { apply pop_trailing_Forall in Hall. rewrite E in Hall.
      apply Forall_app in Hall. destruct Hall as [_ Hall]. now inversion Hall. }
    rewrite E. destruct (pop_leading_last init Hl) as [init' E'].
    rewrite E'.
    right. now apply join_last_char.
Qed.

Lemma endswith_last x c p :
  endswith (x ++ [c]) (p ++ [c]) = endswith x p.
Proof.
  unfold endswith. rewrite !rev_unit. cbn. unfold ch_eq.
  now rewrite Ascii.eqb_refl.
Qed.

Lemma endswith_last_neq x c p d :
  c <> d -> endswith (x ++ [c]) (p ++ [d]) = false.
Proof.
  intros H. unfold endswith. rewrite !rev_unit. cbn. unfold ch_eq.
  destruct (Ascii.eqb_spec d c); [congruence | reflexivity].
Qed.

Lemma split1_Some sep s a r :
  split1 sep s = (a, Some r) -> s = a ++ sep :: r /\ contains sep a = false.
Proof.
  revert a; induction s as [|c s IH]; intros a; cbn; [discriminate|].
  unfold ch_eq. destruct (Ascii.eqb_spec c sep) as [->|Hne].
  - intros [= <- <-]. auto.
  - destruct (split1 sep s) as [a' b']. intros [= <- ->].
    destruct (IH _ eq_refl) as [-> Ha]. split; [reflexivity|].
    rewrite contains_cons, Ha. unfold ch_eq.
    destruct (Ascii.eqb_spec sep c); [congruence | reflexivity].
Qed.

Lemma split1_None sep s a :
  split1 sep s = (a, None) -> s = a /\ contains sep a = false.
Proof.
  revert a; induction s as [|c s IH]; intros a; cbn.
  - intros [= <-]. auto.
  - unfold ch_eq. destruct (Ascii.eqb_spec c sep) as [->|Hne]; [discriminate|].
    destruct (split1 sep s) as [a' b']. intros [= <- ->].
    destruct (IH _ eq_refl) as [-> Ha]. split; [reflexivity|].
    rewrite contains_cons, Ha. unfold ch_eq.
    destruct (Ascii.eqb_spec sep c); [congruence | reflexivity].
Qed.

(** After [cleandoc], what follows the first line feed of a text never ends
    with two line feeds. *)
Lemma cleandoc_remainder_end doc a r :
  split1 nl (cleandoc doc) = (a, Some r) -> endswith r [nl; nl] = false.
Proof.
  intros H. apply split1_Some in H. destruct H as [H _].
  destruct (cleandoc_last_char doc) as [E|(x & c & E & Hc)].
  - rewrite E in H. destruct a; discriminate.
  - rewrite E in H. destruct (@exists_last _ (nl :: r)) as (y & d & Hy);
      [discriminate|].
    rewrite Hy, app_assoc in H. apply app_inj_tail in H. destruct H as [_ <-].
    destruct y as [|n y]; cbn in Hy.
    + injection Hy as _ ->. reflexivity.
    + injection Hy as _ ->.
      change [nl; nl] with ([nl] ++ [nl]). now apply endswith_last_neq.
Qed.

End CleandocEnd.

(** ** The split of a text into its preamble and its tagged blocks *)

Section Blocks.
Import Py.

Lemma tag_blocks_no_colon bol s :
  contains colon s = false -> Re.tag_blocks bol s = (s, []).
Proof.
  revert bol; induction s as [|c s IH]; intros bol H; [reflexivity|].
  rewrite contains_cons in H. apply orb_false_iff in H. destruct H as [Hc Hs].
  cbn [Re.tag_blocks]. rewrite (IH _ Hs).
  unfold ch_eq in *. rewrite Ascii.eqb_sym, Hc, andb_false_r. reflexivity.
Qed.

Lemma tag_blocks_concat bol s :
  fst (Re.tag_blocks bol s) ++ concat (snd (Re.tag_blocks bol s)) = s.
Proof.
  revert bol; induction s as [|c s IH]; intros bol; [reflexivity|].
  cbn [Re.tag_blocks]. specialize (IH (ch_eq c nl)).
  destruct (Re.tag_blocks (ch_eq c nl) s) as [pre bs]. cbn [fst snd] in IH.
  destruct (bol && ch_eq c colon); cbn [fst snd concat app]; now rewrite IH.
Qed.

(** The search for the first tag finds the start of the first block. *)
Lemma search_tag_blocks bol pos s :
  Re.search_tag_from bol pos s =
  match snd (Re.tag_blocks bol s) with
  | [] => None
  | _ :: _ => Some (pos + length (fst (Re.tag_blocks bol s)))
  end.
Proof.
  revert bol pos; induction s as [|c s IH]; intros bol pos; [reflexivity|].
  cbn [Re.search_tag_from Re.tag_blocks].
  specialize (IH (ch_eq c nl) (S pos)).
  destruct (Re.tag_blocks (ch_eq c nl) s) as [pre bs]. cbn [fst snd] in IH.
  destruct (bol && ch_eq c colon); cbn [fst snd length].
  - now rewrite Nat.add_0_r.
  - rewrite IH. destruct bs; [reflexivity|]. f_equal. lia.
Qed.

(** The blocks found in the text of the blocks are the blocks. *)
Lemma tag_blocks_again bol s :
  Re.tag_blocks true (concat (snd (Re.tag_blocks bol s))) =
  ([], snd (Re.tag_blocks bol s)).
Proof.
  revert bol; induction s as [|c s IH]; intros bol; [reflexivity|].
  cbn [Re.tag_blocks]. specialize (IH (ch_eq c nl)).
  pose proof (tag_blocks_concat (ch_eq c nl) s) as Hcat.
  destruct (Re.tag_blocks (ch_eq c nl) s) as [pre bs] eqn:E.
  cbn [fst snd] in *.
  destruct (bol && ch_eq c colon) eqn:Eb; cbn [fst snd]; [|exact IH].
  apply andb_true_iff in Eb. destruct Eb as [_ Ec].
  cbn [concat app]. rewrite Hcat. cbn [Re.tag_blocks].
  rewrite E, Ec. reflexivity.
Qed.

Lemma chunks_of_blocks text :
  Rest.chunks_of text =
  (fst (Re.tag_blocks true text), concat (snd (Re.tag_blocks true text))).
Proof.
  unfold Rest.chunks_of, Re.search_tag. rewrite search_tag_blocks.
  pose proof (tag_blocks_concat true text) as Hcat.
  destruct (Re.tag_blocks true text) as [pre bs]. cbn [fst snd] in *.
  destruct bs as [|b bs].
  - cbn in Hcat. rewrite app_nil_r in Hcat. now subst.
  - cbn [Nat.add]. rewrite <- Hcat at 1 2.
    rewrite firstn_app, Nat.sub_diag, firstn_all, skipn_app, Nat.sub_diag,
      skipn_all. cbn [firstn skipn]. now rewrite app_nil_r.
Qed.

(** The preamble and the tagged blocks of a text, read off one scan of the
    cleaned text. *)
Lemma preamble_blocks text :
  preamble text = fst (Re.tag_blocks true (Inspect.cleandoc text)).
Proof. unfold preamble. now rewrite chunks_of_blocks. Qed.

Lemma tagged_blocks_scan text :
  tagged_blocks text = snd (Re.tag_blocks true (Inspect.cleandoc text)).
Proof.
  unfold tagged_blocks, Re.finditer_blocks.
  rewrite chunks_of_blocks. cbn [snd]. now rewrite tag_blocks_again.
Qed.

End Blocks.

(** [parse] on a text that is not empty, by one scan of the cleaned text. *)
Lemma parse_scan kw text :
  text <> [] ->
  Rest.parse kw text =
  (ms <- Rest.parse_chunks kw (snd (Re.tag_blocks true (Inspect.cleandoc text))) ;;
   Ok (Rest.split_preamble (fst (Re.tag_blocks true (Inspect.cleandoc text))) ms)).
Proof.
  intros Hne. unfold Rest.parse. destruct text as [|c text]; [contradiction|].
  cbn [Py.truthy]. rewrite chunks_of_blocks.
  unfold Re.finditer_blocks. now rewrite tag_blocks_again.
Qed.

Section WhitespaceInput.
Import Py Inspect.

Lemma whitespace_no_colon s : whitespace_only s -> contains colon s = false.
Proof.
  intros H. apply contains_false_iff. intros Hin.
  unfold whitespace_only in H. rewrite Forall_forall in H.
  specialize (H _ Hin). discriminate.
Qed.

Lemma pop_leading_all_empty ls :
  Forall (fun l => l = []) ls -> pop_leading ls = [].
Proof. induction 1 as [|l ls -> _ IH]; [reflexivity | exact IH]. Qed.

(** A text of whitespace whose lines after the first are empty cleans to the
    empty text. *)
Lemma cleandoc_blank doc :
  whitespace_only doc ->
  Forall (fun line => line = []) (tl (split nl doc)) ->
  cleandoc doc = [].
Proof.
  intros Hws Hlines.
  destruct (cleandoc_whitespace_lines Hws) as (others & Hsplit & _ & ->).
  unfold expandtabs in Hsplit. rewrite split_expandtabs in Hsplit.
  destruct (split_cons nl doc) as (l & ls & E). rewrite E in Hsplit, Hlines.
  cbn [hd tl] in *. injection Hsplit as <-.
  assert (Hall : Forall (fun l => l = [])
                   (@nil ascii :: map (expandtabs_from 0) ls)).
  { constructor; [reflexivity|]. apply Forall_map.
    revert Hlines. apply Forall_impl. now intros a ->. }
  unfold pop_trailing.
  rewrite (pop_leading_all_empty (Forall_rev Hall)). reflexivity.
Qed.

Lemma expandtabs_from_nil col s : expandtabs_from col s = [] -> s = [].
Proof.
  destruct s as [|c s]; [reflexivity|]. cbn [expandtabs_from].
  destruct (ch_eq c tab); [|destruct (ch_eq c nl || ch_eq c cr); discriminate].
  intros H. apply app_eq_nil in H. destruct H as [H _].
  pose proof (Nat.mod_upper_bound col 8) as Hm.
  destruct (8 - col mod 8) eqn:E; [lia | discriminate].
Qed.

Lemma pop_leading_Exists ls :
  Exists (fun l : list ascii => l <> []) ls ->
  Exists (fun l : list ascii => l <> []) (pop_leading ls).
Proof.
  induction 1 as [l ls Hl|l ls _ IH]; cbn [pop_leading].
  - destruct l; [contradiction | constructor; discriminate].
  - destruct l; [exact IH | constructor; discriminate].
Qed.

Lemma empty_line_dec (x : list ascii) : {x = []} + {x <> []}.
Proof. destruct x; [now left | now right]. Qed.

(** A text of whitespace with a line after the first that is not empty
    cleans to a text that begins with a line that is not empty. *)
Lemma cleandoc_whitespace_line doc :
  whitespace_only doc ->
  ~ Forall (fun line => line = []) (tl (split nl doc)) ->
  exists c x, cleandoc doc = c :: x /\ c <> nl.
Proof.
  intros Hws Hlines.
  destruct (cleandoc_whitespace_lines Hws) as (others & Hsplit & _ & ->).
  pose proof (split_no_sep nl (expandtabs doc)) as Hno.
  rewrite Hsplit in Hno. inversion Hno as [|? ? _ Hno']; subst.
  unfold expandtabs in Hsplit. rewrite split_expandtabs in Hsplit.
  destruct (split_cons nl doc) as (l & ls & E). rewrite E in Hsplit, Hlines.
  cbn [hd tl] in *. injection Hsplit as <-.
  assert (Hex : Exists (fun l : list ascii => l <> [])
                  (@nil ascii :: map (expandtabs_from 0) ls)).
  { constructor 2. apply Exists_map.
    apply neg_Forall_Exists_neg in Hlines.
    - revert Hlines. apply Exists_impl. intros a Ha H. apply Ha.
      now apply expandtabs_from_nil in H.
    - apply empty_line_dec. }
  assert (Hall : Forall (fun l => contains nl l = false)
                   (pop_leading
                      (pop_trailing
                         (@nil ascii :: map (expandtabs_from 0) ls)))).
  { apply pop_leading_Forall, pop_trailing_Forall.
    constructor; [reflexivity | exact Hno']. }
  assert (Hex' : Exists (fun l : list ascii => l <> [])
                   (pop_leading
                      (pop_trailing
                         (@nil ascii :: map (expandtabs_from 0) ls)))).
  { apply pop_leading_Exists. unfold pop_trailing.
    apply Exists_rev, pop_leading_Exists, Exists_rev, Hex. }
  pose proof (pop_leading_head
                (pop_trailing (@nil ascii :: map (expandtabs_from 0) ls)))
    as Hhead.
  destruct (pop_leading
              (pop_trailing (@nil ascii :: map (expandtabs_from 0) ls)))
    as [|h t]; [inversion Hex'|].
  destruct h as [|c h]; [contradiction|].
  inversion Hall as [|? ? Hh _]; subst.
  rewrite contains_cons in Hh. apply orb_false_iff in Hh.
  destruct Hh as [Hc _].
  exists c. destruct t as [|t1 t]; eexists; (split; [reflexivity|]);
    intros ->; discriminate.
Qed.

End WhitespaceInput.

(** C8 (as the code has it): on the empty text, and on a text of whitespace
    whose lines after the first are all empty, [parse] succeeds and returns
    the all-empty document.  On any text of whitespace [parse] succeeds, with
    no long description, no item and [blank_after_long] false; the short
    description is absent exactly when every line after the first is empty,
    and otherwise it is a line of whitespace that is not empty. *)
Theorem parse_whitespace_only :
  forall (kw : Keywords),
    Rest.parse kw [] = Ok empty_docstring
    /\ forall (text : str),
        whitespace_only text ->
        (Forall (fun line => line = []) (tl (Py.split Py.nl text)) ->
         Rest.parse kw text = Ok empty_docstring)
        /\ exists short bas,
            Rest.parse kw text = Ok (mkDocstring short None bas false [])
            /\ (forall s, short = Some s -> s <> [] /\ whitespace_only s)
            /\ (short = None <->
                Forall (fun line => line = []) (tl (Py.split Py.nl text))).
Proof.
  intros kw. split; [reflexivity|]. intros text Hws.
  destruct text as [|c text].
  { split; [reflexivity|]. exists None, false. split; [reflexivity|].
    split; [discriminate|]. split; [constructor | reflexivity]. }
  rewrite parse_scan by discriminate. split.
  - intros Hlines. rewrite (cleandoc_blank Hws Hlines). reflexivity.
  - destruct (Forall_dec (fun line : list ascii => line = []) empty_line_dec
                (tl (Py.split Py.nl (c :: text)))) as [Hall|Hsome].
    + rewrite (cleandoc_blank Hws Hall). exists None, false.
      split; [reflexivity|]. split; [discriminate|]. now split.
    + pose proof (whitespace_cleandoc Hws) as Hw.
      destruct (cleandoc_whitespace_line Hws Hsome) as (c0 & x & Ec & Hc0).
      rewrite (@tag_blocks_no_colon true _ (whitespace_no_colon Hw)).
      cbn [fst snd Rest.parse_chunks bind]. unfold Rest.split_preamble.
      destruct (Py.split1 Py.nl (Inspect.cleandoc (c :: text)))
        as [a [r|]] eqn:E; cbn [fst snd].
      * rewrite (cleandoc_remainder_end _ E).
        apply split1_Some in E. destruct E as [E _]. rewrite E in Hw.
        apply Forall_app in Hw. destruct Hw as [Ha Hr].
        inversion Hr as [|? ? _ Hr']; subst.
        rewrite (whitespace_strip Hr'). cbn [Py.or_None].
        exists (Py.or_None a), (Py.startswith r [Py.nl]).
        split; [reflexivity|].
        destruct a as [|a0 a]; [rewrite Ec in E; injection E as E _;
                                 congruence|].
        cbn [Py.or_None Py.truthy]. split.
        -- intros s [= <-]. split; [discriminate | exact Ha].
        -- split; [discriminate | contradiction].
      * apply split1_None in E. destruct E as [E _]. rewrite E in Hw.
        exists (Py.or_None a), false. split; [reflexivity|].
        destruct a as [|a0 a]; [rewrite Ec in E; discriminate|].
        cbn [Py.or_None Py.truthy]. split.
        -- intros s [= <-]. split; [discriminate | exact Hw].
        -- split; [discriminate | contradiction].
Qed.

Lemma parse_whitespace_only_witness :
  Rest.parse spec_keywords (L "   " ++ [Py.nl; Py.nl]) = Ok empty_docstring.
Proof.
  refine (proj1 (proj2 (parse_whitespace_only spec_keywords)
                   (L "   " ++ [Py.nl; Py.nl]) _) _).
  - repeat constructor.
  - repeat constructor.
Defined.

(** C8 (counterexample): a line feed followed by a space is whitespace only,
    but it does not parse to the all-empty document: [cleandoc] drops the
    empty first line and keeps the line of one space, which becomes the short
    description. *)
Lemma parse_whitespace_counterexample :
  whitespace_only [Py.nl; Py.space]
  /\ Rest.parse spec_keywords [Py.nl; Py.space] =
     Ok (mkDocstring (Some [Py.space]) None false false [])
  /\ Rest.parse spec_keywords [Py.nl; Py.space] <> Ok empty_docstring.
Proof.
  split; [repeat constructor|]. split; [reflexivity | discriminate].
Qed.

(** A text of whitespace whose short description is followed by a blank
    line: [blank_after_short] is true. *)
Lemma parse_whitespace_blank_after_short :
  whitespace_only [Py.nl; Py.space; Py.nl; Py.nl; Py.space]
  /\ Rest.parse spec_keywords [Py.nl; Py.space; Py.nl; Py.nl; Py.space] =
     Ok (mkDocstring (Some [Py.space]) None true false []).
Proof. split; [repeat constructor | reflexivity]. Qed.

(** ** Scanning a text made of pieces *)

Section Pieces.
Import Py.

Lemma no_tag_line_fst bol s :
  no_tag_line bol s -> Re.tag_blocks bol s = (s, []).
Proof.
  unfold no_tag_line. intros H. pose proof (tag_blocks_concat bol s) as Hc.
  destruct (Re.tag_blocks bol s) as [pre bs]. cbn [fst snd] in *. subst bs.
  cbn in Hc. rewrite app_nil_r in Hc. now subst.
Qed.

Lemma bol_after_app bol a b :
  bol_after bol (a ++ b) = bol_after (bol_after bol a) b.
Proof. revert bol; induction a as [|c a IH]; intros bol; cbn; auto. Qed.

(** Scanning past a piece without tag line. *)
Lemma tag_blocks_app bol a b :
  no_tag_line bol a ->
  Re.tag_blocks bol (a ++ b) =
  (a ++ fst (Re.tag_blocks (bol_after bol a) b),
   snd (Re.tag_blocks (bol_after bol a) b)).
Proof.
  revert bol; induction a as [|c a IH]; intros bol H.
  - cbn. now destruct (Re.tag_blocks bol b).
  - unfold no_tag_line in H. cbn [Re.tag_blocks app bol_after] in *.
    destruct (Re.tag_blocks (ch_eq c nl) a) as [pre bs] eqn:E.
    destruct (bol && ch_eq c colon) eqn:Eb; cbn [snd] in H; [discriminate|].
    subst bs. rewrite IH by (unfold no_tag_line; now rewrite E).
    reflexivity.
Qed.

Lemma no_tag_line_app bol a b :
  no_tag_line bol a -> no_tag_line (bol_after bol a) b ->
  no_tag_line bol (a ++ b).
Proof.
  intros Ha Hb. unfold no_tag_line. now rewrite tag_blocks_app.
Qed.

Lemma no_tag_line_no_colon bol s :
  contains colon s = false -> no_tag_line bol s.
Proof. intros H. unfold no_tag_line. now rewrite tag_blocks_no_colon. Qed.

(** Inside a line, no colon starts a line. *)
Lemma no_tag_line_no_nl s :
  contains nl s = false -> no_tag_line false s /\ bol_after false s = false.
Proof.
  unfold no_tag_line. induction s as [|c s IH]; [cbn; auto|].
  rewrite contains_cons. intros H. apply orb_false_iff in H.
  destruct H as [Hc Hs]. cbn [Re.tag_blocks bol_after andb].
  assert (Hc' : ch_eq c nl = false)
    by (unfold ch_eq in *; now rewrite Ascii.eqb_sym).
  rewrite Hc'. destruct (IH Hs) as [IH1 IH2].
  destruct (Re.tag_blocks false s). cbn [snd] in *. auto.
Qed.

(** A block: a colon, then a body without tag line. *)
Lemma tag_blocks_block body rest :
  no_tag_line false body ->
  Re.tag_blocks true (colon :: body ++ rest) =
  ([],
   (colon :: body ++ fst (Re.tag_blocks (bol_after false body) rest))
   :: snd (Re.tag_blocks (bol_after false body) rest)).
Proof.
  intros H. cbn [Re.tag_blocks].
  change (ch_eq colon nl) with false. change (ch_eq colon colon) with true.
  rewrite tag_blocks_app by exact H. reflexivity.
Qed.

Lemma join_with_line_feeds lines :
  join [nl] lines = concat (with_line_feeds lines).
Proof.
  induction lines as [|l lines IH]; [reflexivity|].
  destruct lines as [|l' lines]; [cbn; now rewrite app_nil_r|].
  change (join [nl] (l :: l' :: lines))
    with (l ++ [nl] ++ join [nl] (l' :: lines)).
  rewrite IH. cbn [with_line_feeds concat]. now rewrite <- app_assoc.
Qed.

Lemma join_app sep xs ys :
  xs <> [] -> ys <> [] ->
  join sep (xs ++ ys) = join sep xs ++ sep ++ join sep ys.
Proof.
  intros Hx Hy. induction xs as [|x xs IH]; [contradiction|].
  destruct xs as [|x' xs].
  - cbn [app join]. destruct ys; [contradiction | reflexivity].
  - change (join sep ((x :: x' :: xs) ++ ys))
      with (x ++ sep ++ join sep ((x' :: xs) ++ ys)).
    rewrite IH by discriminate.
    change (join sep (x :: x' :: xs)) with (x ++ sep ++ join sep (x' :: xs)).
    now rewrite <- !app_assoc.
Qed.

(** The blocks of a text made of blocks: each piece is a colon and a body
    without tag line, and every piece but the last ends with a line feed. *)
Lemma tag_blocks_pieces bodies :
  Forall (no_tag_line false) bodies ->
  Re.tag_blocks true
    (concat (with_line_feeds (map (cons colon) bodies))) =
  ([], with_line_feeds (map (cons colon) bodies)).
Proof.
  induction 1 as [|body bodies Hb Hbs IH]; [reflexivity|].
  destruct bodies as [|body' bodies].
  - cbn [map with_line_feeds concat]. rewrite app_nil_r.
    rewrite <- (app_nil_r body) at 1.
    rewrite tag_blocks_block by exact Hb. cbn. now rewrite app_nil_r.
  - change (with_line_feeds (map (cons colon) (body :: body' :: bodies)))
      with ((colon :: body ++ [nl])
            :: with_line_feeds (map (cons colon) (body' :: bodies))).
    cbn [concat]. change ((colon :: body ++ [nl]) ++ ?x)
      with (colon :: (body ++ [nl]) ++ x).
    rewrite tag_blocks_block.
    + rewrite bol_after_app. cbn [bol_after].
      change (ch_eq nl nl) with true. rewrite IH. cbn [fst snd].
      now rewrite app_nil_r.
    + apply no_tag_line_app; [exact Hb|]. now apply no_tag_line_no_colon.
Qed.

End Pieces.

(** ** Stripping and splitting *)

Section Strip.
Import Py.

Lemma dropwhile_all p s :
  Forall (fun c => p c = true) s -> forall t, dropwhile p (s ++ t) = dropwhile p t.
Proof.
  induction 1 as [|c s Hc Hs IH]; intros t; cbn; [reflexivity|].
  now rewrite Hc.
Qed.

Lemma dropwhile_app p a b :
  dropwhile p (a ++ b) =
  match dropwhile p a with
  | [] => dropwhile p b
  | r => r ++ b
  end.
Proof.
  induction a as [|c a IH]; cbn; [now destruct (dropwhile p b)|].
  destruct (p c); [exact IH | reflexivity].
Qed.

Lemma dropwhile_stop p c s : p c = false -> dropwhile p (c :: s) = c :: s.
Proof. intros H. cbn. now rewrite H. Qed.

Lemma rstrip_app_space s t :
  whitespace_only t -> rstrip (s ++ t) = rstrip s.
Proof.
  intros H. unfold rstrip. rewrite rev_app_distr.
  rewrite dropwhile_all; [reflexivity|]. now apply Forall_rev.
Qed.

Lemma strip_app_space s t : whitespace_only t -> strip (s ++ t) = strip s.
Proof. intros H. unfold strip. now rewrite rstrip_app_space. Qed.

Lemma strip_cons_space c s : isspace c = true -> strip (c :: s) = strip s.
Proof.
  intros Hc. unfold strip, rstrip. cbn [rev]. rewrite dropwhile_app.
  destruct (dropwhile isspace (rev s)) as [|x r] eqn:E.
  - cbn. rewrite Hc. reflexivity.
  - rewrite rev_app_distr. cbn [rev app]. unfold lstrip. cbn [dropwhile].
    rewrite Hc. reflexivity.
Qed.

Lemma strip_space_app t s : whitespace_only t -> strip (t ++ s) = strip s.
Proof.
  induction 1 as [|c t Hc Ht IH]; [reflexivity|].
  cbn [app]. now rewrite strip_cons_space.
Qed.

Lemma rstrip_last s e : isspace e = false -> rstrip (s ++ [e]) = s ++ [e].
Proof.
  intros He. unfold rstrip. rewrite rev_unit, dropwhile_stop by exact He.
  cbn [rev]. now rewrite rev_involutive.
Qed.

(** A text that starts and ends with characters that are not whitespace is
    left as it is. *)
Lemma strip_bounded c mid e :
  isspace c = false -> isspace e = false ->
  strip (c :: mid ++ [e]) = c :: mid ++ [e].
Proof.
  intros Hc He. unfold strip.
  change (c :: mid ++ [e]) with ((c :: mid) ++ [e]).
  rewrite rstrip_last by exact He. unfold lstrip. now apply dropwhile_stop.
Qed.

Lemma dropwhile_length p s : length (dropwhile p s) <= length s.
Proof.
  induction s as [|c s IH]; cbn; [lia|]. destruct (p c); cbn; lia.
Qed.

Lemma dropwhile_fixed p c s : dropwhile p (c :: s) = c :: s -> p c = false.
Proof.
  cbn. destruct (p c); [|reflexivity]. intros H.
  pose proof (dropwhile_length p s) as Hl. rewrite H in Hl. cbn in Hl. lia.
Qed.

Lemma rstrip_length s : length (rstrip s) <= length s.
Proof.
  unfold rstrip. rewrite length_rev, <- (length_rev s).
  apply dropwhile_length.
Qed.

Lemma dropwhile_same_length p s :
  length (dropwhile p s) = length s -> dropwhile p s = s.
Proof.
  destruct s as [|c s]; [reflexivity|]. cbn.
  destruct (p c); [|reflexivity]. intros H.
  pose proof (dropwhile_length p s). lia.
Qed.

(** The ends of a text that [strip] leaves as it is. *)
Lemma strip_fixed_ends s :
  strip s = s -> s <> [] ->
  (exists c mid, s = c :: mid /\ isspace c = false)
  /\ (exists init e, s = init ++ [e] /\ isspace e = false).
Proof.
  intros H Hne. unfold strip in H.
  assert (Hlen : length (rstrip s) = length s).
  { pose proof (rstrip_length s) as H1.
    pose proof (dropwhile_length isspace (rstrip s)) as H2.
    fold (lstrip (rstrip s)) in H2. rewrite H in H2. lia. }
  assert (Hr : rstrip s = s).
  { unfold rstrip in *. rewrite length_rev, <- (length_rev s) in Hlen.
    rewrite dropwhile_same_length by exact Hlen. apply rev_involutive. }
  rewrite Hr in H. split.
  - destruct s as [|c mid]; [contradiction|]. exists c, mid.
    split; [reflexivity|]. eapply dropwhile_fixed. exact H.
  - destruct (exists_last Hne) as (init & e & Hie). exists init, e.
    split; [exact Hie|]. subst s. unfold rstrip in Hr.
    rewrite rev_unit in Hr. apply (f_equal (@rev _)) in Hr.
    rewrite rev_involutive, rev_unit in Hr.
    eapply dropwhile_fixed. exact Hr.
Qed.

Lemma split1_app sep a r :
  contains sep a = false -> split1 sep (a ++ sep :: r) = (a, Some r).
Proof.
  induction a as [|c a IH]; intros H.
  - cbn. unfold ch_eq. now rewrite Ascii.eqb_refl.
  - rewrite contains_cons in H. apply orb_false_iff in H.
    destruct H as [Hc Ha]. cbn [app split1].
    unfold ch_eq in *. rewrite Ascii.eqb_sym, Hc, (IH Ha). reflexivity.
Qed.

Lemma split1_none sep a :
  contains sep a = false -> split1 sep a = (a, None).
Proof.
  induction a as [|c a IH]; intros H; [reflexivity|].
  rewrite contains_cons in H. apply orb_false_iff in H.
  destruct H as [Hc Ha]. cbn [split1].
  unfold ch_eq in *. rewrite Ascii.eqb_sym, Hc, (IH Ha). reflexivity.
Qed.

Lemma contains_true_iff c s : contains c s = true <-> In c s.
Proof.
  unfold contains. rewrite existsb_exists. split.
  - intros (x & Hx & E). apply Ascii.eqb_eq in E. now subst.
  - intros H. exists c. split; [exact H | apply Ascii.eqb_refl].
Qed.

(** The description of a block depends on the stripped body only. *)
Lemma block_desc_strip x y :
  strip x = strip y -> Rest.block_desc x = Rest.block_desc y.
Proof. intros H. unfold Rest.block_desc. now rewrite H. Qed.

Lemma block_desc_line_feed x : Rest.block_desc (x ++ [nl]) = Rest.block_desc x.
Proof.
  apply block_desc_strip, strip_app_space. repeat constructor.
Qed.

Lemma block_desc_space x : Rest.block_desc (space :: x) = Rest.block_desc x.
Proof. apply block_desc_strip. now apply strip_cons_space. Qed.

Lemma block_desc_one_line d :
  strip d = d -> contains nl d = false -> Rest.block_desc d = d.
Proof. intros Hs Hn. unfold Rest.block_desc. now rewrite Hs, Hn. Qed.

(** A block whose tag line is not empty and holds no colon. *)
Lemma parse_chunk_block kw tag body :
  tag <> [] -> contains colon tag = false ->
  Rest.parse_chunk kw (colon :: tag ++ colon :: body) =
  Rest._build_meta kw (split_ws tag) (Rest.block_desc body).
Proof.
  intros Hne Hc. unfold Rest.parse_chunk, lstrip_char.
  destruct tag as [|c tag]; [contradiction|].
  rewrite contains_cons in Hc. apply orb_false_iff in Hc as Hc'.
  destruct Hc' as [Hc1 _].
  cbn [dropwhile app]. change (ch_eq colon colon) with true. cbn match.
  rewrite Hc1. change (c :: tag ++ colon :: body)
    with ((c :: tag) ++ colon :: body).
  now rewrite split1_app.
Qed.

End Strip.

(** ** A one-line param block *)

Section OneLine.
Import Py Inspect.

Lemma expandtabs_no_tab s :
  contains tab s = false -> forall col, expandtabs_from col s = s.
Proof.
  induction s as [|c s IH]; intros H col; [reflexivity|].
  rewrite contains_cons in H. apply orb_false_iff in H. destruct H as [Hc Hs].
  cbn [expandtabs_from]. unfold ch_eq in *. rewrite Ascii.eqb_sym, Hc.
  destruct (Ascii.eqb c nl || Ascii.eqb c cr); now rewrite IH.
Qed.

Lemma split_no_nl sep s : contains sep s = false -> split sep s = [s].
Proof.
  induction s as [|c s IH]; intros H; [reflexivity|].
  rewrite contains_cons in H. apply orb_false_iff in H. destruct H as [Hc Hs].
  cbn [split]. unfold ch_eq in *. rewrite Ascii.eqb_sym, Hc, (IH Hs).
  reflexivity.
Qed.

(** A line without tab that starts with a character that is not whitespace
    is clean. *)
Lemma cleandoc_one_line c s :
  isspace c = false -> contains nl (c :: s) = false ->
  contains tab (c :: s) = false -> cleandoc (c :: s) = c :: s.
Proof.
  intros Hc Hnl Htab. unfold cleandoc, expandtabs.
  rewrite (expandtabs_no_tab _ Htab), (split_no_nl _ _ Hnl).
  cbn [margin_of]. unfold lstrip. rewrite dropwhile_stop by exact Hc.
  reflexivity.
Qed.

Lemma token_contains t c :
  is_token t -> isspace c = true \/ c = colon -> contains c t = false.
Proof.
  intros [_ Ht] Hc. apply contains_false_iff. intros Hin.
  rewrite Forall_forall in Ht. destruct (Ht _ Hin) as [Hs Hn].
  destruct Hc; congruence.
Qed.

Lemma split_ws_run_token t s :
  Forall (fun c => isspace c = false /\ c <> colon) t ->
  split_ws_run (t ++ s) =
  (t ++ fst (split_ws_run s), snd (split_ws_run s)).
Proof.
  induction 1 as [|c t [Hc _] Ht IH]; cbn [app split_ws_run].
  - now destruct (split_ws_run s).
  - rewrite IH, Hc. reflexivity.
Qed.

Lemma split_ws_run_word t :
  Forall (fun c => isspace c = false /\ c <> colon) t ->
  split_ws_run t = (t, []).
Proof.
  induction 1 as [|c t [Hc _] Ht IH]; cbn [split_ws_run]; [reflexivity|].
  now rewrite IH, Hc.
Qed.

Lemma split_ws_run_space c s :
  isspace c = true ->
  split_ws_run (c :: s) =
  ([], cons_word (fst (split_ws_run s)) (snd (split_ws_run s))).
Proof.
  intros Hc. cbn [split_ws_run]. rewrite Hc. now destruct (split_ws_run s).
Qed.

(** Three tokens separated by single spaces. *)
Lemma split_ws_three a b c :
  is_token a -> is_token b -> is_token c ->
  split_ws (a ++ space :: b ++ space :: c) = [a; b; c].
Proof.
  intros [Ha Ha'] [Hb Hb'] [Hc Hc']. unfold split_ws.
  rewrite (split_ws_run_token _ Ha'), split_ws_run_space by reflexivity.
  rewrite (split_ws_run_token _ Hb'), split_ws_run_space by reflexivity.
  rewrite (split_ws_run_word Hc'). cbn [fst snd]. rewrite !app_nil_r.
  destruct a; [contradiction|]. destruct b; [contradiction|].
  destruct c; [contradiction|]. reflexivity.
Qed.

Lemma rstrip_char_last c s : rstrip_char c (s ++ [c]) = rstrip_char c s.
Proof.
  unfold rstrip_char. rewrite rev_unit. cbn [dropwhile]. unfold ch_eq.
  now rewrite Ascii.eqb_refl.
Qed.

Lemma rstrip_char_fixed c s : endswith s [c] = false -> rstrip_char c s = s.
Proof.
  unfold rstrip_char, endswith. cbn [rev app].
  destruct (rev s) as [|x r] eqn:E.
  - intros _. apply (f_equal (@rev _)) in E. rewrite rev_involutive in E.
    now subst.
  - cbn [startswith dropwhile]. destruct (ch_eq c x); [discriminate|].
    intros _. rewrite <- E. apply rev_involutive.
Qed.

(** After ["defaults to "] itself, the last place is the first when no
    later one exists. *)
Lemma match_defaults_here g :
  g <> [] -> Re.match_defaults g = None ->
  Re.match_defaults (defaults_to ++ g) = Some g.
Proof.
  intros Hg Hn. cbn. rewrite Hn. destruct g; [contradiction | reflexivity].
Qed.

End OneLine.

Section ParamOptional.
Import Py Rest.
Variable kw : Keywords.

(** What [_build_meta] returns for a keyword of the param family and three
    tokens, the type ending with the optional marker. *)
Lemma build_param_optional key type_name arg_name desc :
  kw_in key (PARAM_KEYWORDS kw) = true ->
  _build_meta kw [key; type_name ++ [qmark]; arg_name] desc =
  Ok (DocstringParam [key; type_name ++ [qmark]; arg_name] (Some desc)
        arg_name (Some type_name) (Some true)
        (option_map (rstrip_char dot) (Re.match_defaults desc))).
Proof.
  intros Hk. unfold _build_meta. rewrite Hk.
  change (L "?") with ([] ++ [qmark]). rewrite endswith_last.
  cbn [endswith rev startswith bind]. unfold drop_last.
  rewrite removelast_last. destruct (Re.match_defaults desc); reflexivity.
Qed.

End ParamOptional.

(** C5: a block [:param <type>? <name>: defaults to X.], where the keyword
    belongs to the param family, [<type>] and [<name>] are single tokens and
    [X] is the text after the last ["defaults to "] of the line, parses to a
    param record with [is_optional = True], [type_name] equal to [<type>]
    without its marker, [arg_name] equal to [<name>], and a [default] equal
    to [X] with its trailing periods stripped, which is [X] itself when [X]
    does not end with a period. *)
Theorem param_optional_default :
  forall (kw : Keywords) (key type_name arg_name x : str),
    family_of kw key = FParam ->
    is_token key -> is_token type_name -> is_token arg_name ->
    Py.contains Py.nl x = false -> Py.contains Py.tab x = false ->
    Re.match_defaults (x ++ L ".") = None ->
    Rest.parse kw
      (L ":" ++ key ++ L " " ++ type_name ++ L "? " ++ arg_name
         ++ L ": defaults to " ++ x ++ L ".") =
    Ok (mkDocstring None None false false
          [DocstringParam [key; type_name ++ L "?"; arg_name]
             (Some (L "defaults to " ++ x ++ L ".")) arg_name
             (Some type_name) (Some true) (Some (Py.rstrip_char Py.dot x))])
    /\ (Py.endswith x (L ".") = false -> Py.rstrip_char Py.dot x = x).
Proof.
  intros kw key type_name arg_name x Hfam Hkey Hty Hname Hnl Htab Hlast.
  split; [|apply rstrip_char_fixed].
  set (tag := key ++ Py.space :: (type_name ++ [Py.qmark])
                ++ Py.space :: arg_name).
  set (desc := defaults_to ++ x ++ [Py.dot]).
  assert (Htext : L ":" ++ key ++ L " " ++ type_name ++ L "? " ++ arg_name
                    ++ L ": defaults to " ++ x ++ L "." =
                  Py.colon :: tag ++ Py.colon :: Py.space :: desc).
  { unfold tag, desc. cbn. repeat (rewrite <- app_assoc; cbn [app]).
    reflexivity. }
  rewrite Htext. clear Htext.
  assert (Hqty : is_token (type_name ++ [Py.qmark])).
  { destruct Hty as [Hne Hall]. split; [now destruct type_name|].
    apply Forall_app. split; [exact Hall|].
    constructor; [|constructor]. split; [reflexivity | discriminate]. }
  assert (Htag : forall c, Py.isspace c = true \/ c = Py.colon ->
                           Py.ch_eq c Py.space = false ->
                           Py.contains c tag = false).
  { intros c Hc Hsp. unfold tag.
    rewrite contains_app, contains_cons, contains_app, contains_cons.
    rewrite (token_contains Hkey Hc), (token_contains Hqty Hc),
      (token_contains Hname Hc), Hsp. reflexivity. }
  assert (Hdesc : forall c, Py.contains c x = false ->
                            Py.contains c defaults_to = false ->
                            Py.ch_eq c Py.dot = false ->
                            Py.contains c desc = false).
  { intros c Hx Hd Hdot. unfold desc.
    rewrite contains_app, contains_app, Hx, Hd. cbn. now rewrite Hdot. }
  assert (Hline : forall c, Py.isspace c = true ->
                            Py.ch_eq c Py.space = false ->
                            Py.ch_eq c Py.colon = false ->
                            Py.contains c x = false ->
                            Py.contains c defaults_to = false ->
                            Py.ch_eq c Py.dot = false ->
                            Py.contains c (tag ++ Py.colon :: Py.space :: desc)
                            = false).
  { intros c Hc Hsp Hcol Hx Hd Hdot.
    rewrite contains_app, !contains_cons, Htag, Hdesc, Hsp, Hcol; auto. }
  assert (Hnl' : Py.contains Py.nl (tag ++ Py.colon :: Py.space :: desc)
                 = false) by (apply Hline; auto).
  assert (Htab' : Py.contains Py.tab (tag ++ Py.colon :: Py.space :: desc)
                  = false) by (apply Hline; auto).
  rewrite parse_scan by discriminate.
  rewrite cleandoc_one_line; [|reflexivity|exact Hnl'|exact Htab'].
  rewrite <- (app_nil_r (tag ++ _)).
  rewrite tag_blocks_block by (now apply no_tag_line_no_nl).
  rewrite app_nil_r. cbn [Re.tag_blocks fst snd app Rest.parse_chunks Py.truthy].
  rewrite parse_chunk_block.
  - unfold tag. rewrite (split_ws_three Hkey Hqty Hname).
    rewrite block_desc_space, block_desc_one_line.
    + rewrite build_param_optional by now apply family_param.
      unfold desc. rewrite match_defaults_here.
      * cbn [option_map bind]. rewrite rstrip_char_last. reflexivity.
      * now destruct x.
      * exact Hlast.
    + unfold desc.
      change (defaults_to ++ x ++ [Py.dot])
        with ("d"%char :: (L "efaults to " ++ x) ++ [Py.dot]).
      apply strip_bounded; reflexivity.
    + apply Hdesc; auto.
  - unfold tag. destruct Hkey as [Hne _]. now destruct key.
  - apply Htag; auto.
Qed.

Ltac solve_token :=
  split; [discriminate | repeat constructor; discriminate].

Lemma param_optional_default_witness :
  Rest.parse spec_keywords (L ":param int? count: defaults to 10.") =
  Ok (mkDocstring None None false false
        [DocstringParam [L "param"; L "int?"; L "count"]
           (Some (L "defaults to 10.")) (L "count") (Some (L "int"))
           (Some true) (Some (L "10"))]).
Proof.
  refine (proj1 (@param_optional_default spec_keywords (L "param") (L "int")
                   (L "count") (L "10") eq_refl _ _ _ eq_refl eq_refl
                   eq_refl));
    solve_token.
Defined.

(** ** Reading back a composed text *)

Section ReadBack.
Import Py Rest.
Variable kw : Keywords.
Variable style : RenderingStyle.
Variable indent : str.

Lemma build_meta_ok tokens desc :
  tokens <> [] -> ~ arity_violation kw tokens ->
  exists m, _build_meta kw tokens desc = Ok m.
Proof.
  intros Hne Hv. destruct (_build_meta kw tokens desc) as [m|e] eqn:E;
    [eauto|].
  exfalso. apply build_meta_raise in E. destruct E as [[H _]|[H _]]; auto.
Qed.

Lemma meta_split_preamble pre ms : meta (split_preamble pre ms) = ms.
Proof.
  unfold split_preamble. now destruct (snd (split1 nl pre)).
Qed.

(** The body of a rendered record: what follows its first colon. *)
Lemma compose_meta_body m :
  compose_meta style indent m =
  colon :: tag_text m ++ colon :: process_desc style indent (description m).
Proof. reflexivity. Qed.

(** The scan of a composed text: the preamble, then one block per record. *)
Lemma compose_scan d :
  no_tag_line true (join [nl] (preamble_parts d)) ->
  Forall (fun m => no_tag_line false (tl (compose_meta style indent m)))
    (meta d) ->
  exists pre,
    Re.tag_blocks true (compose style indent d) =
    (pre, with_line_feeds (map (compose_meta style indent) (meta d)))
    /\ pre = match meta d, preamble_parts d with
             | [], _ => join [nl] (preamble_parts d)
             | _ :: _, [] => []
             | _ :: _, _ :: _ => join [nl] (preamble_parts d) ++ [nl]
             end.
Proof.
  intros Hpre Hitems. eexists. split; [|reflexivity].
  unfold compose.
  assert (Hpieces :
            Re.tag_blocks true
              (concat (with_line_feeds
                         (map (compose_meta style indent) (meta d)))) =
            ([], with_line_feeds (map (compose_meta style indent) (meta d)))).
  { replace (map (compose_meta style indent) (meta d))
      with (map (cons colon)
              (map (fun m => tl (compose_meta style indent m)) (meta d)))
      by (rewrite map_map; reflexivity).
    apply tag_blocks_pieces. now apply Forall_map. }
  destruct (meta d) as [|m ms] eqn:Em.
  - cbn [map with_line_feeds]. rewrite app_nil_r. now apply no_tag_line_fst.
  - destruct (preamble_parts d) as [|p ps] eqn:Ep.
    + cbn [app]. rewrite join_with_line_feeds. exact Hpieces.
    + rewrite join_app by discriminate.
      rewrite app_assoc,
        (join_with_line_feeds (map (compose_meta style indent) (m :: ms))).
      rewrite tag_blocks_app.
      * rewrite bol_after_app. cbn [bol_after].
        change (ch_eq nl nl) with true. rewrite Hpieces. cbn [fst snd].
        now rewrite app_nil_r.
      * apply no_tag_line_app; [exact Hpre|]. now apply no_tag_line_no_colon.
Qed.

(** The loop of the parser over the rendered records. *)
Lemma parse_chunks_rendered items ms :
  Forall (fun m => tag_text m <> [] /\ contains colon (tag_text m) = false)
    items ->
  Forall2 (fun m m' =>
             _build_meta kw (split_ws (tag_text m))
               (block_desc (process_desc style indent (description m))) =
             Ok m') items ms ->
  parse_chunks kw (with_line_feeds (map (compose_meta style indent) items)) =
  Ok ms.
Proof.
  intros Htags H. induction H as [|m m' items ms Hm Hrest IH];
    [reflexivity|].
  inversion Htags as [|? ? [Hne Hcol] Htags']; subst.
  specialize (IH Htags').
  destruct items as [|m2 items].
  - inversion Hrest; subst. cbn [map with_line_feeds parse_chunks].
    rewrite compose_meta_body. cbn [truthy].
    rewrite parse_chunk_block, Hm by assumption. reflexivity.
  - change (with_line_feeds (map (compose_meta style indent) (m :: m2 :: items)))
      with ((compose_meta style indent m ++ [nl])
            :: with_line_feeds (map (compose_meta style indent) (m2 :: items))).
    cbn [parse_chunks]. rewrite IH. rewrite compose_meta_body.
    cbn [app truthy]. rewrite <- app_assoc. cbn [app].
    rewrite parse_chunk_block, block_desc_line_feed, Hm by assumption.
    reflexivity.
Qed.

End ReadBack.

Lemma Forall_exists_Forall2 (A B : Type) (R : A -> B -> Prop) l :
  Forall (fun a => exists b, R a b) l -> exists l', Forall2 R l l'.
Proof.
  induction 1 as [|a l [b Hb] _ [l' IH]]; [exists []; constructor|].
  exists (b :: l'). now constructor.
Qed.

(** C1 (counterexample): the text below parses to two records, [note] and
    [z]; the description of the first holds a line [:b: c], which the source
    had indented.  Composed in the compact style that line starts at the
    margin, and re-parsing gives three records, [note], [b] and [z]. *)
Lemma compose_parse_raw_tokens_counterexample :
  exists d d',
    Rest.parse spec_keywords
      (L ":note: a" ++ [Py.nl] ++ L "  :b: c" ++ [Py.nl] ++ L ":z: w") = Ok d
    /\ Rest.parse spec_keywords (Rest.compose COMPACT (L "    ") d) = Ok d'
    /\ map args (meta d) = [[L "note"]; [L "z"]]
    /\ map args (meta d') = [[L "note"]; [L "b"]; [L "z"]].
Proof.
  eexists. eexists. split; [vm_compute; reflexivity|].
  split; [vm_compute; reflexivity|]. split; reflexivity.
Qed.

(** ** The preamble read back *)

Section PreambleBack.
Import Py Rest.

Lemma split_preamble_line s r ms :
  contains nl s = false ->
  split_preamble (s ++ nl :: r) ms =
  mkDocstring (or_None s) (or_None (strip r)) (startswith r [nl])
    (endswith r [nl; nl]) ms.
Proof.
  intros H. unfold split_preamble. now rewrite split1_app.
Qed.

Lemma split_preamble_single s ms :
  contains nl s = false ->
  split_preamble s ms = mkDocstring (or_None s) None false false ms.
Proof.
  intros H. unfold split_preamble. now rewrite split1_none.
Qed.

Lemma strip_between x l z :
  whitespace_only x -> whitespace_only z -> strip (x ++ l ++ z) = strip l.
Proof.
  intros Hx Hz. now rewrite strip_space_app, strip_app_space.
Qed.

Lemma startswith_stripped l z :
  strip l = l -> l <> [] -> startswith (l ++ z) [nl] = false.
Proof.
  intros Hs Hne. destruct (strip_fixed_ends Hs Hne) as [(c & mid & -> & Hc) _].
  cbn [app startswith]. unfold ch_eq.
  destruct (Ascii.eqb_spec nl c) as [<-|_]; [discriminate | reflexivity].
Qed.

Lemma endswith_stripped x l :
  strip l = l -> l <> [] -> endswith (x ++ l) [nl; nl] = false.
Proof.
  intros Hs Hne.
  destruct (strip_fixed_ends Hs Hne) as [_ (init & e & -> & He)].
  rewrite app_assoc. change [nl; nl] with ([nl] ++ [nl]).
  apply endswith_last_neq. intros ->. discriminate.
Qed.

Lemma endswith_stripped_line x l :
  strip l = l -> l <> [] -> endswith (x ++ l ++ [nl]) [nl; nl] = false.
Proof.
  intros Hs Hne.
  destruct (strip_fixed_ends Hs Hne) as [_ (init & e & -> & He)].
  rewrite !app_assoc. change [nl; nl] with ([nl] ++ [nl]).
  rewrite endswith_last.
  change [nl] with ([] ++ [nl]). apply endswith_last_neq.
  intros ->. discriminate.
Qed.

Lemma endswith_blank_line a : endswith (a ++ [nl; nl]) [nl; nl] = true.
Proof. unfold endswith. rewrite rev_app_distr. reflexivity. Qed.

End PreambleBack.

Section PreambleExact.
Import Py Rest.

Lemma or_None_nonempty s : s <> [] -> or_None s = Some s.
Proof. now destruct s. Qed.

End PreambleExact.

(** C2 (counterexample): from the text of three lines, an empty one, [a]
    indented by two spaces and [b] indented by one, the first pass composes
    [ a] and [b]; parsing this text succeeds, and the second pass composes
    [a] and [b], without the leading space. *)
Lemma recompose_idempotent_counterexample :
  recompose spec_keywords (L "    ")
    ([Py.nl] ++ L "  a" ++ [Py.nl] ++ L " b") =
    Ok (L " a" ++ [Py.nl] ++ L "b")
  /\ recompose spec_keywords (L "    ") (L " a" ++ [Py.nl] ++ L "b") =
     Ok (L "a" ++ [Py.nl] ++ L "b")
  /\ L "a" ++ [Py.nl] ++ L "b" <> L " a" ++ [Py.nl] ++ L "b".
Proof.
  split; [reflexivity|]. split; [reflexivity | discriminate].
Qed.

(** ** The version of a deprecation, line by line *)

Section VersionLine.
Import Py.

Lemma takewhile_app_stop p a c s :
  Forall (fun x => p x = true) a -> p c = false ->
  takewhile p (a ++ c :: s) = a.
Proof.
  induction 1 as [|x a Hx Ha IH]; intros Hc; cbn; [now rewrite Hc|].
  now rewrite Hx, IH.
Qed.

Lemma takewhile_all p a :
  Forall (fun x => p x = true) a -> takewhile p a = a.
Proof. induction 1 as [|x a Hx Ha IH]; cbn; [reflexivity|]. now rewrite Hx, IH. Qed.

Lemma dropwhile_app_stop p a c s :
  Forall (fun x => p x = true) a -> p c = false ->
  dropwhile p (a ++ c :: s) = c :: s.
Proof.
  intros Ha Hc. rewrite dropwhile_all by exact Ha. cbn. now rewrite Hc.
Qed.

Lemma isdigit_not_v c : Re.isdigit c = true -> Re.is_v c = false.
Proof.
  intros H. unfold Re.is_v, ch_eq.
  destruct (Ascii.eqb_spec c "v") as [->|_]; [discriminate|].
  destruct (Ascii.eqb_spec c "V") as [->|_]; [discriminate | reflexivity].
Qed.

Lemma not_nl_line first :
  contains nl first = false -> Forall (fun x => Re.not_nl x = true) first.
Proof.
  intros H. apply Forall_forall. intros x Hx. unfold Re.not_nl, ch_eq.
  destruct (Ascii.eqb_spec x nl) as [->|_]; [|reflexivity].
  exfalso. revert Hx. now apply contains_false_iff.
Qed.

(** The pattern of the version on a description that starts with a version
    token and a space: the groups are the token and the rest of the first
    line; whatever follows the first line feed is in no group. *)
Lemma search_version_line v first more :
  version_token v -> first <> [] -> contains nl first = false ->
  more = [] \/ (exists m, more = nl :: m) ->
  Re.search_version (v ++ [space] ++ first ++ more) = Some (v, first).
Proof.
  intros (p & digits & seg & -> & Hp & Hd & Hdigits & Hs & Hseg)
    Hfirst Hline Hmore.
  assert (Hrest : takewhile Re.not_nl (first ++ more) = first).
  { destruct Hmore as [->|[m ->]].
    - rewrite app_nil_r. now apply takewhile_all, not_nl_line.
    - apply takewhile_app_stop; [now apply not_nl_line | reflexivity]. }
  assert (Hscan : forall s,
            s = digits ++ [dot] ++ seg ++ [space] ++ first ++ more ->
            takewhile Re.isdigit s = digits
            /\ dropwhile Re.isdigit s = dot :: seg ++ [space] ++ first ++ more).
  { intros s ->. split.
    - now apply takewhile_app_stop.
    - now apply dropwhile_app_stop. }
  assert (Hseg' :
            takewhile Re.is_version_char (seg ++ [space] ++ first ++ more) = seg
            /\ dropwhile Re.is_version_char (seg ++ [space] ++ first ++ more)
               = space :: first ++ more).
  { split; [now apply takewhile_app_stop | now apply dropwhile_app_stop]. }
  destruct Hseg' as [Ht Hdw].
  destruct (Hscan _ eq_refl) as [Htd Hdd].
  assert (Hmain :
            forall pv, pv = [] \/ (exists c, pv = [c] /\ Re.is_v c = true) ->
            (match pv ++ digits ++ [dot] ++ seg ++ [space] ++ first ++ more with
             | c :: _ => if Re.is_v c then [c] else []
             | [] => []
             end) = pv).
  { intros pv [->|(c & -> & Hc)].
    - destruct digits as [|d0 digits']; [contradiction|].
      inversion Hdigits; subst. cbn [app]. now rewrite isdigit_not_v.
    - cbn [app]. now rewrite Hc. }
  unfold Re.search_version.
  replace ((p ++ digits ++ [dot] ++ seg) ++ [space] ++ first ++ more)
    with (p ++ digits ++ [dot] ++ seg ++ [space] ++ first ++ more)
    by (now rewrite <- !app_assoc).
  rewrite (Hmain p Hp).
  rewrite skipn_app, Nat.sub_diag, skipn_all. cbn [skipn app].
  cbn [app] in Htd, Hdd, Ht, Hdw. rewrite Htd, Hdd.
  destruct digits as [|d0 digits']; [contradiction|].
  change (ch_eq dot dot) with true. cbn match. rewrite Ht, Hdw.
  destruct seg as [|s0 seg']; [contradiction|].
  change (ch_eq space space) with true. cbn match. rewrite Hrest.
  destruct first; [contradiction | reflexivity].
Qed.

End VersionLine.

(** What the deprecated family keeps of a description that starts with a
    version token and a space: the first line only.  The record is the one
    the spec describes when the description has one line; the lines after
    the first are lost. *)
Lemma deprecated_keeps_first_line kw key more v first rest :
  family_of kw key = FDeprecated ->
  version_token v -> first <> [] -> Py.contains Py.nl first = false ->
  Rest._build_meta kw (key :: more) (v ++ [Py.space] ++ first) =
    Ok (DocstringDeprecated (key :: more) (Some first) (Some v))
  /\ Rest._build_meta kw (key :: more)
       (v ++ [Py.space] ++ first ++ Py.nl :: rest) =
     Ok (DocstringDeprecated (key :: more) (Some first) (Some v)).
Proof.
  intros Hfam Hv Hfirst Hline. rewrite !build_deprecated by exact Hfam.
  rewrite <- (app_nil_r first) at 1.
  rewrite !search_version_line; eauto.
Qed.


(** ** Further properties of the parser *)

(** [parse] fails as the loop over the tagged blocks does. *)
Lemma parse_raise_chunks kw text e :
  Rest.parse kw text = Raise e <->
  Rest.parse_chunks kw (tagged_blocks text) = Raise e.
Proof.
  destruct (parse_by_chunks kw text) as [f Hf]. rewrite Hf.
  destruct (Rest.parse_chunks kw (tagged_blocks text)); cbn [bind];
    split; congruence.
Qed.

Lemma parse_ok_chunks kw text d :
  Rest.parse kw text = Ok d ->
  Rest.parse_chunks kw (tagged_blocks text) = Ok (meta d).
Proof.
  unfold Rest.parse, tagged_blocks. destruct text as [|c text].
  - intros [= <-]. reflexivity.
  - cbn [Py.truthy].
    destruct (Rest.chunks_of (Inspect.cleandoc (c :: text))) as [dc mc].
    cbn [snd].
    destruct (Rest.parse_chunks kw (Re.finditer_blocks mc)) as [ms|e];
      cbn [bind]; [|discriminate].
    intros [= <-]. now rewrite meta_split_preamble.
Qed.

(** The records of a successful loop, block by block. *)
Lemma parse_chunks_Forall2 kw chunks ms :
  Forall (fun b => b <> []) chunks ->
  Rest.parse_chunks kw chunks = Ok ms ->
  Forall2 (fun b m => Rest.parse_chunk kw b = Ok m) chunks ms.
Proof.
  intros Hne. revert ms. induction Hne as [|c chunks Hc Hne IH]; intros ms.
  - intros [= <-]. constructor.
  - cbn [Rest.parse_chunks]. destruct c as [|x c]; [contradiction|].
    cbn [Py.truthy].
    destruct (Rest.parse_chunk kw (x :: c)) as [m|e] eqn:E; cbn [bind];
      [|discriminate].
    destruct (Rest.parse_chunks kw chunks) as [ms'|e]; cbn [bind];
      [|discriminate].
    intros [= <-]. constructor; auto.
Qed.

(** X1: [parse] stops at the first tagged block that fails: it raises an
    exception exactly when some block raises it while every block before it
    builds a record; the blocks after it are not looked at. *)
Theorem parse_raises_first_failure :
  forall (kw : Keywords) (text : str) (e : exn),
    Rest.parse kw text = Raise e <->
    exists before b after,
      tagged_blocks text = before ++ b :: after
      /\ Forall (fun b' => exists m, Rest.parse_chunk kw b' = Ok m) before
      /\ Rest.parse_chunk kw b = Raise e.
Proof.
  intros kw text e. rewrite parse_raise_chunks.
  apply parse_chunks_raise, tagged_blocks_nonempty.
Qed.

(** X2: an [IndexError] escapes from [parse] exactly when the first block
    that fails has a body delimiter and an empty tag line, as in [: : x]:
    [_build_meta] then reads the first of no token. *)
Theorem parse_index_error_iff :
  forall (kw : Keywords) (text : str),
    Rest.parse kw text = Raise IndexError <->
    exists before b after,
      tagged_blocks text = before ++ b :: after
      /\ Forall (fun b' => exists m, Rest.parse_chunk kw b' = Ok m) before
      /\ ~ lacks_body_delimiter b /\ tag_tokens b = [].
Proof.
  intros kw text. rewrite parse_raise_chunks.
  rewrite (parse_chunks_raise kw IndexError (tagged_blocks_nonempty text)).
  split; intros (before & b & after & Hb & Hok & H);
    exists before, b, after; (split; [exact Hb|]; split; [exact Hok|]).
  - apply parse_chunk_raise in H.
    destruct H as [[_ [=]]|[(Hd & Ht & _)|(_ & _ & [=])]]. auto.
  - apply parse_chunk_raise. right. left. destruct H. auto.
Qed.

(** X3: a successful [parse] returns one record per tagged block, in the
    order of the blocks in the text: the record of each block is the one
    built from that block alone. *)
Theorem parse_items_in_order :
  forall (kw : Keywords) (text : str) (d : Docstring),
    Rest.parse kw text = Ok d ->
    Forall2 (fun b m => Rest.parse_chunk kw b = Ok m)
      (tagged_blocks text) (meta d).
Proof.
  intros kw text d H. apply parse_chunks_Forall2.
  - apply tagged_blocks_nonempty.
  - now apply parse_ok_chunks.
Qed.

Lemma parse_items_in_order_witness :
  Forall2 (fun b m => Rest.parse_chunk spec_keywords b = Ok m)
    (tagged_blocks join_paths_text) (meta join_paths_doc).
Proof.
  exact (@parse_items_in_order spec_keywords join_paths_text join_paths_doc
           eq_refl).
Defined.

Section Tokens.
Import Py.

Lemma cons_word_Forall (P : str -> Prop) w ws :
  (w <> [] -> P w) -> Forall P ws -> Forall P (cons_word w ws).
Proof.
  intros Hw Hws. destruct w; cbn; [exact Hws|].
  constructor; [apply Hw; discriminate | exact Hws].
Qed.

(** The words of a text are not empty and made of characters of the text
    that are not whitespace. *)
Lemma split_ws_run_words s :
  Forall (fun c => isspace c = false /\ In c s) (fst (split_ws_run s))
  /\ Forall (fun t => t <> []
                      /\ Forall (fun c => isspace c = false /\ In c s) t)
       (snd (split_ws_run s)).
Proof.
  induction s as [|c s [IHw IHws]]; cbn [split_ws_run]; [split; constructor|].
  assert (Hw : Forall (fun x => isspace x = false /\ In x (c :: s))
                 (fst (split_ws_run s))).
  { revert IHw. apply Forall_impl. intros x [H1 H2]. split; [|right]; auto. }
  assert (Hws : Forall (fun t => t <> []
                  /\ Forall (fun x => isspace x = false /\ In x (c :: s)) t)
                  (snd (split_ws_run s))).
  { revert IHws. apply Forall_impl. intros t [H1 H2]. split; [exact H1|].
    revert H2. apply Forall_impl. intros x [H3 H4]. split; [|right]; auto. }
  destruct (split_ws_run s) as [w ws]. cbn [fst snd] in *.
  destruct (isspace c) eqn:E; cbn [fst snd].
  - split; [constructor|]. apply cons_word_Forall; auto.
  - split; [|exact Hws]. constructor; [|exact Hw]. split; [exact E | now left].
Qed.

Lemma split_ws_words s :
  Forall (fun t => t <> []
                   /\ Forall (fun c => isspace c = false /\ In c s) t)
    (split_ws s).
Proof.
  unfold split_ws. destruct (split_ws_run_words s) as [Hw Hws].
  destruct (split_ws_run s) as [w ws]. cbn [fst snd] in *.
  apply cons_word_Forall; auto.
Qed.

Lemma Forall2_Forall_r (A B : Type) (R : A -> B -> Prop) (P : B -> Prop) l l' :
  Forall2 R l l' -> (forall a b, R a b -> P b) -> Forall P l'.
Proof. induction 1; intros HP; constructor; eauto. Qed.

(** The tokens of the record of one block. *)
Lemma parse_chunk_tokens kw b m :
  Rest.parse_chunk kw b = Ok m -> args m <> [] /\ Forall is_token (args m).
Proof.
  unfold Rest.parse_chunk.
  destruct (split1 colon (lstrip_char colon b)) as [a [d|]] eqn:E;
    [|discriminate].
  apply split1_Some in E. destruct E as [_ Hcol].
  intros H. pose proof (build_meta_args _ _ _ H) as Ha. rewrite Ha. split.
  - intros Hn. rewrite Hn in H. discriminate.
  - pose proof (split_ws_words a) as Hw. revert Hw. apply Forall_impl.
    intros t [Hne Ht]. split; [exact Hne|]. revert Ht. apply Forall_impl.
    intros c [Hs Hin]. split; [exact Hs|]. intros ->.
    revert Hin. now apply contains_false_iff.
Qed.

End Tokens.

(** X4: in a parsed document every record carries at least one raw token,
    and every raw token is a word: not empty, without whitespace and without
    colon. *)
Theorem parse_raw_tokens_are_words :
  forall (kw : Keywords) (text : str) (d : Docstring),
    Rest.parse kw text = Ok d ->
    Forall (fun m => args m <> [] /\ Forall is_token (args m)) (meta d).
Proof.
  intros kw text d H.
  apply (@Forall2_Forall_r _ _
           (fun b m => Rest.parse_chunk kw b = Ok m) _ (tagged_blocks text)).
  - apply parse_chunks_Forall2; [apply tagged_blocks_nonempty|].
    now apply parse_ok_chunks.
  - intros b m. apply parse_chunk_tokens.
Qed.

Lemma parse_raw_tokens_are_words_witness :
  Forall (fun m => args m <> [] /\ Forall is_token (args m))
    (meta join_paths_doc).
Proof.
  exact (@parse_raw_tokens_are_words spec_keywords join_paths_text
           join_paths_doc eq_refl).
Defined.

(** ** The other families *)

Section Families.
Import Py Rest.
Variable kw : Keywords.

Lemma family_returns key :
  family_of kw key = FReturns ->
  kw_in key (PARAM_KEYWORDS kw) = false
  /\ kw_in key (RETURNS_KEYWORDS kw) || kw_in key (YIELDS_KEYWORDS kw) = true.
Proof.
  unfold family_of.
  destruct (kw_in key (PARAM_KEYWORDS kw)); [discriminate|].
  destruct (kw_in key (RETURNS_KEYWORDS kw) || kw_in key (YIELDS_KEYWORDS kw));
    [auto|].
  destruct (kw_in key (DEPRECATION_KEYWORDS kw)); [discriminate|].
  destruct (kw_in key (RAISES_KEYWORDS kw)); discriminate.
Qed.

Lemma family_raises key :
  family_of kw key = FRaises ->
  kw_in key (PARAM_KEYWORDS kw) = false
  /\ kw_in key (RETURNS_KEYWORDS kw) || kw_in key (YIELDS_KEYWORDS kw) = false
  /\ kw_in key (DEPRECATION_KEYWORDS kw) = false
  /\ kw_in key (RAISES_KEYWORDS kw) = true.
Proof.
  unfold family_of.
  destruct (kw_in key (PARAM_KEYWORDS kw)); [discriminate|].
  destruct (kw_in key (RETURNS_KEYWORDS kw) || kw_in key (YIELDS_KEYWORDS kw));
    [discriminate|].
  destruct (kw_in key (DEPRECATION_KEYWORDS kw)); [discriminate|].
  destruct (kw_in key (RAISES_KEYWORDS kw)); [auto | discriminate].
Qed.

Lemma family_generic key :
  family_of kw key = FGeneric ->
  kw_in key (PARAM_KEYWORDS kw) = false
  /\ kw_in key (RETURNS_KEYWORDS kw) || kw_in key (YIELDS_KEYWORDS kw) = false
  /\ kw_in key (DEPRECATION_KEYWORDS kw) = false
  /\ kw_in key (RAISES_KEYWORDS kw) = false.
Proof.
  unfold family_of.
  destruct (kw_in key (PARAM_KEYWORDS kw)); [discriminate|].
  destruct (kw_in key (RETURNS_KEYWORDS kw) || kw_in key (YIELDS_KEYWORDS kw));
    [discriminate|].
  destruct (kw_in key (DEPRECATION_KEYWORDS kw)); [discriminate|].
  destruct (kw_in key (RAISES_KEYWORDS kw)); [discriminate | auto].
Qed.

Lemma build_returns key desc :
  family_of kw key = FReturns ->
  _build_meta kw [key] desc =
    Ok (DocstringReturns [key] (Some desc) None
          (kw_in key (YIELDS_KEYWORDS kw)))
  /\ forall t,
      _build_meta kw [key; t] desc =
      Ok (DocstringReturns [key; t] (Some desc) (Some t)
            (kw_in key (YIELDS_KEYWORDS kw))).
Proof.
  intros Hf. destruct (family_returns _ Hf) as [Hp Hr].
  unfold _build_meta. rewrite Hp, Hr. split; reflexivity.
Qed.

Lemma build_raises key desc :
  family_of kw key = FRaises ->
  _build_meta kw [key] desc = Ok (DocstringRaises [key] (Some desc) None)
  /\ forall t,
      _build_meta kw [key; t] desc =
      Ok (DocstringRaises [key; t] (Some desc) (Some t)).
Proof.
  intros Hf. destruct (family_raises _ Hf) as (Hp & Hr & Hd & Hx).
  unfold _build_meta. rewrite Hp, Hr, Hd, Hx. split; reflexivity.
Qed.

Lemma build_generic key more desc :
  family_of kw key = FGeneric ->
  _build_meta kw (key :: more) desc = Ok (Meta (key :: more) (Some desc)).
Proof.
  intros Hf. destruct (family_generic _ Hf) as (Hp & Hr & Hd & Hx).
  unfold _build_meta. now rewrite Hp, Hr, Hd, Hx.
Qed.

Lemma build_param_typed key type_name arg_name desc :
  kw_in key (PARAM_KEYWORDS kw) = true ->
  _build_meta kw [key; type_name; arg_name] desc =
  Ok (DocstringParam [key; type_name; arg_name] (Some desc) arg_name
        (Some (if endswith type_name (L "?") then drop_last type_name
               else type_name))
        (Some (endswith type_name (L "?")))
        (option_map (rstrip_char dot) (Re.match_defaults desc))).
Proof.
  intros Hk. unfold _build_meta. rewrite Hk.
  destruct (endswith type_name (L "?")); cbn [bind];
    destruct (Re.match_defaults desc); reflexivity.
Qed.

End Families.

(** X5: a block of the returns or yields family with one or two tokens
    parses to a returns record whose [type_name] is the second token, absent
    when there is none, and whose [is_generator] tells whether the keyword is
    one of the yields keywords. *)
Theorem returns_block_record :
  forall (kw : Keywords) (chunk args_chunk desc_chunk key : str),
    block_parts chunk = (args_chunk, Some desc_chunk) ->
    family_of kw key = FReturns ->
    (Py.split_ws args_chunk = [key] ->
     Rest.parse_chunk kw chunk =
     Ok (DocstringReturns [key] (Some (Rest.block_desc desc_chunk)) None
           (kw_in key (YIELDS_KEYWORDS kw))))
    /\ (forall t,
          Py.split_ws args_chunk = [key; t] ->
          Rest.parse_chunk kw chunk =
          Ok (DocstringReturns [key; t] (Some (Rest.block_desc desc_chunk))
                (Some t) (kw_in key (YIELDS_KEYWORDS kw)))).
Proof.
  intros kw chunk args_chunk desc_chunk key Hparts Hfam.
  unfold Rest.parse_chunk. unfold block_parts in Hparts. rewrite Hparts.
  destruct (@build_returns kw key (Rest.block_desc desc_chunk) Hfam)
    as [H1 H2].
  split; [intros -> | intros t ->]; auto.
Qed.

Lemma returns_block_record_witness :
  Rest.parse_chunk spec_keywords (L ":yields int: the next value") =
  Ok (DocstringReturns [L "yields"; L "int"] (Some (L "the next value"))
        (Some (L "int")) true).
Proof.
  exact (proj2 (@returns_block_record spec_keywords
                  (L ":yields int: the next value") (L "yields int")
                  (L " the next value") (L "yields") eq_refl eq_refl)
           (L "int") eq_refl).
Defined.

(** X6: a block of the raises family with one or two tokens parses to a
    raises record whose [type_name] is the second token, absent when there is
    none. *)
Theorem raises_block_record :
  forall (kw : Keywords) (chunk args_chunk desc_chunk key : str),
    block_parts chunk = (args_chunk, Some desc_chunk) ->
    family_of kw key = FRaises ->
    (Py.split_ws args_chunk = [key] ->
     Rest.parse_chunk kw chunk =
     Ok (DocstringRaises [key] (Some (Rest.block_desc desc_chunk)) None))
    /\ (forall t,
          Py.split_ws args_chunk = [key; t] ->
          Rest.parse_chunk kw chunk =
          Ok (DocstringRaises [key; t] (Some (Rest.block_desc desc_chunk))
                (Some t))).
Proof.
  intros kw chunk args_chunk desc_chunk key Hparts Hfam.
  unfold Rest.parse_chunk. unfold block_parts in Hparts. rewrite Hparts.
  destruct (@build_raises kw key (Rest.block_desc desc_chunk) Hfam)
    as [H1 H2].
  split; [intros -> | intros t ->]; auto.
Qed.

Lemma raises_block_record_witness :
  Rest.parse_chunk spec_keywords (L ":raises ValueError: on bad input") =
  Ok (DocstringRaises [L "raises"; L "ValueError"] (Some (L "on bad input"))
        (Some (L "ValueError"))).
Proof.
  exact (proj2 (@raises_block_record spec_keywords
                  (L ":raises ValueError: on bad input")
                  (L "raises ValueError") (L " on bad input") (L "raises")
                  eq_refl eq_refl)
           (L "ValueError") eq_refl).
Defined.

(** X7: in a param block with three tokens the middle token is the type:
    [is_optional] is [True] when it ends with a question mark and [False]
    (not [None]) otherwise, and [type_name] is the token without that one
    last question mark. *)
Theorem param_three_tokens_optional_flag :
  forall (kw : Keywords)
         (chunk args_chunk desc_chunk key type_name arg_name : str),
    block_parts chunk = (args_chunk, Some desc_chunk) ->
    Py.split_ws args_chunk = [key; type_name; arg_name] ->
    family_of kw key = FParam ->
    exists default,
      Rest.parse_chunk kw chunk =
      Ok (DocstringParam [key; type_name; arg_name]
            (Some (Rest.block_desc desc_chunk)) arg_name
            (Some (if Py.endswith type_name (L "?")
                   then Rest.drop_last type_name else type_name))
            (Some (Py.endswith type_name (L "?"))) default).
Proof.
  intros kw chunk args_chunk desc_chunk key type_name arg_name
    Hparts Hargs Hfam.
  unfold Rest.parse_chunk. unfold block_parts in Hparts. rewrite Hparts, Hargs.
  rewrite build_param_typed by now apply family_param.
  eexists. reflexivity.
Qed.

Lemma param_three_tokens_optional_flag_witness :
  exists default,
    Rest.parse_chunk spec_keywords (L ":param int?? n: how many") =
    Ok (DocstringParam [L "param"; L "int??"; L "n"] (Some (L "how many"))
          (L "n") (Some (L "int?")) (Some true) default).
Proof.
  exact (@param_three_tokens_optional_flag spec_keywords
           (L ":param int?? n: how many") (L "param int?? n") (L " how many")
           (L "param") (L "int??") (L "n") eq_refl eq_refl eq_refl).
Defined.

(** X8: a block whose keyword belongs to no family parses to a generic
    record holding all its tokens, whatever their number, and the description
    as it is: there is no arity rule and no error. *)
Theorem generic_block_record :
  forall (kw : Keywords) (chunk args_chunk desc_chunk key : str)
         (more : list str),
    block_parts chunk = (args_chunk, Some desc_chunk) ->
    Py.split_ws args_chunk = key :: more ->
    family_of kw key = FGeneric ->
    Rest.parse_chunk kw chunk =
    Ok (Meta (key :: more) (Some (Rest.block_desc desc_chunk))).
Proof.
  intros kw chunk args_chunk desc_chunk key more Hparts Hargs Hfam.
  unfold Rest.parse_chunk. unfold block_parts in Hparts. rewrite Hparts, Hargs.
  now apply build_generic.
Qed.

Lemma generic_block_record_witness :
  Rest.parse_chunk spec_keywords (L ":see also here: the manual") =
  Ok (Meta [L "see"; L "also"; L "here"] (Some (L "the manual"))).
Proof.
  exact (@generic_block_record spec_keywords (L ":see also here: the manual")
           (L "see also here") (L " the manual") (L "see")
           [L "also"; L "here"] eq_refl eq_refl eq_refl).
Defined.

(** ** A generic block, there and back *)

(** X9: a one-line block [:<keyword>: <description>] whose keyword is a
    single token of no family and whose description is not empty, has no
    whitespace at either end and holds no line feed and no tab, in the manner
    of [:note: something], parses to a document with the one generic record
    of that keyword and description, and the compact rendering of that
    document is the text again. *)
Theorem generic_one_line_round_trip :
  forall (kw : Keywords) (indent key desc : str),
    family_of kw key = FGeneric -> is_token key ->
    desc <> [] -> Py.strip desc = desc ->
    Py.contains Py.nl desc = false -> Py.contains Py.tab desc = false ->
    Rest.parse kw (L ":" ++ key ++ L ": " ++ desc) =
      Ok (mkDocstring None None false false [Meta [key] (Some desc)])
    /\ Rest.compose COMPACT indent
         (mkDocstring None None false false [Meta [key] (Some desc)]) =
       L ":" ++ key ++ L ": " ++ desc.
Proof.
  intros kw indent key desc Hfam Hkey Hne Hstrip Hnl Htab. split.
  - change (L ":" ++ key ++ L ": " ++ desc)
      with (Py.colon :: key ++ Py.colon :: Py.space :: desc).
    assert (Hline : forall c, Py.isspace c = true ->
                      Py.ch_eq c Py.space = false ->
                      Py.ch_eq c Py.colon = false ->
                      Py.contains c desc = false ->
                      Py.contains c (key ++ Py.colon :: Py.space :: desc)
                      = false).
    { intros c Hc Hsp Hcol Hd.
      rewrite contains_app, !contains_cons, Hsp, Hcol, Hd.
      rewrite (token_contains Hkey); auto. }
    rewrite parse_scan by discriminate.
    rewrite cleandoc_one_line; [|reflexivity|apply Hline|apply Hline]; auto.
    rewrite <- (app_nil_r (key ++ _)).
    rewrite tag_blocks_block by (apply no_tag_line_no_nl, Hline; auto).
    rewrite app_nil_r.
    cbn [Re.tag_blocks fst snd app Rest.parse_chunks Py.truthy].
    rewrite parse_chunk_block.
    + unfold Py.split_ws. destruct Hkey as [Hk Hall].
      rewrite (split_ws_run_word Hall).
      destruct key as [|k key]; [contradiction|]. cbn [Py.cons_word].
      rewrite block_desc_space, block_desc_one_line by assumption.
      rewrite build_generic by exact Hfam. reflexivity.
    + now destruct Hkey.
    + apply token_contains; auto.
  - unfold Rest.compose, Rest.compose_meta, Rest.process_desc.
    cbn [Rest.preamble_parts short_description long_description
           blank_after_short_description blank_after_long_description meta
           Py.truthy_opt app map Py.join description Rest.tag_text].
    destruct desc; [contradiction | reflexivity].
Qed.

Lemma generic_one_line_round_trip_witness :
  Rest.parse spec_keywords (L ":note: something") =
    Ok (mkDocstring None None false false
          [Meta [L "note"] (Some (L "something"))])
  /\ Rest.compose COMPACT (L "    ")
       (mkDocstring None None false false
          [Meta [L "note"] (Some (L "something"))]) =
     L ":note: something".
Proof.
  refine (@generic_one_line_round_trip spec_keywords (L "    ") (L "note")
            (L "something") eq_refl _ _ eq_refl eq_refl eq_refl).
  - solve_token.
  - discriminate.
Defined.

(** ** The version of a deprecation, exactly *)

Section VersionExact.
Import Py.

Lemma takewhile_dropwhile p s : takewhile p s ++ dropwhile p s = s.
Proof.
  induction s as [|c s IH]; cbn; [reflexivity|].
  destruct (p c); cbn; [now rewrite IH | reflexivity].
Qed.

Lemma takewhile_Forall p s : Forall (fun c => p c = true) (takewhile p s).
Proof.
  induction s as [|c s IH]; cbn; [constructor|].
  destruct (p c) eqn:E; constructor; assumption.
Qed.

Lemma dropwhile_head p s c r : dropwhile p s = c :: r -> p c = false.
Proof.
  induction s as [|x s IH]; cbn; [discriminate|].
  destruct (p x) eqn:E; [exact IH|]. intros [= <- _]. exact E.
Qed.

Lemma not_nl_contains d :
  Forall (fun c => Re.not_nl c = true) d -> contains nl d = false.
Proof.
  intros H. apply contains_false_iff. intros Hin.
  rewrite Forall_forall in H. specialize (H _ Hin). discriminate.
Qed.

(** When the pattern of the version matches, the description reads: a
    version token, a space, the group [desc], which is a line that is not
    empty, and then nothing or a line feed and more text. *)
Lemma search_version_sound desc v d :
  Re.search_version desc = Some (v, d) ->
  version_token v /\ d <> [] /\ contains nl d = false
  /\ exists more, desc = v ++ [space] ++ d ++ more
                  /\ (more = [] \/ exists m, more = nl :: m).
Proof.
  unfold Re.search_version.
  set (p := match desc with
            | c :: _ => if Re.is_v c then [c] else []
            | [] => []
            end).
  assert (Hp : (p = [] \/ exists c, p = [c] /\ Re.is_v c = true)
               /\ desc = p ++ skipn (length p) desc).
  { unfold p. destruct desc as [|c desc]; [auto|].
    destruct (Re.is_v c) eqn:E; cbn; eauto. }
  destruct Hp as [Hp Hdesc]. revert Hdesc.
  generalize (skipn (length p) desc). intros s1 Hdesc.
  pose proof (takewhile_dropwhile Re.isdigit s1) as H1.
  pose proof (takewhile_Forall Re.isdigit s1) as Hdigits.
  destruct (takewhile Re.isdigit s1) as [|d0 digits] eqn:Ed; [discriminate|].
  destruct (dropwhile Re.isdigit s1) as [|x s2] eqn:E1; [discriminate|].
  unfold ch_eq at 1. destruct (Ascii.eqb_spec x dot) as [->|_]; [|discriminate].
  pose proof (takewhile_dropwhile Re.is_version_char s2) as H2.
  pose proof (takewhile_Forall Re.is_version_char s2) as Hseg.
  destruct (takewhile Re.is_version_char s2) as [|g0 seg] eqn:Es;
    [discriminate|].
  destruct (dropwhile Re.is_version_char s2) as [|y s3] eqn:E2;
    [discriminate|].
  unfold ch_eq at 1.
  destruct (Ascii.eqb_spec y space) as [->|_]; [|discriminate].
  pose proof (takewhile_dropwhile Re.not_nl s3) as H3.
  pose proof (takewhile_Forall Re.not_nl s3) as Hline.
  destruct (takewhile Re.not_nl s3) as [|r0 rest] eqn:Er; [discriminate|].
  intros [= <- <-]. split; [|split; [discriminate|split]].
  - exists p, (d0 :: digits), (g0 :: seg). repeat split; auto; discriminate.
  - now apply not_nl_contains.
  - remember (dropwhile Re.not_nl s3) as tail eqn:E3. exists tail. split.
    + rewrite Hdesc, <- H1, <- H2, <- H3. cbn [app].
      repeat (rewrite <- app_assoc; cbn [app]). reflexivity.
    + destruct tail as [|z m]; [now left|].
      right. exists m. symmetry in E3. apply dropwhile_head in E3.
      unfold Re.not_nl, ch_eq in E3.
      destruct (Ascii.eqb_spec z nl) as [->|_]; [reflexivity | discriminate].
Qed.

End VersionExact.

(** X10: a deprecated record has a version exactly when its description
    reads: a version token (an optional [v], digits, a dot, digits letters
    and dots), one space, and a first line that is not empty; the version is
    that token and the description kept is that first line only, the text
    after its line feed being dropped.  In every other case the record has no
    version and keeps the whole description. *)
Theorem deprecated_version_exactly :
  forall (kw : Keywords) (key : str) (more : list str) (desc : str),
    family_of kw key = FDeprecated ->
    (forall v d,
        Rest._build_meta kw (key :: more) desc =
          Ok (DocstringDeprecated (key :: more) (Some d) (Some v)) <->
        (version_token v /\ d <> [] /\ Py.contains Py.nl d = false
         /\ exists rest, desc = v ++ [Py.space] ++ d ++ rest
                         /\ (rest = [] \/ exists m, rest = Py.nl :: m)))
    /\ ((forall v d, Re.search_version desc <> Some (v, d)) ->
        Rest._build_meta kw (key :: more) desc =
          Ok (DocstringDeprecated (key :: more) (Some desc) None)).
Proof.
  intros kw key more desc Hfam. rewrite build_deprecated by exact Hfam.
  split.
  - intros v d. split.
    + destruct (Re.search_version desc) as [[v' d']|] eqn:E; [|discriminate].
      intros [= <- <-]. now apply search_version_sound.
    + intros (Hv & Hd & Hline & rest & -> & Hrest).
      now rewrite search_version_line.
  - intros Hno. destruct (Re.search_version desc) as [[v d]|] eqn:E;
      [|reflexivity].
    exfalso. exact (Hno v d eq_refl).
Qed.

Lemma deprecated_version_exactly_witness :
  Rest._build_meta spec_keywords [L "deprecated"]
    (L "v2.0rc1 use join" ++ [Py.nl] ++ L "instead") =
  Ok (DocstringDeprecated [L "deprecated"] (Some (L "use join"))
        (Some (L "v2.0rc1"))).
Proof.
  refine (proj2 (proj1 (@deprecated_version_exactly spec_keywords
                          (L "deprecated") []
                          (L "v2.0rc1 use join" ++ [Py.nl] ++ L "instead")
                          eq_refl) (L "v2.0rc1") (L "use join")) _).
  split.
  - exists (L "v"), (L "2"), (L "0rc1").
    split; [reflexivity|].
    split; [right; exists "v"%char; split; reflexivity|].
    split; [discriminate|]. split; [repeat constructor|].
    split; [discriminate | repeat constructor].
  - split; [discriminate|]. split; [reflexivity|].
    exists (Py.nl :: L "instead"). split; [reflexivity|]. right. eauto.
Defined.

(** ** The shape of a parsed preamble *)

Section PreambleShape.
Import Py Inspect.

Lemma dropwhile_idem p s : dropwhile p (dropwhile p s) = dropwhile p s.
Proof.
  induction s as [|c s IH]; cbn; [reflexivity|].
  destruct (p c) eqn:E; [exact IH|]. cbn. now rewrite E.
Qed.

Lemma rstrip_end s :
  rstrip s = [] \/ exists init e, rstrip s = init ++ [e] /\ isspace e = false.
Proof.
  unfold rstrip. destruct (dropwhile isspace (rev s)) as [|e t] eqn:E;
    [now left|].
  right. exists (rev t), e. split; [reflexivity|].
  eapply dropwhile_head. exact E.
Qed.

Lemma strip_idem s : strip (strip s) = strip s.
Proof.
  unfold strip at 1. 
  assert (Hr : rstrip (strip s) = strip s).
  { unfold strip. destruct (rstrip_end s) as [->|(init & e & -> & He)];
      [reflexivity|].
    unfold lstrip. rewrite dropwhile_app.
    destruct (dropwhile isspace init) as [|x r].
    - rewrite dropwhile_stop by exact He. now apply (rstrip_last []).
    - change ((x :: r) ++ [e]) with ((x :: r) ++ [e]).
      now apply rstrip_last. }
  rewrite Hr. unfold strip, lstrip. apply dropwhile_idem.
Qed.

(** The preamble never starts with a colon. *)
Lemma tag_blocks_fst_head bol s :
  bol = true -> startswith (fst (Re.tag_blocks bol s)) [colon] = false.
Proof.
  intros ->. destruct s as [|c s]; [reflexivity|]. cbn [Re.tag_blocks].
  destruct (Re.tag_blocks (ch_eq c nl) s) as [pre bs]. cbn [andb].
  destruct (ch_eq c colon) eqn:E; cbn [fst]; [reflexivity|].
  cbn [startswith]. unfold ch_eq in *. now rewrite Ascii.eqb_sym, E.
Qed.

(** The text [cleandoc] returns never starts with a line feed. *)
Lemma cleandoc_first_char doc :
  cleandoc doc = [] \/ exists c x, cleandoc doc = c :: x /\ c <> nl.
Proof.
  unfold cleandoc.
  pose proof (split_no_sep nl (expandtabs doc)) as Hno.
  destruct (split nl (expandtabs doc)) as [|first others]; [now left|].
  inversion Hno as [|? ? Hf Ho]; subst.
  set (others' := match margin_of others with
                  | Some m => map (skipn m) others
                  | None => others
                  end).
  assert (Hall : Forall (fun l => contains nl l = false)
                   (lstrip first :: others')).
  { constructor; [now apply contains_lstrip|]. unfold others'.
    destruct (margin_of others); [|exact Ho].
    apply Forall_map. revert Ho. apply Forall_impl. intros a.
    apply contains_skipn. }
  apply pop_trailing_Forall, pop_leading_Forall in Hall.
  pose proof (pop_leading_head (pop_trailing (lstrip first :: others')))
    as Hhead.
  destruct (pop_leading (pop_trailing (lstrip first :: others')))
    as [|l ls]; [now left|].
  inversion Hall as [|? ? Hl _]; subst.
  destruct l as [|c l]; [contradiction|]. right.
  rewrite contains_cons in Hl. apply orb_false_iff in Hl. destruct Hl as [Hc _].
  exists c. destruct ls as [|l' ls]; cbn [join app]; eexists;
    (split; [reflexivity|]); intros ->; unfold ch_eq in Hc;
    now rewrite Ascii.eqb_refl in Hc.
Qed.

End PreambleShape.

(** X11: in a parsed document a short description is one line that is not
    empty and does not begin with a colon, and a long description is not
    empty and has no whitespace at either end. *)
Theorem parse_preamble_shape :
  forall (kw : Keywords) (text : str) (d : Docstring),
    Rest.parse kw text = Ok d ->
    (forall s, short_description d = Some s ->
               s <> [] /\ Py.contains Py.nl s = false
               /\ Py.startswith s [Py.colon] = false)
    /\ (forall l, long_description d = Some l ->
                  l <> [] /\ Py.strip l = l).
Proof.
  intros kw text d H.
  destruct (parse_preamble_fields _ _ H) as (_ & _ & Hs & Hl).
  unfold preamble_remainder in Hl. rewrite preamble_blocks in Hs, Hl.
  pose proof (@tag_blocks_fst_head true (Inspect.cleandoc text) eq_refl)
    as Hhead.
  destruct (Py.split1 Py.nl (fst (Re.tag_blocks true (Inspect.cleandoc text))))
    as [a [r|]] eqn:E; cbn [fst snd] in Hs, Hl.
  - apply split1_Some in E. destruct E as [E Hnl]. split.
    + intros s Hsome. rewrite Hs in Hsome. destruct a as [|c a];
        [discriminate|]. injection Hsome as <-.
      split; [discriminate|]. split; [exact Hnl|].
      rewrite E in Hhead. exact Hhead.
    + intros l Hsome. rewrite Hl in Hsome.
      destruct (Py.strip r) as [|c l'] eqn:Er; [discriminate|].
      injection Hsome as <-. split; [discriminate|].
      rewrite <- Er. apply strip_idem.
  - apply split1_None in E. destruct E as [E Hnl]. split.
    + intros s Hsome. rewrite Hs in Hsome. destruct a as [|c a];
        [discriminate|]. injection Hsome as <-.
      split; [discriminate|]. split; [exact Hnl|].
      rewrite E in Hhead. exact Hhead.
    + intros l Hsome. rewrite Hl in Hsome. discriminate.
Qed.

Lemma parse_preamble_shape_witness :
  (forall s, short_description join_paths_doc = Some s ->
             s <> [] /\ Py.contains Py.nl s = false
             /\ Py.startswith s [Py.colon] = false)
  /\ (forall l, long_description join_paths_doc = Some l ->
                l <> [] /\ Py.strip l = l).
Proof.
  exact (@parse_preamble_shape spec_keywords join_paths_text join_paths_doc
           eq_refl).
Defined.

(** X12: a parsed document without short description has no long
    description either, and both its blank-line flags are false: the cleaned
    text never starts with a line feed, so an empty first line means an empty
    preamble. *)
Theorem parse_no_short_no_preamble :
  forall (kw : Keywords) (text : str) (d : Docstring),
    Rest.parse kw text = Ok d ->
    short_description d = None ->
    long_description d = None
    /\ blank_after_short_description d = false
    /\ blank_after_long_description d = false.
Proof.
  intros kw text d H Hshort.
  destruct (parse_preamble_fields _ _ H) as (Hbs & Hbl & Hs & Hl).
  rewrite Hs in Hshort. rewrite Hbs, Hbl, Hl. clear Hbs Hbl Hs Hl.
  unfold preamble_remainder in *. rewrite preamble_blocks in *.
  pose proof (tag_blocks_concat true (Inspect.cleandoc text)) as Hcat.
  destruct (Py.split1 Py.nl (fst (Re.tag_blocks true (Inspect.cleandoc text))))
    as [a [r|]] eqn:E; cbn [fst snd] in *; [|auto].
  exfalso. destruct a; [|discriminate].
  apply split1_Some in E. destruct E as [E _]. rewrite E in Hcat.
  destruct (cleandoc_first_char text) as [Hc|(c & x & Hc & Hne)];
    rewrite Hc in Hcat; [discriminate|].
  cbn in Hcat. injection Hcat as Hcat _. congruence.
Qed.

Lemma parse_no_short_no_preamble_witness :
  long_description
    (mkDocstring None None false false
       [Meta [L "note"] (Some (L "something"))]) = None
  /\ blank_after_short_description
       (mkDocstring None None false false
          [Meta [L "note"] (Some (L "something"))]) = false
  /\ blank_after_long_description
       (mkDocstring None None false false
          [Meta [L "note"] (Some (L "something"))]) = false.
Proof.
  exact (@parse_no_short_no_preamble spec_keywords
           ([Py.nl; Py.nl] ++ L "  :note: something")
           (mkDocstring None None false false
              [Meta [L "note"] (Some (L "something"))])
           eq_refl eq_refl).
Defined.

(** X13: a parsed document without items never has [blank_after_long] set:
    the cleaned text does not end with a line feed, and without tagged block
    the preamble runs to its end. *)
Theorem parse_no_items_no_blank_after_long :
  forall (kw : Keywords) (text : str) (d : Docstring),
    Rest.parse kw text = Ok d ->
    meta d = [] ->
    blank_after_long_description d = false.
Proof.
  intros kw text d H Hmeta.
  destruct (parse_preamble_fields _ _ H) as (_ & Hbl & _ & _).
  rewrite Hbl. clear Hbl.
  assert (Hblocks : tagged_blocks text = []).
  { pose proof (parse_chunks_Forall2 kw (tagged_blocks_nonempty text)
                  (parse_ok_chunks _ _ H)) as HF.
    rewrite Hmeta in HF. now inversion HF. }
  unfold preamble_remainder. rewrite preamble_blocks.
  rewrite tagged_blocks_scan in Hblocks.
  pose proof (tag_blocks_concat true (Inspect.cleandoc text)) as Hcat.
  rewrite Hblocks in Hcat. cbn [concat] in Hcat. rewrite app_nil_r in Hcat.
  rewrite Hcat.
  destruct (Py.split1 Py.nl (Inspect.cleandoc text)) as [a [r|]] eqn:E;
    cbn [snd]; [|reflexivity].
  eapply cleandoc_remainder_end. exact E.
Qed.

Lemma parse_no_items_no_blank_after_long_witness :
  blank_after_long_description
    (mkDocstring (Some (L "Short.")) (Some (L "Long.")) true false []) = false.
Proof.
  exact (@parse_no_items_no_blank_after_long spec_keywords
           (L "Short." ++ [Py.nl; Py.nl] ++ L "Long." ++ [Py.nl; Py.nl])
           (mkDocstring (Some (L "Short.")) (Some (L "Long.")) true false [])
           eq_refl eq_refl).
Defined.

(** ** The keyword [compose] writes *)

(** X14: for a record built from a tag line of one token, [compose] writes
    the keyword of the family and not the keyword parsed: [yields] or
    [returns] for the returns and yields families, [raises] for the raises
    family; only a deprecated or generic record keeps its own keyword. *)
Theorem compose_writes_family_keyword :
  forall (kw : Keywords) (key desc : str) (m : DocstringMeta),
    Rest._build_meta kw [key] desc = Ok m ->
    Rest.tag_text m =
    match family_of kw key with
    | FReturns =>
        if kw_in key (YIELDS_KEYWORDS kw) then L "yields" else L "returns"
    | FRaises => L "raises"
    | _ => key
    end.
Proof.
  intros kw key desc m. unfold Rest._build_meta, family_of.
  destruct (kw_in key (PARAM_KEYWORDS kw)); [discriminate|].
  destruct (kw_in key (RETURNS_KEYWORDS kw) || kw_in key (YIELDS_KEYWORDS kw)).
  { cbn [bind]. intros [= <-]. cbn [Rest.tag_text].
    destruct (kw_in key (YIELDS_KEYWORDS kw)); apply app_nil_r. }
  destruct (kw_in key (DEPRECATION_KEYWORDS kw)).
  { destruct (Re.search_version desc) as [[v d]|]; intros [= <-]; reflexivity. }
  destruct (kw_in key (RAISES_KEYWORDS kw)).
  { cbn [bind]. intros [= <-]. reflexivity. }
  intros [= <-]. reflexivity.
Qed.

Lemma compose_writes_family_keyword_witness :
  Rest.tag_text (DocstringReturns [L "return"] (Some (L "the sum")) None false)
  = L "returns".
Proof.
  exact (@compose_writes_family_keyword
           (mkKeywords [L "param"] [L "return"; L "returns"] [L "yields"]
              [L "raises"] [L "deprecated"])
           (L "return") (L "the sum")
           (DocstringReturns [L "return"] (Some (L "the sum")) None false)
           eq_refl).
Defined.

(** ** The clean and the compact style *)

Section CleanCompact.
Import Py Rest.

Lemma splitlines_aux_line cur s :
  Forall (fun c => is_linebreak c = false) s ->
  splitlines_aux cur s =
  match cur, s with
  | [], [] => []
  | _, _ => [rev cur ++ s]
  end.
Proof.
  intros H. revert cur. induction H as [|c s Hc Hs IH]; intros cur.
  - cbn. destruct cur; [reflexivity|]. now rewrite app_nil_r.
  - cbn [splitlines_aux]. rewrite Hc, IH. cbn [rev].
    rewrite <- app_assoc. cbn [app]. now destruct cur.
Qed.

(** On a description of one line both styles write the same text. *)
Lemma process_desc_clean_compact indent indent' desc :
  (forall s, desc = Some s -> Forall (fun c => is_linebreak c = false) s) ->
  process_desc CLEAN indent desc = process_desc COMPACT indent' desc.
Proof.
  intros H. unfold process_desc. destruct desc as [[|c s]|]; try reflexivity.
  cbn [truthy_opt truthy]. unfold splitlines.
  rewrite splitlines_aux_line by (now apply H). reflexivity.
Qed.

End CleanCompact.

(** X15: when no description of a document holds a line break, the clean
    rendering of the document is its compact rendering, whatever the
    indentations: the indentation is written before continuation lines
    only. *)
Theorem compose_clean_is_compact :
  forall (indent indent' : str) (d : Docstring),
    Forall (fun m => forall s, description m = Some s ->
                               Forall (fun c => Py.is_linebreak c = false) s)
      (meta d) ->
    Rest.compose CLEAN indent d = Rest.compose COMPACT indent' d.
Proof.
  intros indent indent' d H. unfold Rest.compose. f_equal. f_equal.
  apply map_ext_Forall. revert H. apply Forall_impl. intros m Hm.
  unfold Rest.compose_meta. do 3 f_equal.
  now apply process_desc_clean_compact.
Qed.

Lemma compose_clean_is_compact_witness :
  Rest.compose CLEAN (L "        ")
    (mkDocstring (Some (L "Add.")) None false false
       [DocstringParam [L "param"; L "a"] (Some (L "left")) (L "a") None None
          None;
        DocstringReturns [L "returns"] (Some (L "the sum")) None false]) =
  Rest.compose COMPACT (L "  ")
    (mkDocstring (Some (L "Add.")) None false false
       [DocstringParam [L "param"; L "a"] (Some (L "left")) (L "a") None None
          None;
        DocstringReturns [L "returns"] (Some (L "the sum")) None false]).
Proof.
  apply compose_clean_is_compact.
  repeat (apply Forall_cons; [intros s [= <-]; repeat constructor|]).
  apply Forall_nil.
Defined.

(** ** A text without colon *)

Section NoColon.
Import Py Inspect.

Lemma contains_expandtabs c s :
  contains c s = false -> c <> space ->
  forall col, contains c (expandtabs_from col s) = false.
Proof.
  intros H Hsp. induction s as [|x s IH]; intros col; [reflexivity|].
  rewrite contains_cons in H. apply orb_false_iff in H. destruct H as [Hx Hs].
  cbn [expandtabs_from]. destruct (ch_eq x tab).
  - rewrite contains_app, (IH Hs), orb_false_r.
    apply contains_false_iff. intros Hin. apply repeat_spec in Hin. auto.
  - destruct (ch_eq x nl || ch_eq x cr); rewrite contains_cons, Hx; now apply IH.
Qed.

Lemma contains_split c s :
  contains c s = false ->
  Forall (fun l => contains c l = false) (split nl s).
Proof.
  induction s as [|x s IH]; intros H; [repeat constructor|].
  rewrite contains_cons in H. apply orb_false_iff in H. destruct H as [Hx Hs].
  specialize (IH Hs). cbn [split].
  destruct (ch_eq x nl); [constructor; [reflexivity | exact IH]|].
  destruct (split nl s) as [|l ls]; [repeat constructor|].
  - now rewrite contains_cons, Hx.
  - inversion IH; subst. constructor; [|assumption].
    now rewrite contains_cons, Hx.
Qed.

Lemma contains_join c ls :
  c <> nl -> Forall (fun l => contains c l = false) ls ->
  contains c (join [nl] ls) = false.
Proof.
  intros Hc. induction 1 as [|l ls Hl Hls IH]; [reflexivity|].
  cbn [join]. destruct ls as [|l' ls]; [exact Hl|].
  rewrite contains_app, Hl. cbn [app]. rewrite contains_cons, IH.
  unfold ch_eq. destruct (Ascii.eqb_spec c nl); [contradiction | reflexivity].
Qed.

(** [cleandoc] brings in no character but the spaces of the tabs. *)
Lemma contains_cleandoc c doc :
  contains c (expandtabs doc) = false -> c <> nl ->
  contains c (cleandoc doc) = false.
Proof.
  intros H Hnl. unfold cleandoc.
  pose proof (contains_split _ _ H) as Hlines.
  destruct (split nl (expandtabs doc)) as [|first others]; [reflexivity|].
  inversion Hlines as [|? ? Hf Ho]; subst.
  apply contains_join; [exact Hnl|].
  apply pop_leading_Forall, pop_trailing_Forall.
  constructor; [now apply contains_lstrip|].
  destruct (margin_of others); [|exact Ho].
  apply Forall_map. revert Ho. apply Forall_impl. intros a.
  apply contains_skipn.
Qed.

End NoColon.

(** X16: a text without colon always parses: the document has no item, and
    its preamble is read off the whole cleaned text. *)
Theorem parse_without_colon :
  forall (kw : Keywords) (text : str),
    Py.contains Py.colon text = false ->
    Rest.parse kw text =
    Ok (Rest.split_preamble (Inspect.cleandoc text) []).
Proof.
  intros kw text H. destruct text as [|c text]; [reflexivity|].
  rewrite parse_scan by discriminate.
  rewrite tag_blocks_no_colon; [reflexivity|].
  apply contains_cleandoc; [|discriminate].
  apply contains_expandtabs; [exact H | discriminate].
Qed.

Lemma parse_without_colon_witness :
  Rest.parse spec_keywords (L "  Short." ++ [Py.nl] ++ L "  Long.") =
  Ok (Rest.split_preamble
        (Inspect.cleandoc (L "  Short." ++ [Py.nl] ++ L "  Long.")) []).
Proof.
  exact (@parse_without_colon spec_keywords
           (L "  Short." ++ [Py.nl] ++ L "  Long.") eq_refl).
Defined.

(** ** Tabs do not survive parsing *)

Section NoTab.
Import Py Inspect.

Lemma expandtabs_no_tab_left s :
  forall col, contains tab (expandtabs_from col s) = false.
Proof.
  induction s as [|x s IH]; intros col; [reflexivity|].
  cbn [expandtabs_from]. destruct (ch_eq x tab) eqn:E.
  - rewrite contains_app, IH, orb_false_r.
    apply contains_false_iff. intros Hin. apply repeat_spec in Hin.
    discriminate.
  - assert (Hx : ch_eq tab x = false)
      by (unfold ch_eq in *; now rewrite Ascii.eqb_sym).
    destruct (ch_eq x nl || ch_eq x cr); now rewrite contains_cons, Hx, IH.
Qed.

Lemma cleandoc_no_tab doc : contains tab (cleandoc doc) = false.
Proof.
  apply contains_cleandoc; [apply expandtabs_no_tab_left | discriminate].
Qed.

Lemma contains_concat c bs :
  contains c (concat bs) = false -> Forall (fun b => contains c b = false) bs.
Proof.
  induction bs as [|b bs IH]; cbn [concat]; [constructor|].
  rewrite contains_app. intros H. apply orb_false_iff in H.
  destruct H as [Hb Hbs]. constructor; auto.
Qed.

Lemma contains_dropwhile c p s :
  contains c s = false -> contains c (dropwhile p s) = false.
Proof.
  rewrite !contains_false_iff. intros H Hin. apply H.
  eapply dropwhile_incl, Hin.
Qed.

Lemma contains_rev c s : contains c (rev s) = contains c s.
Proof.
  destruct (contains c s) eqn:E.
  - apply contains_true_iff. apply contains_true_iff in E. now apply in_rev in E.
  - apply contains_false_iff. apply contains_false_iff in E.
    intros Hin. apply E. now apply in_rev.
Qed.

Lemma contains_strip c s : contains c s = false -> contains c (strip s) = false.
Proof.
  intros H. unfold strip, lstrip, rstrip. apply contains_dropwhile.
  rewrite contains_rev. apply contains_dropwhile. now rewrite contains_rev.
Qed.

Lemma contains_split1 c sep s :
  contains c s = false ->
  contains c (fst (split1 sep s)) = false
  /\ forall r, snd (split1 sep s) = Some r -> contains c r = false.
Proof.
  intros H. destruct (split1 sep s) as [a [r|]] eqn:E; cbn [fst snd].
  - apply split1_Some in E. destruct E as [-> _].
    rewrite contains_app, contains_cons in H.
    apply orb_false_iff in H. destruct H as [Ha H].
    apply orb_false_iff in H. destruct H as [_ Hr].
    split; [exact Ha|]. now intros ? [= <-].
  - apply split1_None in E. destruct E as [-> _]. split; [exact H|].
    discriminate.
Qed.

Lemma block_desc_no_tab dc :
  contains tab dc = false -> contains tab (Rest.block_desc dc) = false.
Proof.
  intros H. unfold Rest.block_desc. apply contains_strip in H.
  destruct (contains nl (strip dc)); [|exact H].
  destruct (contains_split1 tab nl _ H) as [Hf _].
  destruct (split1 nl (strip dc)) as [first_line [rest|]]; [|exact H].
  cbn [fst] in Hf. rewrite contains_app, Hf. cbn [app].
  rewrite contains_cons, cleandoc_no_tab. reflexivity.
Qed.

End NoTab.

(** The description of a record is the description it was built from, or,
    for a deprecated record with a version, a part of it. *)
Lemma build_meta_description kw tokens desc m :
  Rest._build_meta kw tokens desc = Ok m ->
  description m = Some desc
  \/ exists v d, Re.search_version desc = Some (v, d)
                 /\ description m = Some d.
Proof.
  destruct tokens as [|key more]; [discriminate|].
  unfold Rest._build_meta.
  destruct (kw_in key (PARAM_KEYWORDS kw)).
  { destruct more as [|a [|b [|c more]]]; cbn [bind]; try discriminate.
    - destruct (Re.match_defaults desc); intros [= <-]; now left.
    - destruct (Py.endswith a (L "?")); cbn [bind];
        destruct (Re.match_defaults desc); intros [= <-]; now left. }
  destruct (kw_in key (RETURNS_KEYWORDS kw) || kw_in key (YIELDS_KEYWORDS kw)).
  { destruct more as [|a [|b more]]; cbn [bind]; try discriminate;
      intros [= <-]; now left. }
  destruct (kw_in key (DEPRECATION_KEYWORDS kw)).
  { destruct (Re.search_version desc) as [[v d]|] eqn:E; intros [= <-];
      [right; eauto | now left]. }
  destruct (kw_in key (RAISES_KEYWORDS kw)).
  { destruct more as [|a [|b more]]; cbn [bind]; try discriminate;
      intros [= <-]; now left. }
  intros [= <-]; now left.
Qed.

Lemma parse_chunk_no_tab kw b m :
  Rest.parse_chunk kw b = Ok m ->
  Py.contains Py.tab b = false ->
  forall s, description m = Some s -> Py.contains Py.tab s = false.
Proof.
  unfold Rest.parse_chunk. intros H Hb.
  assert (Hl : Py.contains Py.tab (Py.lstrip_char Py.colon b) = false)
    by now apply contains_dropwhile.
  destruct (contains_split1 Py.tab Py.colon _ Hl) as [_ Hd].
  destruct (Py.split1 Py.colon (Py.lstrip_char Py.colon b)) as [a [dc|]];
    [|discriminate].
  specialize (Hd dc eq_refl). apply block_desc_no_tab in Hd.
  apply build_meta_description in H.
  destruct H as [H|(v & d & Hv & H)]; rewrite H; intros s [= <-];
    [exact Hd|].
  apply search_version_sound in Hv.
  destruct Hv as (_ & _ & _ & more & Hdesc & _). rewrite Hdesc in Hd.
  rewrite !contains_app in Hd. apply orb_false_iff in Hd.
  destruct Hd as [_ Hd]. apply orb_false_iff in Hd. destruct Hd as [_ Hd].
  apply orb_false_iff in Hd. now destruct Hd.
Qed.

(** X17: no tab survives parsing: the text is cleaned with its tabs expanded
    into spaces, so that neither the short description, nor the long one, nor
    the description of any record of a parsed document holds a tab. *)
Theorem parse_leaves_no_tab :
  forall (kw : Keywords) (text : str) (d : Docstring),
    Rest.parse kw text = Ok d ->
    (forall s, short_description d = Some s -> Py.contains Py.tab s = false)
    /\ (forall s, long_description d = Some s -> Py.contains Py.tab s = false)
    /\ Forall (fun m => forall s, description m = Some s ->
                                  Py.contains Py.tab s = false) (meta d).
Proof.
  intros kw text d H.
  pose proof (cleandoc_no_tab text) as Hclean.
  rewrite <- (tag_blocks_concat true (Inspect.cleandoc text)) in Hclean.
  rewrite contains_app in Hclean. apply orb_false_iff in Hclean.
  destruct Hclean as [Hpre Hblocks].
  rewrite <- preamble_blocks in Hpre. rewrite <- tagged_blocks_scan in Hblocks.
  destruct (parse_preamble_fields _ _ H) as (_ & _ & Hs & Hl).
  unfold preamble_remainder in Hl.
  destruct (contains_split1 Py.tab Py.nl _ Hpre) as [Hfirst Hrest].
  split; [|split].
  - intros s Hsome. rewrite Hs in Hsome.
    destruct (fst (Py.split1 Py.nl (preamble text))); [discriminate|].
    now injection Hsome as <-.
  - intros s Hsome. rewrite Hl in Hsome.
    destruct (snd (Py.split1 Py.nl (preamble text))) as [r|]; [|discriminate].
    specialize (Hrest r eq_refl). apply contains_strip in Hrest.
    destruct (Py.strip r); [discriminate|]. now injection Hsome as <-.
  - apply contains_concat in Hblocks.
    pose proof (parse_chunks_Forall2 kw (tagged_blocks_nonempty text)
                  (parse_ok_chunks _ _ H)) as HF.
    clear -HF Hblocks. induction HF as [|b m bs ms Hb _ IH]; [constructor|].
    inversion Hblocks; subst. constructor; [|now apply IH].
    now apply (parse_chunk_no_tab _ _ Hb).
Qed.

Lemma parse_leaves_no_tab_witness :
  Rest.parse spec_keywords
    (L "Sum." ++ [Py.nl] ++ L ":param a:" ++ [Py.tab] ++ L "left term") =
    Ok (mkDocstring (Some (L "Sum.")) None false false
          [DocstringParam [L "param"; L "a"] (Some (L "left term")) (L "a")
             None None None])
  /\ Forall (fun m => forall s, description m = Some s ->
                                Py.contains Py.tab s = false)
       (meta (mkDocstring (Some (L "Sum.")) None false false
                [DocstringParam [L "param"; L "a"] (Some (L "left term"))
                   (L "a") None None None])).
Proof.
  split; [reflexivity|].
  exact (proj2 (proj2 (@parse_leaves_no_tab spec_keywords
                         (L "Sum." ++ [Py.nl] ++ L ":param a:" ++ [Py.tab]
                            ++ L "left term")
                         _ eq_refl))).
Defined.

(** ** Continuation lines *)

Section Dedent.
Import Py Inspect.

Lemma split_join ls :
  ls <> [] -> Forall (fun l => contains nl l = false) ls ->
  split nl (join [nl] ls) = ls.
Proof.
  intros Hne H. induction H as [|l ls Hl Hls IH]; [contradiction|].
  destruct ls as [|l' ls]; [now apply split_no_nl|].
  change (join [nl] (l :: l' :: ls)) with (l ++ nl :: join [nl] (l' :: ls)).
  rewrite split_app_prefix by exact Hl. cbn [split].
  change (ch_eq nl nl) with true. cbn match.
  rewrite IH by discriminate. now rewrite app_nil_r.
Qed.

(** A line that is not blank, indented by [n] spaces. *)
Lemma lstrip_padded n l :
  l <> [] -> strip l = l -> lstrip (repeat space n ++ l) = l.
Proof.
  intros Hne Hs. unfold lstrip. rewrite dropwhile_all.
  - destruct (strip_fixed_ends Hs Hne) as [(c & mid & -> & Hc) _].
    now apply dropwhile_stop.
  - apply Forall_forall. intros x Hx. apply repeat_spec in Hx. now subst.
Qed.

Lemma skipn_padded n (l : str) : skipn n (repeat space n ++ l) = l.
Proof.
  rewrite skipn_app, repeat_length, Nat.sub_diag, skipn_all2;
    [reflexivity | now rewrite repeat_length].
Qed.

Lemma margin_padded n ls :
  Forall (fun l => l <> [] /\ strip l = l) ls ->
  margin_of (map (app (repeat space n)) ls) =
  match ls with [] => None | _ => Some n end.
Proof.
  induction 1 as [|l ls [Hne Hs] Hls IH]; [reflexivity|].
  cbn [map margin_of]. unfold indent_of.
  rewrite (lstrip_padded n Hne Hs), IH.
  destruct l as [|c l]; [contradiction|].
  rewrite length_app, repeat_length.
  replace (n + length (c :: l) - length (c :: l)) with n by lia.
  destruct ls; [reflexivity|]. now rewrite Nat.min_id.
Qed.

Lemma pop_trailing_keeps ls l :
  l <> [] -> pop_trailing (ls ++ [l]) = ls ++ [l].
Proof.
  intros Hl. unfold pop_trailing. rewrite rev_unit.
  destruct l; [contradiction|]. cbn [pop_leading].
  cbn [rev]. now rewrite rev_involutive.
Qed.

(** Lines that are not blank, all indented by the same [n] spaces, are
    cleaned to the lines without that indentation. *)
Lemma cleandoc_padded n lines :
  lines <> [] ->
  Forall (fun l => l <> [] /\ strip l = l) lines ->
  Forall (fun l => contains nl l = false) lines ->
  Forall (fun l => contains tab l = false) lines ->
  cleandoc (join [nl] (map (app (repeat space n)) lines)) = join [nl] lines.
Proof.
  intros Hne Hgood Hnl Htab. unfold cleandoc, expandtabs.
  assert (Hpad : forall c, c <> space -> contains c (repeat space n) = false).
  { intros c Hc. apply contains_false_iff. intros Hin.
    apply repeat_spec in Hin. auto. }
  rewrite expandtabs_no_tab.
  2:{ apply contains_join; [discriminate|]. apply Forall_map.
      revert Htab. apply Forall_impl. intros l Hl.
      rewrite contains_app, Hl, Hpad; [reflexivity | discriminate]. }
  rewrite split_join.
  2:{ destruct lines; [contradiction | discriminate]. }
  2:{ apply Forall_map. revert Hnl. apply Forall_impl. intros l Hl.
      rewrite contains_app, Hl, Hpad; [reflexivity | discriminate]. }
  destruct lines as [|l0 ls]; [contradiction|].
  inversion Hgood as [|? ? [Hne0 Hs0] Hgood']; subst.
  cbn [map]. rewrite (margin_padded n Hgood'), (lstrip_padded n Hne0 Hs0).
  assert (Hothers :
            match ls with
            | [] => None
            | _ :: _ => Some n
            end = None /\ ls = []
            \/ match ls with
               | [] => None
               | _ :: _ => Some n
               end = Some n) by (destruct ls; auto).
  assert (Hlines : (match match ls with
                          | [] => None
                          | _ :: _ => Some n
                          end with
                    | Some m => map (skipn m) (map (app (repeat space n)) ls)
                    | None => map (app (repeat space n)) ls
                    end) = ls).
  { destruct ls as [|l1 ls']; [reflexivity|].
    rewrite map_map. rewrite <- (map_id (l1 :: ls')) at 2.
    apply map_ext. intros a. apply skipn_padded. }
  rewrite Hlines. clear Hothers Hlines.
  assert (Hkeep : pop_trailing (l0 :: ls) = l0 :: ls).
  { destruct (@exists_last _ (l0 :: ls)) as (init & l & E); [discriminate|].
    rewrite E. apply pop_trailing_keeps.
    assert (Hin : In l (l0 :: ls)) by (rewrite E; apply in_elt).
    rewrite Forall_forall in Hgood. now destruct (Hgood _ Hin). }
  rewrite Hkeep. destruct l0; [contradiction | reflexivity].
Qed.

(** A joined list of lines ends with its last line. *)
Lemma join_ends_with_last init l :
  exists x, join [nl] (init ++ [l]) = x ++ l.
Proof.
  induction init as [|y init [x IH]]; [exists []; reflexivity|].
  cbn [app]. destruct (init ++ [l]) as [|z zs] eqn:E;
    [destruct init; discriminate|].
  change (join [nl] (y :: z :: zs)) with (y ++ [nl] ++ join [nl] (z :: zs)).
  rewrite IH. exists (y ++ [nl] ++ x). now rewrite <- !app_assoc.
Qed.

(** The description of a block whose continuation lines are all indented by
    the same [n] spaces. *)
Lemma block_desc_padded n first lines :
  first <> [] -> strip first = first -> contains nl first = false ->
  lines <> [] ->
  Forall (fun l => l <> [] /\ strip l = l) lines ->
  Forall (fun l => contains nl l = false) lines ->
  Forall (fun l => contains tab l = false) lines ->
  Rest.block_desc
    (space :: first ++ nl :: join [nl] (map (app (repeat space n)) lines)) =
  first ++ nl :: join [nl] lines.
Proof.
  intros Hf Hfs Hfn Hne Hgood Hnl Htab.
  rewrite block_desc_space. unfold Rest.block_desc.
  assert (Hstrip : strip (first ++ nl :: join [nl]
                                        (map (app (repeat space n)) lines)) =
                   first ++ nl :: join [nl] (map (app (repeat space n)) lines)).
  { destruct (strip_fixed_ends Hfs Hf) as [(c & mid & -> & Hc) _].
    destruct (@exists_last _ lines Hne) as (init & l & ->).
    rewrite map_app. cbn [map].
    destruct (join_ends_with_last (map (app (repeat space n)) init)
                (repeat space n ++ l)) as [x ->].
    apply Forall_app in Hgood. destruct Hgood as [_ Hl].
    inversion Hl as [|? ? [Hlne Hls] _]; subst.
    destruct (strip_fixed_ends Hls Hlne) as [_ (li & e & -> & He)].
    replace ((c :: mid) ++ nl :: x ++ repeat space n ++ li ++ [e])
      with (c :: (mid ++ nl :: x ++ repeat space n ++ li) ++ [e])
      by (cbn [app]; rewrite <- app_assoc; cbn [app];
          now rewrite <- !app_assoc).
    now apply strip_bounded. }
  rewrite Hstrip, contains_app, contains_cons.
  change (ch_eq nl nl) with true. rewrite orb_true_r.
  rewrite split1_app by exact Hfn.
  now rewrite cleandoc_padded.
Qed.

End Dedent.

(** X18: in a block whose description goes on over lines that are not blank
    and are all indented by the same number of spaces, the first line is kept
    and the continuation lines lose exactly that indentation: the description
    is the first line and the lines, joined by line feeds. *)
Theorem continuation_lines_dedented :
  forall (kw : Keywords) (key first : str) (n : nat) (lines : list str),
    family_of kw key = FGeneric -> is_token key ->
    first <> [] -> Py.strip first = first -> Py.contains Py.nl first = false ->
    lines <> [] ->
    Forall (fun l => l <> [] /\ Py.strip l = l) lines ->
    Forall (fun l => Py.contains Py.nl l = false) lines ->
    Forall (fun l => Py.contains Py.tab l = false) lines ->
    Rest.parse_chunk kw
      (L ":" ++ key ++ L ": " ++ first ++ [Py.nl]
         ++ Py.join [Py.nl] (map (app (repeat Py.space n)) lines)) =
    Ok (Meta [key] (Some (first ++ [Py.nl] ++ Py.join [Py.nl] lines))).
Proof.
  intros kw key first n lines Hfam Hkey Hf Hfs Hfn Hne Hgood Hnl Htab.
  change (L ":" ++ key ++ L ": " ++ first ++ [Py.nl]
            ++ Py.join [Py.nl] (map (app (repeat Py.space n)) lines))
    with (Py.colon :: key ++ Py.colon :: Py.space :: first ++ Py.nl
            :: Py.join [Py.nl] (map (app (repeat Py.space n)) lines)).
  rewrite parse_chunk_block.
  - rewrite block_desc_padded by assumption.
    unfold Py.split_ws. destruct Hkey as [Hk Hall].
    rewrite (split_ws_run_word Hall).
    destruct key as [|k key]; [contradiction|]. cbn [Py.cons_word].
    now apply build_generic.
  - now destruct Hkey.
  - apply token_contains; auto.
Qed.

Lemma continuation_lines_dedented_witness :
  Rest.parse_chunk spec_keywords
    (L ":note: first" ++ [Py.nl] ++ L "    second line" ++ [Py.nl]
       ++ L "    third") =
  Ok (Meta [L "note"]
        (Some (L "first" ++ [Py.nl] ++ L "second line" ++ [Py.nl]
                 ++ L "third"))).
Proof.
  refine (@continuation_lines_dedented spec_keywords (L "note") (L "first") 4
            [L "second line"; L "third"] eq_refl _ _ eq_refl eq_refl _ _ _ _).
  - solve_token.
  - discriminate.
  - discriminate.
  - repeat constructor; discriminate.
  - repeat constructor.
  - repeat constructor.
Defined.

(** ** Rendered descriptions read back *)

Section RenderedDescription.
Import Py Inspect Rest.

Lemma splitlines_aux_prefix cur a rest :
  Forall (fun c => is_linebreak c = false) a ->
  splitlines_aux cur (a ++ nl :: rest) =
  (rev cur ++ a) ::
  match rest with
  | [] => []
  | _ :: _ => splitlines_aux [] rest
  end.
Proof.
  intros H. revert cur. induction H as [|c a Hc Ha IH]; intros cur.
  - cbn [app splitlines_aux]. change (is_linebreak nl) with true. cbn match.
    rewrite app_nil_r. change (ch_eq nl cr) with false. cbn [andb].
    reflexivity.
  - cbn [app splitlines_aux]. rewrite Hc, IH. cbn [rev].
    now rewrite <- app_assoc.
Qed.

(** [splitlines] gives back the lines that line feeds join, when they hold
    no line boundary and none but the first may be empty. *)
Lemma splitlines_join first lines :
  first <> [] ->
  Forall (fun c => is_linebreak c = false) first ->
  Forall (fun l => l <> [] /\ strip l = l) lines ->
  Forall (Forall (fun c => is_linebreak c = false)) lines ->
  splitlines (join [nl] (first :: lines)) = first :: lines.
Proof.
  intros Hne Hf Hgood Hlb. unfold splitlines.
  revert first Hne Hf.
  induction Hlb as [|l ls Hl Hls IH]; intros first Hne Hf.
  - cbn [join]. rewrite splitlines_aux_line by exact Hf.
    destruct first; [contradiction | reflexivity].
  - inversion Hgood as [|? ? [Hlne _] Hgood']; subst.
    change (join [nl] (first :: l :: ls))
      with (first ++ nl :: join [nl] (l :: ls)).
    rewrite splitlines_aux_prefix by exact Hf. cbn [rev app].
    rewrite (IH Hgood' l Hlne Hl).
    destruct (join [nl] (l :: ls)) eqn:E; [|reflexivity].
    destruct l; [contradiction|]. destruct ls; discriminate.
Qed.

Lemma linebreak_free_no_nl s :
  Forall (fun c => is_linebreak c = false) s -> contains nl s = false.
Proof.
  intros H. apply contains_false_iff. intros Hin.
  rewrite Forall_forall in H. now apply H in Hin.
Qed.

(** The description read from a first line and continuation lines indented
    by [n] spaces. *)
Lemma block_desc_lines n first lines :
  first <> [] -> strip first = first -> contains nl first = false ->
  Forall (fun l => l <> [] /\ strip l = l) lines ->
  Forall (fun l => contains nl l = false) lines ->
  Forall (fun l => contains tab l = false) lines ->
  block_desc (join [nl] (first :: map (app (repeat space n)) lines)) =
  join [nl] (first :: lines).
Proof.
  intros Hf Hfs Hfn Hgood Hnl Htab. destruct lines as [|l ls].
  - cbn [map join]. now apply block_desc_one_line.
  - change (join [nl] (first :: map (app (repeat space n)) (l :: ls)))
      with (first ++ nl :: join [nl] (map (app (repeat space n)) (l :: ls))).
    rewrite <- block_desc_space.
    rewrite block_desc_padded by (assumption || discriminate).
    reflexivity.
Qed.

Lemma join_cons_head sep c first lines :
  join sep ((c :: first) :: lines) = c :: join sep (first :: lines).
Proof. destruct lines; reflexivity. Qed.

Lemma join_app_head sep p first lines :
  join sep ((p ++ first) :: lines) = p ++ join sep (first :: lines).
Proof.
  induction p as [|c p IH]; [reflexivity|].
  cbn [app]. now rewrite join_cons_head, IH.
Qed.

End RenderedDescription.

(** X19: a description of one or more lines, none blank, none with
    whitespace at an end or a line boundary inside, and no continuation line
    with a tab, is read back unchanged from the block that any of the three
    rendering styles writes for it with an indentation of [n] spaces. *)
Theorem rendered_description_read_back :
  forall (kw : Keywords) (style : RenderingStyle) (n : nat)
         (key first : str) (lines : list str),
    family_of kw key = FGeneric -> is_token key ->
    first <> [] -> Py.strip first = first ->
    Forall (fun c => Py.is_linebreak c = false) first ->
    Forall (fun l => l <> [] /\ Py.strip l = l) lines ->
    Forall (Forall (fun c => Py.is_linebreak c = false)) lines ->
    Forall (fun l => Py.contains Py.tab l = false) lines ->
    Rest.parse_chunk kw
      (L ":" ++ key ++ L ":"
         ++ Rest.process_desc style (repeat Py.space n)
              (Some (Py.join [Py.nl] (first :: lines)))) =
    Ok (Meta [key] (Some (Py.join [Py.nl] (first :: lines)))).
Proof.
  intros kw style n key first lines Hfam Hkey Hf Hfs Hflb Hgood Hlb Htab.
  assert (Hfn : Py.contains Py.nl first = false)
    by now apply linebreak_free_no_nl.
  assert (Hnl : Forall (fun l => Py.contains Py.nl l = false) lines).
  { revert Hlb. apply Forall_impl. apply linebreak_free_no_nl. }
  change (L ":" ++ key ++ L ":"
            ++ Rest.process_desc style (repeat Py.space n)
                 (Some (Py.join [Py.nl] (first :: lines))))
    with (Py.colon :: key ++ Py.colon
            :: Rest.process_desc style (repeat Py.space n)
                 (Some (Py.join [Py.nl] (first :: lines)))).
  rewrite parse_chunk_block;
    [| now destruct Hkey | apply token_contains; auto].
  assert (Hdesc :
            Rest.block_desc
              (Rest.process_desc style (repeat Py.space n)
                 (Some (Py.join [Py.nl] (first :: lines)))) =
            Py.join [Py.nl] (first :: lines)).
  { unfold Rest.process_desc.
    assert (Ht : Py.truthy_opt (Some (Py.join [Py.nl] (first :: lines))) =
                 true).
    { destruct first; [contradiction|]. now rewrite join_cons_head. }
    rewrite Ht. destruct style.
    - change ([Py.space] ++ Py.join [Py.nl] (first :: lines))
        with (Py.space :: Py.join [Py.nl] (first :: lines)).
      rewrite block_desc_space.
      rewrite <- (map_id lines) at 1.
      rewrite (map_ext (fun l : list ascii => l) (app (repeat Py.space 0)))
        by reflexivity.
      now apply block_desc_lines.
    - rewrite splitlines_join by assumption.
      rewrite join_app_head. cbn [app]. rewrite block_desc_space.
      now apply block_desc_lines.
    - rewrite splitlines_join by assumption.
      rewrite app_assoc, join_app_head.
      rewrite (@block_desc_strip _
                 (Py.join [Py.nl]
                    (first :: map (app (repeat Py.space n)) lines))).
      + now apply block_desc_lines.
      + apply strip_space_app. constructor; [reflexivity|].
        apply Forall_forall. intros c Hc. apply repeat_spec in Hc. now subst.
  }
  rewrite Hdesc. unfold Py.split_ws. destruct Hkey as [Hk Hall].
  rewrite (split_ws_run_word Hall).
  destruct key as [|k key]; [contradiction|]. cbn [Py.cons_word].
  now apply build_generic.
Qed.

Lemma rendered_description_read_back_witness :
  Rest.parse_chunk spec_keywords
    (L ":" ++ L "note" ++ L ":"
       ++ Rest.process_desc EXPANDED (repeat Py.space 4)
            (Some (Py.join [Py.nl] [L "first"; L "second line"; L "third"])))
  = Ok (Meta [L "note"]
          (Some (Py.join [Py.nl] [L "first"; L "second line"; L "third"]))).
Proof.
  refine (@rendered_description_read_back spec_keywords EXPANDED 4 (L "note")
            (L "first") [L "second line"; L "third"]
            eq_refl _ _ eq_refl _ _ _ _).
  - solve_token.
  - discriminate.
  - repeat constructor.
  - repeat constructor; discriminate.
  - repeat constructor.
  - repeat constructor.
Defined.

(** ** Lines *)

Section Lines.
Import Py Inspect.

Lemma join_split s : join [nl] (split nl s) = s.
Proof.
  induction s as [|c s IH]; [reflexivity|]. cbn [split].
  destruct (ch_eq c nl) eqn:E.
  - apply Ascii.eqb_eq in E. subst c.
    destruct (split_cons nl s) as (l & ls & El). rewrite El in *.
    change (join [nl] ([] :: l :: ls)) with (nl :: join [nl] (l :: ls)).
    now rewrite IH.
  - destruct (split_cons nl s) as (l & ls & El). rewrite El in *.
    rewrite join_cons_head. now rewrite IH.
Qed.

Lemma starts_black_cons l :
  starts_black l = true -> exists c r, l = c :: r /\ isspace c = false.
Proof.
  destruct l as [|c r]; [discriminate|]. cbn. intros H.
  exists c, r. split; [reflexivity|]. now apply negb_true_iff.
Qed.

Lemma ends_black_last l :
  ends_black l = true -> exists r e, l = r ++ [e] /\ isspace e = false.
Proof.
  unfold ends_black. intros H. apply starts_black_cons in H.
  destruct H as (e & r & E & He). exists (rev r), e. split; [|exact He].
  rewrite <- (rev_involutive l), E. reflexivity.
Qed.

Lemma starts_black_lstrip l : starts_black l = true -> lstrip l = l.
Proof.
  intros H. apply starts_black_cons in H. destruct H as (c & r & -> & Hc).
  now apply dropwhile_stop.
Qed.

Lemma starts_black_indent l : starts_black l = true -> indent_of l = Some 0.
Proof.
  intros H. unfold indent_of. rewrite (starts_black_lstrip _ H).
  apply starts_black_cons in H. destruct H as (c & r & -> & _).
  now rewrite Nat.sub_diag.
Qed.

Lemma is_indent_spec pad :
  is_indent pad = true ->
  whitespace_only pad /\ contains nl pad = false /\ contains tab pad = false.
Proof.
  unfold is_indent, whitespace_only. induction pad as [|c pad IH];
    cbn [forallb]; [repeat split; constructor|].
  intros H. apply andb_true_iff in H. destruct H as [Hc Hp].
  apply andb_true_iff in Hc. destruct Hc as [Hc Ht].
  apply andb_true_iff in Hc. destruct Hc as [Hs Hn].
  destruct (IH Hp) as (H1 & H2 & H3).
  apply negb_true_iff in Hn, Ht. unfold ch_eq in *.
  rewrite !contains_cons, H2, H3. unfold ch_eq.
  rewrite (Ascii.eqb_sym nl c), (Ascii.eqb_sym tab c), Hn, Ht.
  repeat split; [constructor; assumption]. 
Qed.

Lemma lstrip_pad pad l : whitespace_only pad -> lstrip (pad ++ l) = lstrip l.
Proof. intros H. unfold lstrip. now apply dropwhile_all. Qed.

Lemma skipn_pad (pad l : str) : skipn (length pad) (pad ++ l) = l.
Proof.
  rewrite skipn_app, Nat.sub_diag, skipn_all. reflexivity.
Qed.

Lemma indent_of_pad pad l :
  whitespace_only pad ->
  indent_of (pad ++ l) =
  match indent_of l with
  | Some i => Some (length pad + i)
  | None => None
  end.
Proof.
  intros H. unfold indent_of. rewrite (lstrip_pad _ H).
  pose proof (dropwhile_length isspace l) as Hlen. fold (lstrip l) in Hlen.
  destruct (lstrip l) as [|c r]; [reflexivity|].
  rewrite length_app. f_equal. lia.
Qed.

Lemma margin_of_pad pad ls :
  whitespace_only pad ->
  margin_of (map (app pad) ls) =
  match margin_of ls with
  | Some m => Some (length pad + m)
  | None => None
  end.
Proof.
  intros H. induction ls as [|l ls IH]; [reflexivity|].
  cbn [map margin_of]. rewrite IH, (indent_of_pad _ H).
  destruct (indent_of l) as [i|], (margin_of ls) as [m|]; try reflexivity.
  now rewrite Nat.add_min_distr_l.
Qed.

Lemma margin_of_black ls :
  existsb starts_black ls = true -> margin_of ls = Some 0.
Proof.
  induction ls as [|l ls IH]; [discriminate|]. cbn [existsb margin_of].
  intros H. apply orb_true_iff in H. destruct H as [H|H].
  - rewrite (starts_black_indent _ H).
    destruct (margin_of ls); [now rewrite Nat.min_0_r | reflexivity].
  - rewrite (IH H). destruct (indent_of l); [reflexivity | reflexivity].
Qed.

Lemma margin_of_empty_lines ls k :
  margin_of (ls ++ repeat [] k) = margin_of ls.
Proof.
  induction ls as [|l ls IH]; cbn [app margin_of].
  - induction k as [|k IHk]; [reflexivity | exact IHk].
  - now rewrite IH.
Qed.

Lemma pop_leading_repeat k ls :
  pop_leading (repeat [] k ++ ls) = pop_leading ls.
Proof. induction k as [|k IH]; [reflexivity | exact IH]. Qed.

Lemma rev_repeat (A : Type) (x : A) k : rev (repeat x k) = repeat x k.
Proof.
  induction k as [|k IH]; [reflexivity|]. cbn [repeat rev]. rewrite IH.
  clear IH. induction k as [|k IH]; [reflexivity|]. cbn [repeat app].
  now rewrite IH.
Qed.

Lemma pop_trailing_repeat ls k :
  pop_trailing (ls ++ repeat [] k) = pop_trailing ls.
Proof.
  unfold pop_trailing. now rewrite rev_app_distr, rev_repeat, pop_leading_repeat.
Qed.

(** The lines [cleandoc] returns for a text whose first line begins, after
    some whitespace, with a character that is not whitespace, and whose other
    lines are all indented by [pad] over lines of which one is not indented;
    the text may end with empty lines. *)
Lemma cleandoc_lines p0 pad l0 ls k :
  whitespace_only p0 -> contains nl p0 = false -> contains tab p0 = false ->
  is_indent pad = true ->
  starts_black l0 = true ->
  Forall (fun l => contains nl l = false /\ contains tab l = false)
    (l0 :: ls) ->
  (ls <> [] -> existsb starts_black ls = true /\ last ls [] <> []) ->
  cleandoc (join [nl] ((p0 ++ l0) :: map (app pad) ls ++ repeat [] k)) =
  join [nl] (l0 :: ls).
Proof.
  intros Hp0 Hp0n Hp0t Hpad Hl0 Hall Hls.
  destruct (is_indent_spec _ Hpad) as (Hw & Hpn & Hpt).
  inversion Hall as [|? ? [Hl0n Hl0t] Hall']; subst.
  unfold cleandoc, expandtabs.
  assert (Hlines_nl : Forall (fun l => contains nl l = false)
                        ((p0 ++ l0) :: map (app pad) ls ++ repeat [] k)).
  { constructor; [now rewrite contains_app, Hp0n, Hl0n|].
    apply Forall_app. split.
    - apply Forall_map. revert Hall'. apply Forall_impl. intros l [Hn _].
      now rewrite contains_app, Hpn, Hn.
    - apply Forall_forall. intros x Hx. apply repeat_spec in Hx. now subst. }
  rewrite expandtabs_no_tab.
  2:{ apply contains_join; [discriminate|]. 
      constructor; [now rewrite contains_app, Hp0t, Hl0t|].
      apply Forall_app. split.
      - apply Forall_map. revert Hall'. apply Forall_impl. intros l [_ Ht].
        now rewrite contains_app, Hpt, Ht.
      - apply Forall_forall. intros x Hx. apply repeat_spec in Hx. now subst. }
  rewrite split_join by (discriminate || exact Hlines_nl).
  rewrite margin_of_empty_lines, (margin_of_pad _ Hw).
  rewrite (lstrip_pad _ Hp0), (starts_black_lstrip _ Hl0).
  assert (Hothers :
            match
              match margin_of ls with
              | Some m => Some (length pad + m)
              | None => None
              end
            with
            | Some m => map (skipn m) (map (app pad) ls ++ repeat [] k)
            | None => map (app pad) ls ++ repeat [] k
            end = ls ++ repeat [] k).
  { destruct ls as [|l1 ls'].
    - reflexivity.
    - destruct Hls as [Hex _]; [discriminate|].
      rewrite (margin_of_black _ Hex), Nat.add_0_r, map_app, map_map.
      f_equal.
      + rewrite <- (map_id (l1 :: ls')) at 2. apply map_ext.
        intros a. apply skipn_pad.
      + clear. induction k as [|k IH]; [reflexivity|]. cbn [repeat map].
        rewrite IH. now rewrite skipn_nil. }
  rewrite Hothers. clear Hothers.
  change (l0 :: ls ++ repeat [] k) with ((l0 :: ls) ++ repeat [] k).
  rewrite pop_trailing_repeat.
  assert (Hkeep : pop_trailing (l0 :: ls) = l0 :: ls).
  { destruct (@exists_last _ (l0 :: ls)) as (init & l & E); [discriminate|].
    rewrite E. apply pop_trailing_keeps.
    destruct ls as [|l1 ls'].
    - destruct init; [|destruct init; discriminate]. injection E as <-.
      apply starts_black_cons in Hl0. now destruct Hl0 as (c & r & -> & _).
    - destruct Hls as [_ Hlast]; [discriminate|].
      change (l0 :: l1 :: ls') with ([l0] ++ (l1 :: ls')) in E.
      assert (El : last (l1 :: ls') [] = l).
      { assert (H : last ([l0] ++ l1 :: ls') [] = last (init ++ [l]) [])
          by now rewrite E.
        rewrite last_last in H. rewrite <- H. reflexivity. }
      now rewrite <- El. }
  rewrite Hkeep. apply starts_black_cons in Hl0.
  now destruct Hl0 as (c & r & -> & _).
Qed.

End Lines.

(** ** Descriptions in normal form *)

Section NormalForm.
Import Py Inspect Rest.

Lemma starts_black_app a b :
  starts_black a = true -> starts_black (a ++ b) = true.
Proof. destruct a; [discriminate | exact (fun H => H)]. Qed.

Lemma strip_black s :
  starts_black s = true -> ends_black s = true -> strip s = s.
Proof.
  intros Hs He. unfold strip, rstrip.
  apply starts_black_cons in He. destruct He as (e & r & E & He).
  rewrite E, dropwhile_stop by exact He. rewrite <- E, rev_involutive.
  now apply starts_black_lstrip.
Qed.

Lemma starts_black_join first lines :
  starts_black first = true ->
  starts_black (join [nl] (first :: lines)) = true.
Proof.
  intros H. destruct first as [|c first]; [discriminate|].
  now rewrite join_cons_head.
Qed.

Lemma ends_black_app a b :
  ends_black b = true -> ends_black (a ++ b) = true.
Proof.
  unfold ends_black. intros H. rewrite rev_app_distr.
  now apply starts_black_app.
Qed.

Lemma ends_black_join first lines :
  ends_black (last lines first) = true ->
  ends_black (join [nl] (first :: lines)) = true.
Proof.
  intros H.
  destruct (@exists_last _ (first :: lines)) as (init & l & E);
    [discriminate|].
  assert (El : last lines first = l).
  { assert (H' : last (first :: lines) first = last (init ++ [l]) first)
      by now rewrite E.
    rewrite last_last in H'. rewrite <- H'. now destruct lines. }
  rewrite E. destruct (join_ends_with_last init l) as [x ->].
  apply ends_black_app. now rewrite <- El.
Qed.

Lemma last_default (A : Type) (l : list A) a b :
  l <> [] -> last l a = last l b.
Proof.
  induction l as [|x l IH]; [contradiction|]. intros _.
  destruct l as [|y l]; [reflexivity|].
  change (last (x :: y :: l) a) with (last (y :: l) a).
  change (last (x :: y :: l) b) with (last (y :: l) b).
  apply IH. discriminate.
Qed.

Lemma last_map_pad (pad : str) lines first :
  lines <> [] ->
  last (map (app pad) lines) first = pad ++ last lines first.
Proof.
  intros H. destruct (@exists_last _ lines H) as (init & l & ->).
  rewrite map_app. cbn [map]. now rewrite !last_last.
Qed.

(** The description the parser reads from a first line and lines indented
    by [pad]. *)
Lemma block_desc_normal pad first rest :
  is_indent pad = true ->
  starts_black first = true ->
  Forall (fun l => contains nl l = false /\ contains tab l = false)
    (first :: rest) ->
  ends_black (last rest first) = true ->
  (forall second others,
      rest = second :: others ->
      starts_black second = true
      /\ (others <> [] -> existsb starts_black others = true)) ->
  block_desc (join [nl] (first :: map (app pad) rest)) =
  join [nl] (first :: rest).
Proof.
  intros Hpad Hf Hall Hend Hrest.
  destruct (is_indent_spec _ Hpad) as (Hw & Hpn & Hpt).
  inversion Hall as [|? ? [Hfn Hft] Hall']; subst.
  assert (Hstrip : strip (join [nl] (first :: map (app pad) rest)) =
                   join [nl] (first :: map (app pad) rest)).
  { apply strip_black; [now apply starts_black_join|].
    apply ends_black_join. destruct rest as [|second others]; [exact Hend|].
    rewrite last_map_pad by discriminate. now apply ends_black_app. }
  destruct rest as [|second others].
  - cbn [map join] in *. now apply block_desc_one_line.
  - destruct (Hrest _ _ eq_refl) as [Hsec Hoth].
    unfold block_desc. rewrite Hstrip.
    change (join [nl] (first :: map (app pad) (second :: others)))
      with (first ++ nl :: join [nl] (map (app pad) (second :: others))).
    rewrite contains_app, contains_cons. change (ch_eq nl nl) with true.
    rewrite orb_true_r, split1_app by exact Hfn.
    cbn [map].
    rewrite <- (app_nil_r (map (app pad) others)).
    change (@nil (list ascii)) with (@repeat (list ascii) [] 0).
    rewrite cleandoc_lines; try assumption; [reflexivity|].
    intros Hne. split; [now apply Hoth|].
    assert (El : last (second :: others) first = last others []).
    { destruct others as [|o os]; [contradiction|].
      change (last (second :: o :: os) first) with (last (o :: os) first).
      apply last_default. discriminate. }
    rewrite El in Hend. intros E. rewrite E in Hend. discriminate.
Qed.

Lemma splitlines_lines first rest :
  Forall (Forall (fun c => is_linebreak c = false)) (first :: rest) ->
  last rest first <> [] ->
  splitlines (join [nl] (first :: rest)) = first :: rest.
Proof.
  unfold splitlines. revert first.
  induction rest as [|l ls IH]; intros first Hall Hlast.
  - inversion Hall as [|? ? Hf _]; subst. cbn [join last] in *.
    rewrite splitlines_aux_line by exact Hf.
    destruct first; [contradiction | reflexivity].
  - inversion Hall as [|? ? Hf Hall']; subst.
    change (join [nl] (first :: l :: ls))
      with (first ++ nl :: join [nl] (l :: ls)).
    rewrite splitlines_aux_prefix by exact Hf. cbn [rev app].
    assert (Hlast' : last ls l <> []).
    { destruct ls as [|x ls']; [exact Hlast|].
      change (last (l :: x :: ls') first) with (last (x :: ls') first)
        in Hlast.
      now rewrite (@last_default _ (x :: ls') l first) by discriminate. }
    rewrite (IH l Hall' Hlast').
    destruct (join [nl] (l :: ls)) eqn:E; [|reflexivity].
    destruct l; [|destruct ls; discriminate].
    destruct ls as [|l' ls']; [now contradiction Hlast'|].
    destruct ls'; discriminate.
Qed.

End NormalForm.

(** ** Rendered descriptions *)

Section Rendered.
Import Py Inspect Rest.

Lemma plain_no_tab style l :
  forallb (plain_char style) l = true -> contains tab l = false.
Proof.
  intros H. apply contains_false_iff. intros Hin.
  rewrite forallb_forall in H. specialize (H _ Hin). unfold plain_char in H.
  apply andb_true_iff in H. destruct H as [H _]. discriminate.
Qed.

Lemma plain_no_linebreak style l :
  style <> COMPACT ->
  forallb (plain_char style) l = true ->
  Forall (fun c => is_linebreak c = false) l.
Proof.
  intros Hs H. apply Forall_forall. intros c Hin.
  rewrite forallb_forall in H. specialize (H _ Hin). unfold plain_char in H.
  apply andb_true_iff in H. destruct H as [_ H].
  destruct style; [contradiction | |]; now apply negb_true_iff.
Qed.

(** What [description_normal] says of the lines of a description that is not
    empty. *)
Lemma description_normal_lines style desc :
  description_normal style desc = true -> desc <> [] ->
  exists first rest,
    desc = join [nl] (first :: rest)
    /\ starts_black first = true
    /\ Forall (fun l => forallb (plain_char style) l = true) (first :: rest)
    /\ Forall (fun l => contains nl l = false) (first :: rest)
    /\ ends_black (last rest first) = true
    /\ (forall second others,
           rest = second :: others ->
           starts_black second = true
           /\ (others <> [] -> existsb starts_black others = true))
    /\ Forall (fun l => startswith l [colon] = false)
         (own_lines style first rest).
Proof.
  unfold description_normal. intros H Hne.
  pose proof (join_split desc) as Hj.
  pose proof (split_no_sep nl desc) as Hn.
  destruct (split nl desc) as [|first rest];
    [exfalso; apply Hne; now rewrite <- Hj|].
  assert (H' :
            starts_black first
            && forallb (forallb (plain_char style)) (first :: rest)
            && ends_black (last rest first)
            && match rest with
               | [] => true
               | second :: others =>
                   starts_black second
                   && match others with
                      | [] => true
                      | _ :: _ => existsb starts_black others
                      end
               end
            && forallb (fun l => negb (startswith l [colon]))
                 (own_lines style first rest) = true).
  { destruct first as [|c f]; [|exact H].
    destruct rest; [exfalso; apply Hne; now rewrite <- Hj | exact H]. }
  clear H. apply andb_true_iff in H'. destruct H' as [H' Hcol].
  apply andb_true_iff in H'. destruct H' as [H' Hrest].
  apply andb_true_iff in H'. destruct H' as [H' Hend].
  apply andb_true_iff in H'. destruct H' as [Hf Hplain].
  exists first, rest.
  split; [now rewrite Hj|]. split; [exact Hf|].
  split; [apply Forall_forall; rewrite forallb_forall in Hplain;
          exact Hplain|].
  split; [exact Hn|]. split; [exact Hend|]. split.
  - intros second others ->. apply andb_true_iff in Hrest.
    destruct Hrest as [Hsec Hoth]. split; [exact Hsec|].
    intros Ho. destruct others; [contradiction | exact Hoth].
  - apply Forall_forall. rewrite forallb_forall in Hcol. intros l Hl.
    specialize (Hcol _ Hl). now apply negb_true_iff.
Qed.

(** The description the parser reads from the text a style writes for a
    description in normal form is the description. *)
Lemma read_back_description style pad desc :
  is_indent pad = true ->
  description_normal style desc = true ->
  block_desc (process_desc style pad (Some desc)) = desc.
Proof.
  intros Hpad Hnorm. destruct desc as [|c0 desc0]; [now destruct style|].
  destruct (@description_normal_lines style _ Hnorm ltac:(discriminate)) as
    (first & rest & E & Hf & Hplain & Hnl & Hend & Hrest & _).
  unfold process_desc. cbn [truthy_opt truthy]. rewrite E.
  assert (Hall : Forall (fun l => contains nl l = false
                                  /\ contains tab l = false) (first :: rest)).
  { apply Forall_forall. intros l Hl. rewrite Forall_forall in Hplain, Hnl.
    split; [now apply Hnl | eapply plain_no_tab; now apply Hplain]. }
  assert (Hlast : last rest first <> []).
  { intros El. rewrite El in Hend. discriminate. }
  destruct (is_indent_spec _ Hpad) as (Hw & _ & _).
  destruct style.
  - change ([space] ++ join [nl] (first :: rest))
      with (space :: join [nl] (first :: rest)).
    rewrite block_desc_space.
    rewrite <- (map_id rest) at 1.
    rewrite (map_ext (fun l : list ascii => l) (app [])) by reflexivity.
    now apply block_desc_normal.
  - rewrite splitlines_lines; [|apply Forall_forall; intros l Hl;
                                 rewrite Forall_forall in Hplain;
                                 eapply plain_no_linebreak;
                                 [|now apply Hplain]; discriminate
                               |exact Hlast].
    rewrite join_app_head. cbn [app]. rewrite block_desc_space.
    now apply block_desc_normal.
  - rewrite splitlines_lines; [|apply Forall_forall; intros l Hl;
                                 rewrite Forall_forall in Hplain;
                                 eapply plain_no_linebreak;
                                 [|now apply Hplain]; discriminate
                               |exact Hlast].
    rewrite app_assoc, join_app_head.
    rewrite (@block_desc_strip _
               (join [nl] (first :: map (app pad) rest))).
    + now apply block_desc_normal.
    + apply strip_space_app. constructor; [reflexivity | exact Hw].
Qed.

Lemma read_back_record style pad m :
  is_indent pad = true ->
  description_normal style (desc_text m) = true ->
  block_desc (process_desc style pad (description m)) = desc_text m.
Proof.
  intros Hpad H. unfold desc_text in *.
  destruct (description m) as [desc|]; [now apply read_back_description|].
  reflexivity.
Qed.

(** No line of a text begins with a colon: no colon of it starts a line. *)
Lemma no_tag_line_lines (bol : bool) (s : list ascii) :
  forallb (fun l => negb (startswith l [colon]))
    (if bol then split nl s else tl (split nl s)) = true ->
  no_tag_line bol s.
Proof.
  unfold no_tag_line. revert bol.
  induction s as [|c s IH]; intros bol H; [reflexivity|].
  cbn [Re.tag_blocks]. cbn [split] in H.
  destruct (split_cons nl s) as (l & ls & E). rewrite E in H.
  destruct (ch_eq c nl) eqn:Ec.
  - specialize (IH true). rewrite E in IH.
    assert (Hs : forallb (fun l => negb (startswith l [colon])) (l :: ls)
                 = true) by (destruct bol; exact H).
    specialize (IH Hs). destruct (Re.tag_blocks true s) as [pre bs].
    cbn [snd] in IH. subst bs.
    assert (Hcol : ch_eq c colon = false).
    { apply Ascii.eqb_eq in Ec. now subst c. }
    now rewrite Hcol, andb_false_r.
  - specialize (IH false). rewrite E in IH. cbn [tl] in IH.
    assert (Hs : forallb (fun l => negb (startswith l [colon])) ls = true).
    { destruct bol; [|exact H]. cbn [forallb] in H.
      apply andb_true_iff in H. now destruct H. }
    specialize (IH Hs). destruct (Re.tag_blocks false s) as [pre bs].
    cbn [snd] in IH. subst bs.
    destruct bol; [|reflexivity]. cbn [forallb startswith] in H.
    apply andb_true_iff in H. destruct H as [H _].
    rewrite andb_true_r in H. apply negb_true_iff in H.
    unfold ch_eq in *. rewrite Ascii.eqb_sym in H. now rewrite H.
Qed.

Lemma colon_line_free_no_tag s :
  colon_line_free s = true -> no_tag_line true s.
Proof. apply (no_tag_line_lines true). Qed.

End Rendered.

(** ** Tag lines *)

Section TagLines.
Import Py Rest.

Lemma split_ws_run_blank s : whitespace_only s -> split_ws_run s = ([], []).
Proof.
  induction 1 as [|c s Hc Hs IH]; [reflexivity|].
  cbn [split_ws_run]. now rewrite IH, Hc.
Qed.

(** Tokens joined by single spaces, with spaces after them, split into the
    tokens. *)
Lemma split_ws_run_join t toks k :
  Forall is_token (t :: toks) ->
  split_ws_run (join [space] (t :: toks) ++ repeat space k) = (t, toks).
Proof.
  revert t. induction toks as [|t' toks IH]; intros t H.
  - inversion H as [|? ? [Ht Hall] _]; subst. cbn [join].
    rewrite split_ws_run_token by exact Hall.
    rewrite split_ws_run_blank, app_nil_r; [reflexivity|].
    apply Forall_forall. intros x Hx. apply repeat_spec in Hx. now subst.
  - inversion H as [|? ? [Ht Hall] H']; subst.
    change (join [space] (t :: t' :: toks))
      with (t ++ space :: join [space] (t' :: toks)).
    rewrite <- app_assoc. cbn [app].
    rewrite split_ws_run_token by exact Hall.
    rewrite split_ws_run_space by reflexivity. rewrite (IH _ H').
    cbn [fst snd]. rewrite app_nil_r.
    inversion H' as [|? ? [Ht' _] _]; subst.
    destruct t'; [contradiction | reflexivity].
Qed.

Lemma split_ws_join toks k :
  Forall is_token toks ->
  split_ws (join [space] toks ++ repeat space k) = toks.
Proof.
  intros H. unfold split_ws. destruct toks as [|t toks].
  - cbn [join app]. rewrite split_ws_run_blank; [reflexivity|].
    apply Forall_forall. intros x Hx. apply repeat_spec in Hx. now subst.
  - rewrite split_ws_run_join by exact H.
    inversion H as [|? ? [Ht _] _]; subst.
    destruct t; [contradiction | reflexivity].
Qed.

Lemma contains_join_space c toks :
  c <> space -> Forall (fun t => contains c t = false) toks ->
  contains c (join [space] toks) = false.
Proof.
  intros Hc. induction 1 as [|t toks Ht Hts IH]; [reflexivity|].
  destruct toks as [|t' toks]; [exact Ht|].
  change (join [space] (t :: t' :: toks))
    with (t ++ space :: join [space] (t' :: toks)).
  rewrite contains_app, contains_cons, Ht, IH. unfold ch_eq.
  destruct (Ascii.eqb_spec c space); [contradiction | reflexivity].
Qed.

Lemma contains_repeat c d k : c <> d -> contains c (repeat d k) = false.
Proof.
  intros H. apply contains_false_iff. intros Hin. apply repeat_spec in Hin.
  congruence.
Qed.

(** The text of well-formed tokens is a plain tag line. *)
Lemma tokens_line_plain toks k :
  toks <> [] -> Forall is_token toks ->
  tag_line_plain (join [space] toks ++ repeat space k).
Proof.
  intros Hne H. unfold tag_line_plain.
  assert (Hc : forall c, isspace c = true \/ c = colon ->
                 Forall (fun t => contains c t = false) toks).
  { intros c Hc. revert H. apply Forall_impl. intros t Ht.
    now apply token_contains. }
  split.
  - destruct toks as [|t toks]; [contradiction|].
    inversion H as [|? ? [Ht _] _]; subst.
    destruct t as [|x t]; [contradiction|].
    rewrite join_cons_head. discriminate.
  - repeat split; rewrite contains_app, contains_join_space,
      contains_repeat; try reflexivity; try discriminate; apply Hc; auto.
Qed.

Lemma is_token_qmark t : is_token t -> is_token (t ++ L "?").
Proof.
  intros [Hne Hall]. split; [now destruct t|].
  apply Forall_app. split; [exact Hall|]. repeat constructor; discriminate.
Qed.

Lemma is_token_param : is_token (L "param").
Proof. split; [discriminate | repeat constructor; discriminate]. Qed.

Lemma is_token_returns : is_token (L "returns").
Proof. split; [discriminate | repeat constructor; discriminate]. Qed.

Lemma is_token_yields : is_token (L "yields").
Proof. split; [discriminate | repeat constructor; discriminate]. Qed.

Lemma is_token_raises : is_token (L "raises").
Proof. split; [discriminate | repeat constructor; discriminate]. Qed.

Ltac solve_tokens :=
  repeat (apply Forall_cons;
          [first [ assumption | apply is_token_param | apply is_token_returns
                 | apply is_token_yields | apply is_token_raises
                 | now apply is_token_qmark ]|]);
  apply Forall_nil.

(** The tag line [compose] writes for a record whose raw tokens agree with
    its fields is made of these tokens. *)
Lemma tag_text_tokens m :
  record_tokens_wf m ->
  args m <> [] /\ Forall is_token (args m)
  /\ exists k, tag_text m = join [space] (args m) ++ repeat space k.
Proof.
  destruct m as [a d|a d arg_name type_name is_optional dflt
                 |a d type_name is_generator|a d type_name|a d v];
    cbn [record_tokens_wf args tag_text].
  - intros [Hne H]. repeat split; try assumption. exists 0.
    now rewrite app_nil_r.
  - intros [Hname H]. destruct type_name as [t|].
    + destruct H as [Ht ->]. split; [discriminate|].
      pose proof Ht as [Htne _]. destruct t as [|c t]; [contradiction|].
      split.
      * destruct is_optional as [[|]|]; solve_tokens.
      * exists 0. rewrite app_nil_r.
        destruct is_optional as [[|]|]; cbn [join app];
          repeat (rewrite <- app_assoc; cbn [app]); reflexivity.
    + subst a. split; [discriminate|]. split.
      * solve_tokens.
      * exists 0. now rewrite app_nil_r.
  - destruct type_name as [t|].
    + intros [Ht ->]. split; [discriminate|].
      pose proof Ht as [Htne _]. destruct t as [|c t]; [contradiction|].
      split.
      * destruct is_generator; solve_tokens.
      * exists 1. destruct is_generator; cbn [join app repeat];
          repeat (rewrite <- app_assoc; cbn [app]); reflexivity.
    + intros ->. split; [discriminate|]. split.
      * destruct is_generator; solve_tokens.
      * exists 0. destruct is_generator; reflexivity.
  - destruct type_name as [t|].
    + intros [Ht ->]. split; [discriminate|].
      pose proof Ht as [Htne _]. destruct t as [|c t]; [contradiction|].
      split.
      * solve_tokens.
      * exists 1. cbn [join app repeat].
        repeat (rewrite <- app_assoc; cbn [app]); reflexivity.
    + intros ->. split; [discriminate|]. split.
      * solve_tokens.
      * now exists 0.
  - intros [Hne H]. repeat split; try assumption. exists 0.
    now rewrite app_nil_r.
Qed.

(** Hence the parser reads the raw tokens of the record back from it. *)
Lemma tag_text_read_back m :
  record_tokens_wf m ->
  tag_line_plain (tag_text m) /\ split_ws (tag_text m) = args m.
Proof.
  intros H. destruct (tag_text_tokens _ H) as (Hne & Hall & k & ->).
  split; [now apply tokens_line_plain | now apply split_ws_join].
Qed.

End TagLines.

(** ** The lines of a rendered record *)

Section RenderedRecord.
Import Py Inspect Rest.
Variable style : RenderingStyle.

Lemma style_pad_indent pad :
  is_indent pad = true -> is_indent (style_pad style pad) = true.
Proof. unfold style_pad. now destruct style. Qed.

Lemma map_app_nil (ls : list str) : map (app []) ls = ls.
Proof.
  rewrite <- (map_id ls) at 2. now apply map_ext.
Qed.

(** A rendered record, line by line: the line of the tag, and the lines the
    style writes on lines of their own, each after the indentation. *)
Lemma compose_meta_lines m :
  tag_line_plain (tag_text m) ->
  description_normal style (desc_text m) = true ->
  exists l0 ls,
    (forall pad,
        compose_meta style pad m =
        join [nl] ((colon :: l0) :: map (app (style_pad style pad)) ls))
    /\ contains nl l0 = false /\ contains tab l0 = false
    /\ Forall (fun l => contains nl l = false /\ contains tab l = false) ls
    /\ (ls <> [] -> existsb starts_black ls = true)
    /\ ends_black (last ls (colon :: l0)) = true
    /\ Forall (fun l => startswith l [colon] = false) ls.
Proof.
  intros (Htne & Htc & Htn & Htt) Hnorm.
  assert (Hempty : forall pad, desc_text m = [] ->
            compose_meta style pad m = colon :: tag_text m ++ [colon]).
  { intros pad Hd. rewrite compose_meta_body. unfold process_desc, desc_text in *.
    destruct (description m) as [[|c s]|]; try discriminate; reflexivity. }
  destruct (desc_text m) as [|c0 desc0] eqn:Edesc.
  { exists (tag_text m ++ [colon]), []. split; [|split; [|split; [|split]]].
    - intros pad. now rewrite Hempty.
    - now rewrite contains_app, Htn.
    - now rewrite contains_app, Htt.
    - constructor.
    - split; [intros H; now contradiction H|]. split; [|constructor].
      cbn [last]. change (colon :: tag_text m ++ [colon])
        with ((colon :: tag_text m) ++ [colon]).
      now apply ends_black_app. }
  destruct (@description_normal_lines style _ Hnorm ltac:(discriminate)) as
    (first & rest & E & Hf & Hplain & Hnl & Hend & Hrest & Hcol).
  assert (Hd : description m = Some (join [nl] (first :: rest))).
  { unfold desc_text in Edesc. destruct (description m); [|discriminate].
    now rewrite Edesc, E. }
  assert (Hall : Forall (fun l => contains nl l = false
                                  /\ contains tab l = false) (first :: rest)).
  { apply Forall_forall. intros l Hl. rewrite Forall_forall in Hplain, Hnl.
    split; [now apply Hnl | eapply plain_no_tab; now apply Hplain]. }
  inversion Hall as [|? ? [Hfn Hft] Hall']; subst.
  assert (Hlast : last rest first <> []).
  { intros El. rewrite El in Hend. discriminate. }
  assert (Htruthy : truthy_opt (Some (join [nl] (first :: rest))) = true).
  { rewrite <- E. reflexivity. }
  assert (Hsplit : style <> COMPACT ->
                   splitlines (join [nl] (first :: rest)) = first :: rest).
  { intros Hs. apply splitlines_lines; [|exact Hlast].
    apply Forall_forall. intros l Hl. rewrite Forall_forall in Hplain.
    eapply plain_no_linebreak; [exact Hs | now apply Hplain]. }
  assert (Hhead : ends_black
                    (last rest (colon :: tag_text m ++ colon :: space :: first))
                  = true).
  { destruct rest as [|second others].
    - cbn [last] in *.
      change (colon :: tag_text m ++ colon :: space :: first)
        with ((colon :: tag_text m ++ [colon; space]) ++ first)
        || replace (colon :: tag_text m ++ colon :: space :: first)
             with ((colon :: tag_text m ++ [colon; space]) ++ first)
             by (cbn [app]; now rewrite <- app_assoc).
      now apply ends_black_app.
    - rewrite (@last_default _ (second :: others) _ first) by discriminate.
      exact Hend. }
  assert (Hexists : rest <> [] -> existsb starts_black rest = true).
  { intros Hne. destruct rest as [|second others]; [contradiction|].
    destruct (Hrest _ _ eq_refl) as [Hs _]. cbn [existsb]. now rewrite Hs. }
  destruct style eqn:Es.
  - exists (tag_text m ++ colon :: space :: first), rest.
    split; [|repeat split; assumption || (now rewrite contains_app, ?Htn, ?Htt,
                                           !contains_cons, ?Hfn, ?Hft)].
    intros pad. rewrite compose_meta_body, Hd. unfold process_desc.
    rewrite Htruthy. cbn [style_pad]. rewrite map_app_nil.
    change (colon :: (tag_text m ++ colon :: space :: first))
      with ((colon :: tag_text m ++ [colon; space]) ++ first)
      || replace (colon :: (tag_text m ++ colon :: space :: first))
           with ((colon :: tag_text m ++ [colon; space]) ++ first)
           by (cbn [app]; now rewrite <- app_assoc).
    rewrite join_app_head. cbn [app]. now rewrite <- app_assoc.
  - exists (tag_text m ++ colon :: space :: first), rest.
    split; [|repeat split; assumption || (now rewrite contains_app, ?Htn, ?Htt,
                                           !contains_cons, ?Hfn, ?Hft)].
    intros pad. rewrite compose_meta_body, Hd. unfold process_desc.
    rewrite Htruthy, Hsplit by discriminate. cbn [style_pad].
    replace (colon :: (tag_text m ++ colon :: space :: first))
      with ((colon :: tag_text m ++ [colon; space]) ++ first)
      by (cbn [app]; now rewrite <- app_assoc).
    rewrite !join_app_head. cbn [app]. rewrite <- app_assoc. reflexivity.
  - exists (tag_text m ++ [colon]), (first :: rest).
    split; [|split; [|split; [|split; [|split; [|split]]]]].
    + intros pad. rewrite compose_meta_body, Hd. unfold process_desc.
      rewrite Htruthy, Hsplit by discriminate. cbn [style_pad].
      rewrite app_assoc, join_app_head. cbn [map app].
      change (join [nl] ((colon :: tag_text m ++ [colon])
                           :: (pad ++ first) :: map (app pad) rest))
        with ((colon :: tag_text m ++ [colon]) ++ [nl]
                ++ join [nl] ((pad ++ first) :: map (app pad) rest)).
      rewrite join_app_head. cbn [app]. now rewrite <- app_assoc.
    + now rewrite contains_app, Htn.
    + now rewrite contains_app, Htt.
    + exact Hall.
    + intros _. cbn [existsb]. now rewrite Hf.
    + change (last (first :: rest) (colon :: tag_text m ++ [colon]))
        with (last (first :: rest) (colon :: tag_text m ++ [colon])).
      rewrite (@last_default _ (first :: rest) _ first) by discriminate.
      destruct rest; exact Hend.
    + exact Hcol.
Qed.

Lemma startswith_pad pad l :
  whitespace_only pad -> startswith l [colon] = false ->
  startswith (pad ++ l) [colon] = false.
Proof.
  intros Hw Hl. destruct pad as [|c pad]; [exact Hl|].
  inversion Hw as [|? ? Hc _]; subst. cbn [app startswith].
  unfold ch_eq. destruct (Ascii.eqb_spec colon c) as [<-|_];
    [discriminate | reflexivity].
Qed.

(** No line of a rendered record but the first begins with a colon. *)
Lemma compose_meta_no_tag pad m :
  is_indent pad = true ->
  tag_line_plain (tag_text m) ->
  description_normal style (desc_text m) = true ->
  no_tag_line false (tl (compose_meta style pad m)).
Proof.
  intros Hpad Htag Hnorm.
  destruct (compose_meta_lines _ Htag Hnorm)
    as (l0 & ls & E & Hn0 & _ & Hall & _ & _ & Hcol).
  destruct (is_indent_spec _ (style_pad_indent _ Hpad)) as (Hw & Hpn & _).
  rewrite E, join_cons_head. cbn [tl].
  apply no_tag_line_lines. rewrite split_join.
  - cbn [tl]. apply forallb_forall. intros x Hx. apply in_map_iff in Hx.
    destruct Hx as (l & <- & Hl). apply negb_true_iff.
    apply startswith_pad; [exact Hw|]. rewrite Forall_forall in Hcol.
    now apply Hcol.
  - discriminate.
  - constructor; [exact Hn0|]. apply Forall_map. revert Hall.
    apply Forall_impl. intros l [Hl _]. now rewrite contains_app, Hpn, Hl.
Qed.

(** A rendered record holds no tab and ends with a character that is not
    whitespace. *)
Lemma compose_meta_plain pad m :
  is_indent pad = true ->
  tag_line_plain (tag_text m) ->
  description_normal style (desc_text m) = true ->
  contains tab (compose_meta style pad m) = false
  /\ ends_black (compose_meta style pad m) = true.
Proof.
  intros Hpad Htag Hnorm.
  destruct (compose_meta_lines _ Htag Hnorm)
    as (l0 & ls & E & _ & Ht0 & Hall & _ & Hend & _).
  destruct (is_indent_spec _ (style_pad_indent _ Hpad)) as (Hw & _ & Hpt).
  rewrite E. split.
  - apply contains_join; [discriminate|].
    constructor; [now rewrite contains_cons, Ht0|]. apply Forall_map.
    revert Hall. apply Forall_impl. intros l [_ Hl].
    now rewrite contains_app, Hpt, Hl.
  - apply ends_black_join. destruct ls as [|l ls']; [exact Hend|].
    rewrite last_map_pad by discriminate. now apply ends_black_app.
Qed.

(** [cleandoc] on a text that is one rendered record: the lines of the
    description lose the indentation. *)
Lemma cleandoc_compose_meta pad m :
  is_indent pad = true ->
  tag_line_plain (tag_text m) ->
  description_normal style (desc_text m) = true ->
  cleandoc (compose_meta style pad m) = compose_meta style [] m.
Proof.
  intros Hpad Htag Hnorm.
  destruct (compose_meta_lines _ Htag Hnorm)
    as (l0 & ls & E & Hn0 & Ht0 & Hall & Hex & Hend & _).
  rewrite !E. replace (style_pad style []) with (@nil ascii)
    by (unfold style_pad; now destruct style).
  rewrite map_app_nil.
  assert (H : cleandoc
                (join [nl]
                   (([] ++ colon :: l0)
                      :: map (app (style_pad style pad)) ls ++ repeat [] 0)) =
              join [nl] ((colon :: l0) :: ls)).
  { apply cleandoc_lines; try reflexivity.
    - constructor.
    - now apply style_pad_indent.
    - constructor; [split; now rewrite contains_cons, ?Hn0, ?Ht0 | exact Hall].
    - intros Hne. split; [now apply Hex|].
      rewrite (@last_default _ ls _ (colon :: l0)) by exact Hne.
      intros El. rewrite El in Hend. discriminate. }
  cbn [repeat app] in H. now rewrite app_nil_r in H.
Qed.

End RenderedRecord.

(** ** [cleandoc] on a text that is already clean *)

Section CleanText.
Import Py Inspect.

Lemma split_app_nl a b : split nl (a ++ nl :: b) = split nl a ++ split nl b.
Proof.
  induction a as [|c a IH]; [reflexivity|]. cbn [app split]. rewrite IH.
  destruct (ch_eq c nl); [reflexivity|].
  destruct (split_cons nl a) as (l & ls & ->). reflexivity.
Qed.

Lemma join_empty_lines k : join [nl] (repeat [] (S k)) = repeat nl k.
Proof.
  induction k as [|k IH]; [reflexivity|].
  change (join [nl] (repeat [] (S (S k))))
    with (nl :: join [nl] (repeat [] (S k))).
  now rewrite IH.
Qed.

Lemma join_repeat_empty ls k :
  ls <> [] -> join [nl] (ls ++ repeat [] k) = join [nl] ls ++ repeat nl k.
Proof.
  intros Hne. destruct k as [|k]; [cbn [repeat]; now rewrite !app_nil_r|].
  rewrite join_app by (exact Hne || discriminate).
  now rewrite join_empty_lines.
Qed.

Lemma ends_black_endswith g : ends_black g = true -> endswith g [nl] = false.
Proof.
  unfold ends_black, endswith. intros H. apply starts_black_cons in H.
  destruct H as (e & r & -> & He). cbn [rev app startswith]. unfold ch_eq.
  destruct (Ascii.eqb_spec nl e) as [<-|_]; [discriminate | reflexivity].
Qed.

Lemma endswith_app_black a b :
  b <> [] -> endswith (a ++ b) [nl] = endswith b [nl].
Proof.
  intros Hb. destruct (exists_last Hb) as (x & e & ->).
  unfold endswith. now rewrite app_assoc, !rev_unit.
Qed.

Lemma last_split_nonempty g :
  g <> [] -> endswith g [nl] = false -> last (split nl g) [] <> [].
Proof.
  intros Hne Hend. destruct (exists_last Hne) as (x & e & ->).
  assert (He : ch_eq e nl = false).
  { unfold endswith in Hend. rewrite rev_unit in Hend.
    cbn [rev app startswith] in Hend. rewrite andb_true_r in Hend.
    unfold ch_eq in *. now rewrite Ascii.eqb_sym. }
  clear Hne Hend. induction x as [|c x IH]; cbn [app split].
  - rewrite He. discriminate.
  - destruct (split_cons nl (x ++ [e])) as (l & ls & E). rewrite E in *.
    destruct (ch_eq c nl); [exact IH|].
    destruct ls as [|l' ls]; [discriminate | exact IH].
Qed.

(** A text that begins with a character that is not whitespace, holds no
    tab, and in which some line after the first is not indented, is left
    unchanged by [cleandoc], but for the line feeds at its end. *)
Lemma cleandoc_text g k :
  starts_black g = true -> endswith g [nl] = false ->
  contains tab g = false ->
  (contains nl g = true ->
   exists a b, g = a ++ nl :: b /\ starts_black b = true) ->
  cleandoc (g ++ repeat nl k) = g.
Proof.
  intros Hs He Ht Hline.
  pose proof (join_split g) as Hj.
  pose proof (split_no_sep nl g) as Hn.
  pose proof (contains_split _ _ Ht) as Htl.
  pose proof (@last_split_nonempty g) as Hlast.
  destruct (split nl g) as [|l0 ls] eqn:E; [now apply split_not_nil in E|].
  assert (H : cleandoc
                (join [nl] (([] ++ l0) :: map (app []) ls ++ repeat [] k)) =
              join [nl] (l0 :: ls)).
  { apply cleandoc_lines; try reflexivity.
    - constructor.
    - apply starts_black_cons in Hs. destruct Hs as (c & r & -> & Hc).
      cbn [split] in E. destruct (ch_eq c nl) eqn:Ec.
      + apply Ascii.eqb_eq in Ec. subst c. discriminate.
      + destruct (split nl r); injection E as <- _; cbn; now rewrite Hc.
    - inversion Hn as [|? ? Hn0 Hn']; subst.
      inversion Htl as [|? ? Ht0 Ht']; subst.
      constructor; [auto|]. clear -Hn' Ht'.
      induction Hn' as [|l ls Hl _ IH]; [constructor|].
      inversion Ht'; subst. constructor; auto.
    - intros Hne. split.
      + assert (Hc : contains nl g = true).
        { destruct (contains nl g) eqn:Ec; [reflexivity|].
          rewrite (split_no_nl _ _ Ec) in E. injection E as _ <-.
          contradiction. }
        destruct (Hline Hc) as (a & b & -> & Hb).
        rewrite split_app_nl in E.
        destruct (split_cons nl a) as (a0 & al & Ea). rewrite Ea in E.
        injection E as _ <-. rewrite existsb_app.
        apply starts_black_cons in Hb. destruct Hb as (c & r & -> & Hc').
        cbn [split]. destruct (ch_eq c nl) eqn:Ec.
        * apply Ascii.eqb_eq in Ec. subst c. discriminate.
        * destruct (split nl r); cbn [existsb starts_black];
            now rewrite Hc', orb_true_r.
      + destruct ls as [|l1 ls']; [contradiction|].
        change (last (l1 :: ls') []) with (last (l0 :: l1 :: ls') []).
        apply Hlast; [|exact He].
        apply starts_black_cons in Hs. now destruct Hs as (c & r & -> & _). }
  cbn [app] in H. rewrite map_app_nil in H.
  change (l0 :: ls ++ repeat [] k) with ((l0 :: ls) ++ repeat [] k) in H.
  rewrite join_repeat_empty in H by discriminate. now rewrite Hj in H.
Qed.

End CleanText.

(** ** The composed preamble *)

Section ComposedPreamble.
Import Py Inspect Rest.

Lemma starts_black_truthy s : starts_black s = true -> truthy s = true.
Proof. now destruct s. Qed.

Lemma ends_black_nonempty s : ends_black s = true -> s <> [].
Proof. intros H ->. discriminate. Qed.

Lemma endswith_line s : s <> [] -> contains nl s = false ->
  endswith s [nl] = false.
Proof.
  intros Hne Hn. destruct (exists_last Hne) as (x & e & ->).
  unfold endswith. rewrite rev_unit. cbn [rev app startswith].
  rewrite contains_app, contains_cons in Hn.
  apply orb_false_iff in Hn. destruct Hn as [_ Hn].
  apply orb_false_iff in Hn. destruct Hn as [Hn _]. now rewrite Hn.
Qed.

(** The text of a well-formed preamble: a text that [cleandoc] leaves
    unchanged, then the line feeds of the blank parts at its end. *)
Lemma preamble_text d :
  preamble_wf d = true -> preamble_parts d <> [] ->
  exists g0 k,
    join [nl] (preamble_parts d) = g0 ++ repeat nl k
    /\ starts_black g0 = true /\ endswith g0 [nl] = false
    /\ contains tab g0 = false
    /\ colon_line_free g0 = true
    /\ (contains nl g0 = true ->
        exists a b, g0 = a ++ nl :: b /\ starts_black b = true)
    /\ (long_description d = None -> exists s, short_description d = Some s /\ g0 = s)
    /\ (long_description d <> None ->
        k = if blank_after_long_description d then 1 else 0).
Proof.
  destruct d as [short long bas bal items].
  unfold preamble_wf, preamble_parts.
  cbn [short_description long_description blank_after_short_description
         blank_after_long_description].
  destruct short as [s|].
  2:{ destruct long; [discriminate|]. intros H.
      apply andb_true_iff in H. destruct H as [H1 H2].
      apply negb_true_iff in H1, H2. subst. cbn. contradiction. }
  intros H _. apply andb_true_iff in H. destruct H as [H Hlong].
  apply andb_true_iff in H. destruct H as [H Hcol].
  apply andb_true_iff in H. destruct H as [H Htab].
  apply andb_true_iff in H. destruct H as [Hs Hnl].
  apply negb_true_iff in Hcol, Htab, Hnl.
  cbn [truthy_opt]. rewrite (starts_black_truthy _ Hs).
  pose proof (starts_black_cons _ Hs) as (c & r & Es & Hc).
  assert (Hsne : s <> []) by (rewrite Es; discriminate).
  assert (Hfree : colon_line_free s = true).
  { unfold colon_line_free. rewrite (split_no_nl _ _ Hnl). cbn [forallb].
    now rewrite Hcol. }
  destruct long as [l|].
  - apply andb_true_iff in Hlong. destruct Hlong as [Hlong Hlcol].
    apply andb_true_iff in Hlong. destruct Hlong as [Hlong Hltab].
    apply andb_true_iff in Hlong. destruct Hlong as [Hls Hle].
    apply negb_true_iff in Hltab.
    cbn [truthy_opt]. rewrite (starts_black_truthy _ Hls).
    exists (s ++ nl :: (if bas then [nl] else []) ++ l),
      (if bal then 1 else 0).
    split; [destruct bas, bal; cbn [app join repeat];
            repeat (rewrite <- app_assoc; cbn [app]); rewrite ?app_nil_r;
            reflexivity|].
    split; [now apply starts_black_app|].
    split.
    { replace (s ++ nl :: (if bas then [nl] else []) ++ l)
        with ((s ++ nl :: (if bas then [nl] else [])) ++ l)
        by (now rewrite <- app_assoc).
      rewrite endswith_app_black by (now apply ends_black_nonempty).
      now apply ends_black_endswith. }
    split.
    { rewrite contains_app, contains_cons, contains_app, Htab, Hltab.
      now destruct bas. }
    split.
    { unfold colon_line_free in *. rewrite split_app_nl, forallb_app, Hfree.
      destruct bas; cbn [app split]; change (ch_eq nl nl) with true;
        cbn [forallb startswith negb andb]; exact Hlcol. }
    split.
    { intros _. exists (s ++ (if bas then [nl] else [])), l.
      split; [|exact Hls]. rewrite <- app_assoc. now destruct bas. }
    split; [discriminate | reflexivity].
  - exists s, ((if bas then 1 else 0) + (if bal then 1 else 0)).
    split; [destruct bas, bal; cbn [app join repeat Nat.add];
            rewrite ?app_nil_r; reflexivity|].
    split; [exact Hs|]. split; [now apply endswith_line|].
    split; [exact Htab|]. split; [exact Hfree|].
    split; [intros H; now rewrite Hnl in H|].
    split; [intros _; now exists s | intros H; now contradiction H].
Qed.

End ComposedPreamble.

(** ** Parsing a composed text *)

Section ParseComposed.
Import Py Inspect Rest.
Variable kw : Keywords.
Variable style : RenderingStyle.

(** The text of the rendered records. *)
Lemma records_text pad m ms :
  is_indent pad = true ->
  Forall (record_ready style) (m :: ms) ->
  starts_black (join [nl] (map (compose_meta style pad) (m :: ms))) = true
  /\ ends_black (join [nl] (map (compose_meta style pad) (m :: ms))) = true
  /\ contains tab (join [nl] (map (compose_meta style pad) (m :: ms))) = false.
Proof.
  intros Hpad Hall. cbn [map]. split; [|split].
  - rewrite compose_meta_body, join_cons_head. reflexivity.
  - apply ends_black_join.
    assert (H : Forall (fun t => ends_black t = true)
                  (map (compose_meta style pad) (m :: ms))).
    { apply Forall_map. revert Hall. apply Forall_impl.
      intros x [Ht Hd]. now apply compose_meta_plain. }
    cbn [map] in H. inversion H as [|? ? Hm Hms]; subst.
    destruct (map (compose_meta style pad) ms) as [|t ts] eqn:E;
      [exact Hm|].
    destruct (@exists_last _ (t :: ts)) as (init & l & El); [discriminate|].
    rewrite El, last_last. rewrite El in Hms.
    apply Forall_app in Hms. destruct Hms as [_ Hl]. now inversion Hl.
  - apply contains_join; [discriminate|].
    change (compose_meta style pad m :: map (compose_meta style pad) ms)
      with (map (compose_meta style pad) (m :: ms)).
    apply Forall_map. revert Hall. apply Forall_impl.
    intros x [Ht Hd]. now apply compose_meta_plain.
Qed.

(** [cleandoc] on a composed text with records: the text is unchanged, or,
    when it is one record, the lines of the description lose the
    indentation. *)
Lemma cleandoc_compose pad d :
  is_indent pad = true -> preamble_wf d = true -> meta d <> [] ->
  Forall (record_ready style) (meta d) ->
  exists pad',
    is_indent pad' = true
    /\ cleandoc (compose style pad d) = compose style pad' d.
Proof.
  intros Hpad Hpre Hne Hall. unfold compose.
  destruct (meta d) as [|m ms] eqn:Em; [contradiction|].
  destruct (@records_text pad m ms Hpad Hall) as (Rs & Re & Rt).
  destruct (preamble_parts d) as [|p ps] eqn:Ep.
  - cbn [app]. destruct ms as [|m2 ms].
    + exists []. split; [reflexivity|]. cbn [map join].
      inversion Hall as [|? ? [Ht Hd] _]; subst.
      now apply cleandoc_compose_meta.
    + exists pad. split; [exact Hpad|].
      set (g := join [nl] (map (compose_meta style pad) (m :: m2 :: ms))) in *.
      pose proof (@cleandoc_text g 0) as H. cbn [repeat] in H.
      rewrite app_nil_r in H. apply H; try assumption.
      * now apply ends_black_endswith.
      * intros _. exists (compose_meta style pad m),
          (join [nl] (map (compose_meta style pad) (m2 :: ms))).
        split; [reflexivity|].
        inversion Hall as [|? ? _ Hall']; subst.
        now destruct (@records_text pad m2 ms Hpad Hall') as (H1 & _ & _).
  - exists pad. split; [exact Hpad|].
    destruct (@preamble_text d Hpre) as (g0 & k & Eg & Hs & He & Ht & _);
      [rewrite Ep; discriminate|].
    rewrite Ep in Eg.
    rewrite join_app by discriminate.
    set (R := join [nl] (map (compose_meta style pad) (m :: ms))) in *.
    set (g := join [nl] (p :: ps) ++ [nl] ++ R).
    pose proof (@cleandoc_text g 0) as H. cbn [repeat] in H.
    rewrite app_nil_r in H. apply H; unfold g.
    + rewrite Eg, <- app_assoc. now apply starts_black_app.
    + rewrite app_assoc, endswith_app_black;
        [now apply ends_black_endswith | now apply ends_black_nonempty].
    + rewrite Eg, !contains_app, Ht, Rt, contains_repeat by discriminate.
      reflexivity.
    + intros _. exists (join [nl] (p :: ps)), R. now split.
Qed.

Lemma preamble_no_tag d :
  preamble_wf d = true ->
  no_tag_line true (join [nl] (preamble_parts d)).
Proof.
  intros Hpre. destruct (preamble_parts d) as [|p ps] eqn:Ep; [reflexivity|].
  destruct (@preamble_text d Hpre) as (g0 & k & Eg & _ & _ & _ & Hc & _);
    [rewrite Ep; discriminate|].
  rewrite Ep in Eg. rewrite Eg.
  apply no_tag_line_app; [now apply colon_line_free_no_tag|].
  apply no_tag_line_no_colon, contains_repeat. discriminate.
Qed.

(** Parsing a composed text with records: the records are those the
    classifier builds from the tag lines and the descriptions. *)
Lemma parse_rendered pad d ms' :
  is_indent pad = true -> preamble_wf d = true -> meta d <> [] ->
  Forall (record_ready style) (meta d) ->
  Forall2 (fun m m' =>
             _build_meta kw (split_ws (tag_text m)) (desc_text m) = Ok m')
    (meta d) ms' ->
  parse kw (compose style pad d) =
  Ok (split_preamble
        (match preamble_parts d with
         | [] => []
         | _ :: _ => join [nl] (preamble_parts d) ++ [nl]
         end) ms').
Proof.
  intros Hpad Hpre Hne Hall Hbuild.
  destruct (@cleandoc_compose pad d Hpad Hpre Hne Hall)
    as (pad' & Hpad' & Hclean).
  assert (Hg : compose style pad d <> []).
  { intros E. rewrite E in Hclean. cbn in Hclean.
    symmetry in Hclean. revert Hclean. unfold compose.
    destruct (meta d) as [|m ms]; [contradiction|].
    destruct (preamble_parts d) as [|p ps].
    - cbn [app map]. rewrite compose_meta_body, join_cons_head. discriminate.
    - rewrite join_app by discriminate. cbn [map].
      rewrite compose_meta_body, join_cons_head.
      intros H. apply app_eq_nil in H. destruct H as [_ H]. discriminate. }
  rewrite parse_scan by exact Hg. rewrite Hclean.
  destruct (@compose_scan style pad' d (@preamble_no_tag d Hpre))
    as (pre & Hscan & Hpre_eq).
  { revert Hall. apply Forall_impl. intros m [Ht Hd].
    now apply compose_meta_no_tag. }
  rewrite Hscan. cbn [fst snd].
  rewrite (@parse_chunks_rendered kw style pad' (meta d) ms').
  - cbn [bind]. rewrite Hpre_eq.
    destruct (meta d); [contradiction | reflexivity].
  - revert Hall. apply Forall_impl. intros m [(H1 & H2 & _) _]. now split.
  - clear -Hbuild Hall Hpad'. induction Hbuild as [|m m' l l' Hm _ IH];
      [constructor|].
    inversion Hall as [|? ? [_ Hd] Hall']; subst.
    constructor; [|now apply IH]. now rewrite read_back_record.
Qed.

(** Parsing a composed text without record: the preamble alone. *)
Lemma parse_rendered_preamble pad d :
  preamble_wf d = true -> meta d = [] ->
  exists g0 k,
    compose style pad d = g0 ++ repeat nl k
    /\ parse kw (compose style pad d) = Ok (split_preamble g0 [])
    /\ contains nl (match short_description d with Some s => s | None => [] end) = false
    /\ (long_description d = None ->
        g0 = match short_description d with Some s => s | None => [] end)
    /\ (long_description d <> None ->
        k = if blank_after_long_description d then 1 else 0).
Proof.
  intros Hpre Hm. unfold compose. rewrite Hm. cbn [map]. rewrite app_nil_r.
  assert (Hshort : contains nl (match short_description d with
                                | Some s => s
                                | None => []
                                end) = false).
  { unfold preamble_wf in Hpre. destruct (short_description d); [|reflexivity].
    apply andb_true_iff in Hpre. destruct Hpre as [H _].
    apply andb_true_iff in H. destruct H as [H _].
    apply andb_true_iff in H. destruct H as [H _].
    apply andb_true_iff in H. destruct H as [_ H].
    now apply negb_true_iff. }
  destruct (preamble_parts d) as [|p ps] eqn:Ep.
  - exists [], 0. split; [reflexivity|]. split; [reflexivity|].
    split; [exact Hshort|].
    unfold preamble_wf in Hpre. unfold preamble_parts in Ep.
    destruct (short_description d) as [s|].
    + apply andb_true_iff in Hpre. destruct Hpre as [H _].
      apply andb_true_iff in H. destruct H as [H _].
      apply andb_true_iff in H. destruct H as [H _].
      apply andb_true_iff in H. destruct H as [H _].
      cbn [truthy_opt] in Ep. rewrite (starts_black_truthy _ H) in Ep.
      discriminate.
    + destruct (long_description d); [discriminate|].
      split; [reflexivity | intros H; now contradiction H].
  - destruct (@preamble_text d Hpre)
      as (g0 & k & Eg & Hs & He & Ht & Hc & Hl & Hnone & Hsome);
      [rewrite Ep; discriminate|].
    rewrite Ep in Eg. exists g0, k. split; [exact Eg|].
    split; [|split; [exact Hshort|split; [|exact Hsome]]].
    + rewrite parse_scan.
      * rewrite Eg, (@cleandoc_text g0 k Hs He Ht Hl).
        rewrite (@no_tag_line_fst true g0 (@colon_line_free_no_tag g0 Hc)).
        reflexivity.
      * rewrite Eg. apply starts_black_cons in Hs.
        destruct Hs as (c & r & -> & _). discriminate.
    + intros Hn. destruct (Hnone Hn) as (s & -> & ->). reflexivity.
Qed.

End ParseComposed.

Section RecordsBack.
Import Py Rest.
Variable kw : Keywords.

(** Outside the deprecated family, and in it when the description does not
    begin with a version, the description of the record built is the
    description given. *)
Lemma build_meta_description_plain tokens desc m :
  _build_meta kw tokens desc = Ok m ->
  (match tokens with
   | key :: _ => family_of kw key
   | [] => FGeneric
   end = FDeprecated -> Re.search_version desc = None) ->
  description m = Some desc.
Proof.
  destruct tokens as [|key more]; [discriminate|].
  unfold _build_meta, family_of.
  destruct (kw_in key (PARAM_KEYWORDS kw)).
  { intros H _. revert H.
    destruct more as [|a [|b [|c more]]]; cbn [bind]; try discriminate.
    - destruct (Re.match_defaults desc); intros [= <-]; reflexivity.
    - destruct (endswith a (L "?")); cbn [bind];
        destruct (Re.match_defaults desc); intros [= <-]; reflexivity. }
  destruct (kw_in key (RETURNS_KEYWORDS kw) || kw_in key (YIELDS_KEYWORDS kw)).
  { intros H _. revert H.
    destruct more as [|a [|b more]]; cbn [bind]; try discriminate;
      intros [= <-]; reflexivity. }
  destruct (kw_in key (DEPRECATION_KEYWORDS kw)).
  { intros H Hv. rewrite (Hv eq_refl) in H. now injection H as <-. }
  destruct (kw_in key (RAISES_KEYWORDS kw)).
  { intros H _. revert H.
    destruct more as [|a [|b more]]; cbn [bind]; try discriminate;
      intros [= <-]; reflexivity. }
  intros [= <-] _; reflexivity.
Qed.

End RecordsBack.

(** C1 (as the code has it): for a well-formed document, in each of the
    three styles and with any indentation made of whitespace other than line
    feeds and tabs, re-parsing the composed text succeeds and yields records
    with the same raw tokens and the same descriptions, record for record
    and in the same order (an absent description is read back as the empty
    one).  Well-formed means: the raw tokens of every record agree with its
    fields as [compose] writes them and respect the arity of the family of
    the keyword; every description is in the normal form of the parser, with
    no line that the style writes on a line of its own beginning with a
    colon, and in the deprecated family it does not begin with a version;
    the short description is one line that begins with a character that is
    neither whitespace nor a colon, the long description is stripped and
    none of its lines begins with a colon, neither holds a tab, and without
    short description there is no preamble. *)
Theorem compose_parse_raw_tokens :
  forall (kw : Keywords) (style : RenderingStyle) (indent : str)
         (d : Docstring),
    is_indent indent = true ->
    document_wf kw style d ->
    exists d',
      Rest.parse kw (Rest.compose style indent d) = Ok d'
      /\ map args (meta d') = map args (meta d)
      /\ map description (meta d') =
         map (fun m => Some (desc_text m)) (meta d).
Proof.
  intros kw style indent d Hpad [Hpre Hrec].
  destruct (meta d) as [|m0 ms0] eqn:Em.
  { destruct (@parse_rendered_preamble kw style indent d Hpre Em)
      as (g0 & k & _ & Hparse & _).
    exists (Rest.split_preamble g0 []). split; [exact Hparse|].
    now rewrite meta_split_preamble. }
  assert (Hbuilt : exists ms',
             Forall2
               (fun m m' =>
                  Rest._build_meta kw (Py.split_ws (Rest.tag_text m))
                    (desc_text m) = Ok m')
               (meta d) ms').
  { apply Forall_exists_Forall2. rewrite Em. revert Hrec.
    apply Forall_impl. intros m (Htok & Hv & _).
    destruct (tag_text_read_back _ Htok) as [_ ->].
    destruct (tag_text_tokens _ Htok) as (Hne & _).
    now apply build_meta_ok. }
  destruct Hbuilt as [ms' Hms].
  exists (Rest.split_preamble
            (match Rest.preamble_parts d with
             | [] => []
             | _ :: _ => Py.join [Py.nl] (Rest.preamble_parts d) ++ [Py.nl]
             end) ms').
  split.
  - apply parse_rendered; try assumption.
    + rewrite Em. discriminate.
    + rewrite Em. revert Hrec. apply Forall_impl.
      intros m (Htok & _ & Hd & _). split; [|exact Hd].
      now destruct (tag_text_read_back _ Htok).
  - rewrite meta_split_preamble. rewrite Em in Hms. clear Em.
    induction Hms as [|m m' l l' Hm _ IH]; [now split|].
    inversion Hrec as [|? ? (Htok & _ & _ & Hdep) Hrec']; subst.
    destruct (IH Hrec') as [IH1 IH2]. cbn [map]. rewrite IH1, IH2.
    destruct (tag_text_read_back _ Htok) as [_ Hsplit].
    rewrite Hsplit in Hm.
    rewrite (build_meta_args _ _ _ Hm).
    rewrite (@build_meta_description_plain kw _ _ _ Hm Hdep).
    now split.
Qed.

Ltac solve_record_wf :=
  split; [cbn; repeat split; try discriminate; try reflexivity;
          repeat constructor; discriminate|];
  split; [cbv; intros Hv;
          first [ exact Hv
                | destruct Hv as [H1 H2];
                  first [now apply H1 | now apply H2] ]|];
  split; [reflexivity | cbv; discriminate].

Lemma compose_parse_raw_tokens_witness :
  exists d',
    Rest.parse spec_keywords (Rest.compose EXPANDED (L "    ") join_paths_doc)
    = Ok d'
    /\ map args (meta d') = map args (meta join_paths_doc)
    /\ map description (meta d') =
       map (fun m => Some (desc_text m)) (meta join_paths_doc).
Proof.
  apply (@compose_parse_raw_tokens spec_keywords EXPANDED (L "    ")
           join_paths_doc).
  - reflexivity.
  - split; [reflexivity|].
    repeat (apply Forall_cons; [solve_record_wf|]). apply Forall_nil.
Defined.

(** The conditions on the tokens and on the first line are needed.  A
    record written with the keyword [arg] is composed with the keyword
    [param]; in the expanded style a document of one record whose
    description begins with a colon is read back as two records. *)
Lemma compose_parse_alias_example :
  exists d d',
    Rest.parse alias_keywords (L ":arg x: d") = Ok d
    /\ Rest.parse alias_keywords (Rest.compose COMPACT [] d) = Ok d'
    /\ map args (meta d) = [[L "arg"; L "x"]]
    /\ map args (meta d') = [[L "param"; L "x"]].
Proof.
  eexists. eexists. split; [vm_compute; reflexivity|].
  split; [vm_compute; reflexivity|]. split; reflexivity.
Qed.

Lemma compose_parse_expanded_colon_example :
  let d := mkDocstring None None false false
             [Meta [L "note"] (Some (L ":x: y"))] in
  exists d1 d2,
    Rest.parse spec_keywords (Rest.compose EXPANDED (L "    ") d) = Ok d1
    /\ map args (meta d1) = [[L "note"]; [L "x"]]
    /\ Rest.parse spec_keywords (Rest.compose COMPACT (L "    ") d) = Ok d2
    /\ map args (meta d2) = [[L "note"]]
    /\ map description (meta d2) = [Some (L ":x: y")].
Proof.
  eexists. eexists. split; [vm_compute; reflexivity|].
  split; [reflexivity|]. split; [vm_compute; reflexivity|].
  split; reflexivity.
Qed.

(** A paragraph break right after the first line of a description is not
    read back: the description is outside the normal form. *)
Lemma compose_parse_paragraph_example :
  let d := mkDocstring None None false false
             [Meta [L "note"] (Some (L "a" ++ [Py.nl; Py.nl] ++ L "b"))] in
  exists d',
    Rest.parse spec_keywords (Rest.compose COMPACT (L "    ") d) = Ok d'
    /\ map description (meta d') = [Some (L "a" ++ [Py.nl] ++ L "b")].
Proof. eexists. split; [vm_compute; reflexivity | reflexivity]. Qed.

(** ** The preamble of a parsed text *)

Section ParsedPreamble.
Import Py Inspect Rest.

Lemma no_tag_line_fst_blocks bol s :
  no_tag_line bol (fst (Re.tag_blocks bol s)).
Proof.
  unfold no_tag_line. revert bol.
  induction s as [|c s IH]; intros bol; [reflexivity|].
  cbn [Re.tag_blocks]. specialize (IH (ch_eq c nl)).
  destruct (Re.tag_blocks (ch_eq c nl) s) as [pre bs]. cbn [fst] in IH.
  destruct (bol && ch_eq c colon) eqn:E; cbn [fst]; [reflexivity|].
  cbn [Re.tag_blocks]. rewrite E.
  destruct (Re.tag_blocks (ch_eq c nl) pre) as [pre2 bs2].
  cbn [snd] in *. exact IH.
Qed.

Lemma no_tag_line_prefix bol a b :
  no_tag_line bol (a ++ b) -> no_tag_line bol a.
Proof.
  unfold no_tag_line. revert bol.
  induction a as [|c a IH]; intros bol; [reflexivity|].
  cbn [app Re.tag_blocks]. specialize (IH (ch_eq c nl)).
  destruct (Re.tag_blocks (ch_eq c nl) (a ++ b)) as [pre bs].
  destruct (Re.tag_blocks (ch_eq c nl) a) as [pre' bs'].
  cbn [snd] in IH.
  destruct (bol && ch_eq c colon); cbn [snd]; [discriminate | exact IH].
Qed.

Lemma no_tag_line_suffix bol a b :
  no_tag_line bol (a ++ b) -> no_tag_line (bol_after bol a) b.
Proof.
  intros H. pose proof (@no_tag_line_prefix bol a b H) as Ha.
  unfold no_tag_line in *. rewrite tag_blocks_app in H by exact Ha.
  exact H.
Qed.

Lemma no_tag_line_true bol l :
  no_tag_line bol l -> startswith l [colon] = false -> no_tag_line true l.
Proof.
  unfold no_tag_line. destruct l as [|c l]; [reflexivity|].
  cbn [Re.tag_blocks startswith]. rewrite andb_true_r. intros H Hc.
  assert (Hc' : ch_eq c colon = false)
    by (unfold ch_eq in *; now rewrite Ascii.eqb_sym).
  rewrite Hc', andb_false_r in *. exact H.
Qed.

(** No colon of a text starts a line: no line of it begins with a colon. *)
Lemma no_tag_line_free (bol : bool) (s : list ascii) :
  no_tag_line bol s ->
  forallb (fun l => negb (startswith l [colon]))
    (if bol then split nl s else tl (split nl s)) = true.
Proof.
  unfold no_tag_line. revert bol.
  induction s as [|c s IH]; intros bol H; [now destruct bol|].
  cbn [Re.tag_blocks] in H. cbn [split].
  destruct (split_cons nl s) as (l & ls & E).
  specialize (IH (ch_eq c nl)). rewrite E in *.
  destruct (Re.tag_blocks (ch_eq c nl) s) as [pre bs].
  destruct (bol && ch_eq c colon) eqn:Ec; cbn [snd] in H; [discriminate|].
  specialize (IH H).
  destruct (ch_eq c nl) eqn:En.
  - destruct bol; cbn [tl forallb]; [cbn [startswith negb andb]|]; exact IH.
  - cbn [tl] in IH. destruct bol; cbn [tl]; [|exact IH].
    cbn [forallb]. rewrite IH, andb_true_r. cbn [startswith].
    rewrite andb_true_r.
    cbn [andb] in Ec. unfold ch_eq in *. now rewrite Ascii.eqb_sym, Ec.
Qed.

Lemma no_tag_colon_free s : no_tag_line true s -> colon_line_free s = true.
Proof. apply (@no_tag_line_free true). Qed.

(** A text is its stripped text between two runs of whitespace. *)
Lemma strip_between_whitespace r :
  exists w1 w2,
    r = w1 ++ strip r ++ w2 /\ whitespace_only w1 /\ whitespace_only w2.
Proof.
  exists (takewhile isspace (rstrip r)),
    (rev (takewhile isspace (rev r))).
  split; [|split].
  - unfold strip, lstrip. rewrite app_assoc, takewhile_dropwhile.
    unfold rstrip. rewrite <- rev_app_distr, takewhile_dropwhile.
    now rewrite rev_involutive.
  - apply takewhile_Forall.
  - apply Forall_rev, takewhile_Forall.
Qed.

Lemma strip_black_ends r :
  strip r <> [] ->
  starts_black (strip r) = true /\ ends_black (strip r) = true.
Proof.
  intros Hne.
  destruct (strip_fixed_ends (strip_idem r) Hne)
    as [(c & mid & E1 & Hc) (init & e & E2 & He)].
  split.
  - rewrite E1. cbn. now rewrite Hc.
  - unfold ends_black. rewrite E2, rev_unit. cbn. now rewrite He.
Qed.

(** The preamble of a parsed text is well formed, when its short
    description begins with a character that is not whitespace and its long
    description does not begin with a colon. *)
Lemma parsed_preamble_wf text ms :
  let pre := fst (Re.tag_blocks true (cleandoc text)) in
  let d := split_preamble pre ms in
  (forall s, short_description d = Some s -> starts_black s = true) ->
  (forall l, long_description d = Some l -> startswith l [colon] = false) ->
  preamble_wf d = true.
Proof.
  intros pre d. 
  assert (Htab : contains tab pre = false).
  { pose proof (cleandoc_no_tab text) as H.
    rewrite <- (tag_blocks_concat true (cleandoc text)) in H.
    rewrite contains_app in H. apply orb_false_iff in H. now destruct H. }
  assert (Hnt : no_tag_line true pre) by apply no_tag_line_fst_blocks.
  assert (Hcol : startswith pre [colon] = false)
    by now apply tag_blocks_fst_head.
  assert (Hfirst : pre = [] \/ exists c x, pre = c :: x /\ c <> nl).
  { destruct pre as [|c x] eqn:E; [now left|]. right. exists c, x.
    split; [reflexivity|].
    pose proof (tag_blocks_concat true (cleandoc text)) as Hc.
    fold pre in Hc. rewrite E in Hc.
    destruct (cleandoc_first_char text) as [E0|(c0 & x0 & E0 & Hc0)];
      rewrite E0 in Hc; [discriminate|].
    cbn [app] in Hc. now injection Hc as -> _. }
  subst d. unfold split_preamble, preamble_wf.
  destruct (split1 nl pre) as [a [r|]] eqn:Es; cbn [snd fst].
  - apply split1_Some in Es. destruct Es as [Epre Ha].
    cbn [short_description long_description blank_after_short_description
           blank_after_long_description].
    intros F1 F10.
    destruct a as [|c a].
    { exfalso. rewrite Epre in Hfirst.
      destruct Hfirst as [H|(c & x & H & Hc)]; [discriminate|].
      injection H as <- _. now apply Hc. }
    cbn [or_None]. rewrite (F1 _ eq_refl), Ha.
    rewrite Epre, contains_app in Htab. apply orb_false_iff in Htab.
    destruct Htab as [Hta Htr]. rewrite Hta.
    rewrite Epre in Hcol. cbn [app startswith] in Hcol.
    cbn [startswith]. rewrite Hcol. cbn [negb andb].
    destruct (strip r) as [|c1 l1] eqn:El; [reflexivity|].
    cbn [or_None].
    assert (Hl : strip r <> []) by (rewrite El; discriminate).
    destruct (@strip_black_ends r Hl) as [Hs He]. rewrite El in Hs, He.
    rewrite Hs, He.
    rewrite contains_cons in Htr. apply orb_false_iff in Htr.
    destruct Htr as [_ Htr].
    pose proof (@contains_strip tab r Htr) as Htl. rewrite El in Htl.
    rewrite Htl. cbn [negb andb].
    apply no_tag_colon_free.
    rewrite Epre in Hnt.
    replace ((c :: a) ++ nl :: r) with (((c :: a) ++ [nl]) ++ r) in Hnt
      by (now rewrite <- app_assoc).
    apply no_tag_line_suffix in Hnt.
    rewrite bol_after_app in Hnt. cbn [bol_after] in Hnt.
    change (ch_eq nl nl) with true in Hnt.
    destruct (strip_between_whitespace r) as (w1 & w2 & Er & _ & _).
    rewrite El in Er. rewrite Er in Hnt.
    apply no_tag_line_suffix, no_tag_line_prefix in Hnt.
    apply (@no_tag_line_true _ _ Hnt). now apply F10.
  - apply split1_None in Es. destruct Es as [Epre Ha].
    cbn [short_description long_description blank_after_short_description
           blank_after_long_description].
    intros F1 _. destruct a as [|c a]; [reflexivity|].
    cbn [or_None]. rewrite (F1 _ eq_refl), Ha.
    rewrite Epre in Htab, Hcol. rewrite Htab.
    cbn [startswith] in *. now rewrite Hcol.
Qed.

End ParsedPreamble.

(** ** A parsed record, composed and parsed again *)

Section Rebuilt.
Import Py Rest.
Variable kw : Keywords.
Hypothesis Hsane : keywords_sane kw.

Lemma endswith_qmark a :
  endswith a (L "?") = true -> exists t, a = t ++ L "?" /\ drop_last a = t.
Proof.
  change (L "?") with [qmark]. unfold endswith, drop_last. intros H.
  destruct (rev a) as [|x r] eqn:E; [discriminate|].
  cbn [rev app startswith] in H. rewrite andb_true_r in H.
  apply Ascii.eqb_eq in H. subst x.
  assert (Ea : a = rev r ++ L "?").
  { rewrite <- (rev_involutive a), E. reflexivity. }
  exists (rev r). split; [exact Ea|]. rewrite Ea. apply removelast_last.
Qed.

Lemma family_of_deprecated key :
  kw_in key (PARAM_KEYWORDS kw) = false ->
  kw_in key (RETURNS_KEYWORDS kw) || kw_in key (YIELDS_KEYWORDS kw) = false ->
  kw_in key (DEPRECATION_KEYWORDS kw) = true ->
  family_of kw key = FDeprecated.
Proof. intros H1 H2 H3. unfold family_of. now rewrite H1, H2, H3. Qed.

Lemma process_desc_text style pad m :
  process_desc style pad (Some (desc_text m)) =
  process_desc style pad (description m).
Proof. unfold desc_text. now destruct (description m). Qed.

(** The record the classifier builds back from the tag line [compose]
    writes for a parsed record, and from a description: it is written with
    the same tag line, it is well formed, and it has that description. *)
Lemma rebuilt_record toks desc0 m dm :
  Forall is_token toks ->
  _build_meta kw toks desc0 = Ok m ->
  (record_family kw m = FDeprecated -> Re.search_version dm = None) ->
  exists m',
    record_tokens_wf m'
    /\ tag_text m' = tag_text m
    /\ _build_meta kw (args m') dm = Ok m'
    /\ description m' = Some dm.
Proof.
  intros Htok Hbuild Hdep.
  destruct Hsane as (Sp & Sr & Sry & Sy & Syy & Sx).
  pose proof (build_meta_args _ _ _ Hbuild) as Hargs.
  destruct toks as [|key more]; [discriminate|].
  unfold record_family in Hdep. rewrite Hargs in Hdep.
  inversion Htok as [|? ? Hkey Hmore]; subst.
  unfold _build_meta in Hbuild. revert Hbuild.
  destruct (kw_in key (PARAM_KEYWORDS kw)) eqn:Kp.
  { destruct more as [|a [|b [|c more]]]; cbn [bind]; try discriminate.
    - intros H.
      assert (Em : tag_text m = L "param" ++ [space] ++ a)
        by (destruct (Re.match_defaults desc0); injection H as <-;
            reflexivity).
      inversion Hmore as [|? ? Ha _]; subst.
      exists (DocstringParam [L "param"; a] (Some dm) a None None
                (option_map (rstrip_char dot) (Re.match_defaults dm))).
      split; [cbn; auto|]. split; [now rewrite Em|].
      split; [|reflexivity].
      cbn [args]. apply build_param_two. now apply family_param.
    - inversion Hmore as [|? ? Ha Hmore']; subst.
      inversion Hmore' as [|? ? Hb _]; subst.
      destruct (endswith a (L "?")) eqn:Ea; cbn [bind]; intros H.
      + destruct (endswith_qmark _ Ea) as (t & Eat & Edrop).
        rewrite Edrop in H.
        destruct t as [|c t].
        * assert (Em : tag_text m = L "param" ++ [space] ++ b)
            by (destruct (Re.match_defaults desc0); injection H as <-;
                reflexivity).
          exists (DocstringParam [L "param"; b] (Some dm) b None None
                    (option_map (rstrip_char dot) (Re.match_defaults dm))).
          split; [cbn; auto|]. split; [now rewrite Em|].
          split; [|reflexivity].
          cbn [args]. apply build_param_two. now apply family_param.
        * assert (Em : tag_text m =
                       L "param" ++ ([space] ++ (c :: t) ++ L "? ") ++ b)
            by (destruct (Re.match_defaults desc0); injection H as <-;
                reflexivity).
          assert (Ht : is_token (c :: t)).
          { split; [discriminate|]. destruct Ha as [_ Ha].
            rewrite Eat in Ha. apply Forall_app in Ha. now destruct Ha. }
          exists (DocstringParam [L "param"; (c :: t) ++ [qmark]; b]
                    (Some dm) b (Some (c :: t)) (Some true)
                    (option_map (rstrip_char dot) (Re.match_defaults dm))).
          split; [cbn [record_tokens_wf]; auto|]. split; [now rewrite Em|].
          split; [|reflexivity].
          cbn [args]. apply build_param_optional. now apply family_param.
      + destruct a as [|c t]; [now destruct Ha|].
        assert (Em : tag_text m =
                     L "param" ++ ([space] ++ (c :: t) ++ [space]) ++ b)
          by (destruct (Re.match_defaults desc0); injection H as <-;
              reflexivity).
        exists (DocstringParam [L "param"; c :: t; b]
                  (Some dm) b (Some (c :: t)) (Some false)
                  (option_map (rstrip_char dot) (Re.match_defaults dm))).
        split; [cbn [record_tokens_wf]; auto|]. split; [now rewrite Em|].
        split; [|reflexivity].
        cbn [args].
        rewrite (@build_param_typed kw (L "param") (c :: t) b dm)
          by (now apply family_param).
        now rewrite Ea. }
  destruct (kw_in key (RETURNS_KEYWORDS kw) || kw_in key (YIELDS_KEYWORDS kw))
    eqn:Kr.
  { destruct more as [|a [|b more]]; cbn [bind]; try discriminate;
      intros [= <-].
    - destruct (kw_in key (YIELDS_KEYWORDS kw)) eqn:Ky.
      + exists (DocstringReturns [L "yields"] (Some dm) None true).
        split; [reflexivity|]. split; [reflexivity|]. split; [|reflexivity].
        cbn [args]. destruct (@build_returns kw (L "yields") dm Sy) as [-> _].
        now rewrite Syy.
      + exists (DocstringReturns [L "returns"] (Some dm) None false).
        split; [reflexivity|]. split; [reflexivity|]. split; [|reflexivity].
        cbn [args]. destruct (@build_returns kw (L "returns") dm Sr) as [-> _].
        now rewrite Sry.
    - inversion Hmore as [|? ? Ha _]; subst.
      pose proof Ha as [Hane _]. destruct a as [|c t]; [contradiction|].
      destruct (kw_in key (YIELDS_KEYWORDS kw)) eqn:Ky.
      + exists (DocstringReturns [L "yields"; c :: t] (Some dm)
                  (Some (c :: t)) true).
        split; [cbn; auto|]. split; [reflexivity|]. split; [|reflexivity].
        cbn [args]. destruct (@build_returns kw (L "yields") dm Sy) as [_ ->].
        now rewrite Syy.
      + exists (DocstringReturns [L "returns"; c :: t] (Some dm)
                  (Some (c :: t)) false).
        split; [cbn; auto|]. split; [reflexivity|]. split; [|reflexivity].
        cbn [args]. destruct (@build_returns kw (L "returns") dm Sr) as [_ ->].
        now rewrite Sry. }
  destruct (kw_in key (DEPRECATION_KEYWORDS kw)) eqn:Kd.
  { pose proof (@family_of_deprecated key Kp Kr Kd) as Hf.
    specialize (Hdep Hf).
    intros H.
    assert (Em : tag_text m = join [space] (key :: more))
      by (destruct (Re.search_version desc0) as [[v d0]|];
          injection H as <-; reflexivity).
    exists (DocstringDeprecated (key :: more) (Some dm) None).
    split; [cbn; split; [discriminate | exact Htok]|].
    split; [now rewrite Em|]. split; [|reflexivity].
    cbn [args]. rewrite (@build_deprecated kw key more dm Hf), Hdep. reflexivity. }
  destruct (kw_in key (RAISES_KEYWORDS kw)) eqn:Kx.
  { destruct more as [|a [|b more]]; cbn [bind]; try discriminate;
      intros [= <-].
    - exists (DocstringRaises [L "raises"] (Some dm) None).
      split; [reflexivity|]. split; [reflexivity|]. split; [|reflexivity].
      cbn [args]. now destruct (@build_raises kw (L "raises") dm Sx) as [-> _].
    - inversion Hmore as [|? ? Ha _]; subst.
      pose proof Ha as [Hane _]. destruct a as [|c t]; [contradiction|].
      exists (DocstringRaises [L "raises"; c :: t] (Some dm) (Some (c :: t))).
      split; [cbn; auto|]. split; [reflexivity|]. split; [|reflexivity].
      cbn [args]. now destruct (@build_raises kw (L "raises") dm Sx) as [_ ->]. }
  intros [= <-].
  exists (Meta (key :: more) (Some dm)).
  split; [cbn; split; [discriminate | exact Htok]|].
  split; [reflexivity|]. split; [|reflexivity].
  cbn [args]. unfold _build_meta. now rewrite Kp, Kr, Kd, Kx.
Qed.

End Rebuilt.

(** ** The preamble, composed and parsed again *)

Section PreambleAgain.
Import Py Inspect Rest.

Lemma startswith_black l z :
  starts_black l = true -> startswith (l ++ z) [nl] = false.
Proof.
  intros H. apply starts_black_cons in H. destruct H as (c & r & -> & Hc).
  cbn [app startswith]. unfold ch_eq.
  destruct (Ascii.eqb_spec nl c) as [<-|_]; [discriminate | reflexivity].
Qed.

(** The parts [compose] writes for the preamble read back from a composed
    text with records are the parts of the preamble composed. *)
Lemma preamble_parts_back d ms :
  preamble_wf d = true ->
  preamble_parts
    (split_preamble
       (match preamble_parts d with
        | [] => []
        | _ :: _ => join [nl] (preamble_parts d) ++ [nl]
        end) ms) = preamble_parts d.
Proof.
  destruct d as [short long bas bal items].
  unfold preamble_wf, preamble_parts at 2 3 4.
  cbn [short_description long_description blank_after_short_description
         blank_after_long_description].
  destruct short as [s|].
  2:{ destruct long; [discriminate|]. intros H.
      apply andb_true_iff in H. destruct H as [H1 H2].
      apply negb_true_iff in H1, H2. subst. reflexivity. }
  intros H. apply andb_true_iff in H. destruct H as [H Hlong].
  apply andb_true_iff in H. destruct H as [H _].
  apply andb_true_iff in H. destruct H as [H _].
  apply andb_true_iff in H. destruct H as [Hs Hnl].
  apply negb_true_iff in Hnl.
  cbn [truthy_opt]. rewrite (starts_black_truthy _ Hs).
  assert (Hsne : s <> []) by (intros ->; discriminate).
  destruct long as [l|].
  - apply andb_true_iff in Hlong. destruct Hlong as [Hlong _].
    apply andb_true_iff in Hlong. destruct Hlong as [Hlong _].
    apply andb_true_iff in Hlong. destruct Hlong as [Hl He].
    cbn [truthy_opt]. rewrite (starts_black_truthy _ Hl).
    pose proof (strip_black _ Hl He) as Hstrip.
    assert (Hlne : l <> []) by (now apply ends_black_nonempty).
    destruct bas, bal; cbn [app join];
      repeat (rewrite <- app_assoc; cbn [app]);
      rewrite split_preamble_line by exact Hnl;
      rewrite (or_None_nonempty Hsne);
      rewrite ?strip_cons_space by reflexivity;
      rewrite ?strip_app_space by (repeat constructor);
      rewrite Hstrip, (or_None_nonempty Hlne);
      unfold preamble_parts;
      cbn [short_description long_description
             blank_after_short_description blank_after_long_description
             truthy_opt];
      rewrite (starts_black_truthy _ Hs), (starts_black_truthy _ Hl).
    + change (nl :: l ++ [nl; nl]) with ((nl :: l) ++ [nl; nl]).
      rewrite (endswith_blank_line (nl :: l)). reflexivity.
    + change (nl :: l ++ [nl]) with ([nl] ++ l ++ [nl]).
      rewrite (@endswith_stripped_line [nl] l Hstrip Hlne). reflexivity.
    + rewrite (@startswith_black l [nl; nl] Hl), (endswith_blank_line l).
      reflexivity.
    + rewrite (@startswith_black l [nl] Hl).
      change (l ++ [nl]) with ([] ++ l ++ [nl]).
      rewrite (@endswith_stripped_line [] l Hstrip Hlne). reflexivity.
  - cbn [truthy_opt].
    destruct bas, bal; cbn [app join];
      repeat (rewrite <- app_assoc; cbn [app]);
      rewrite split_preamble_line by exact Hnl;
      rewrite (or_None_nonempty Hsne);
      unfold preamble_parts;
      cbn [short_description long_description
             blank_after_short_description blank_after_long_description
             truthy_opt];
      rewrite (starts_black_truthy _ Hs); reflexivity.
Qed.

(** The same for a composed text without record, when no blank part ends
    the preamble. *)
Lemma preamble_parts_back_alone d :
  preamble_wf d = true ->
  blank_after_long_description d = false ->
  (long_description d = None -> blank_after_short_description d = false) ->
  preamble_parts (split_preamble (join [nl] (preamble_parts d)) []) =
  preamble_parts d.
Proof.
  destruct d as [short long bas bal items].
  unfold preamble_wf, preamble_parts at 2 3.
  cbn [short_description long_description blank_after_short_description
         blank_after_long_description].
  intros H -> Hbas.
  destruct short as [s|].
  2:{ destruct long; [discriminate|].
      apply andb_true_iff in H. destruct H as [H1 _].
      apply negb_true_iff in H1. subst. reflexivity. }
  apply andb_true_iff in H. destruct H as [H Hlong].
  apply andb_true_iff in H. destruct H as [H _].
  apply andb_true_iff in H. destruct H as [H _].
  apply andb_true_iff in H. destruct H as [Hs Hnl].
  apply negb_true_iff in Hnl.
  cbn [truthy_opt]. rewrite (starts_black_truthy _ Hs).
  assert (Hsne : s <> []) by (intros ->; discriminate).
  destruct long as [l|].
  - apply andb_true_iff in Hlong. destruct Hlong as [Hlong _].
    apply andb_true_iff in Hlong. destruct Hlong as [Hlong _].
    apply andb_true_iff in Hlong. destruct Hlong as [Hl He].
    cbn [truthy_opt]. rewrite (starts_black_truthy _ Hl).
    pose proof (strip_black _ Hl He) as Hstrip.
    assert (Hlne : l <> []) by (now apply ends_black_nonempty).
    destruct bas; cbn [app join];
      repeat (rewrite <- app_assoc; cbn [app]);
      rewrite split_preamble_line by exact Hnl;
      rewrite (or_None_nonempty Hsne);
      rewrite ?strip_cons_space by reflexivity;
      rewrite Hstrip, (or_None_nonempty Hlne);
      unfold preamble_parts;
      cbn [short_description long_description
             blank_after_short_description blank_after_long_description
             truthy_opt];
      rewrite (starts_black_truthy _ Hs), (starts_black_truthy _ Hl).
    + change (nl :: l) with ([nl] ++ l).
      rewrite (@endswith_stripped [nl] l Hstrip Hlne). reflexivity.
    + pose proof (@startswith_black l [] Hl) as Hst.
      rewrite app_nil_r in Hst. rewrite Hst.
      change (endswith l [nl; nl]) with (endswith ([] ++ l) [nl; nl]).
      rewrite (@endswith_stripped [] l Hstrip Hlne). reflexivity.
  - rewrite (Hbas eq_refl). cbn [truthy_opt app join].
    rewrite split_preamble_single by exact Hnl.
    rewrite (or_None_nonempty Hsne). unfold preamble_parts.
    cbn [short_description long_description
           blank_after_short_description blank_after_long_description
           truthy_opt].
    now rewrite (starts_black_truthy _ Hs).
Qed.

End PreambleAgain.

(** ** One more pass *)

Section OneMorePass.
Import Py Inspect Rest.
Variable kw : Keywords.

Lemma compose_compact_indent pad d :
  compose COMPACT pad d = compose COMPACT [] d.
Proof. reflexivity. Qed.

(** A parsed record is built by the classifier from its raw tokens. *)
Lemma parse_chunk_built b m :
  parse_chunk kw b = Ok m ->
  exists desc0, _build_meta kw (args m) desc0 = Ok m.
Proof.
  unfold parse_chunk.
  destruct (split1 colon (lstrip_char colon b)) as [a [r|]];
    [|discriminate].
  intros H. exists (block_desc r).
  now rewrite (build_meta_args _ _ _ H).
Qed.

Lemma compose_meta_same style pad m m' :
  tag_text m' = tag_text m -> description m' = Some (desc_text m) ->
  compose_meta style pad m' = compose_meta style pad m.
Proof.
  intros Ht Hd. unfold compose_meta.
  now rewrite Ht, Hd, process_desc_text.
Qed.

(** Without tagged block in the cleaned text, [blank_after_long] is
    false. *)
Lemma split_preamble_clean text ms :
  snd (Re.tag_blocks true (cleandoc text)) = [] ->
  blank_after_long_description
    (split_preamble (fst (Re.tag_blocks true (cleandoc text))) ms) = false.
Proof.
  intros Hb. pose proof (tag_blocks_concat true (cleandoc text)) as Hc.
  rewrite Hb in Hc. cbn [concat] in Hc. rewrite app_nil_r in Hc.
  rewrite Hc. unfold split_preamble.
  destruct (split1 nl (cleandoc text)) as [a [r|]] eqn:E; cbn [snd];
    [|reflexivity].
  cbn [blank_after_long_description]. now apply cleandoc_remainder_end in E.
Qed.

End OneMorePass.

(** C2 (as the code has it): when the keywords [compose] writes belong to
    their families, one more pass of parsing and composing in the compact
    style changes nothing on the text composed from a parsed document, as
    soon as the short description begins with a character that is not
    whitespace, the long description does not begin with a colon, a document
    without item and without long description has no blank line after the
    short description, and the description of every record is in the normal
    form of the parser, with no line after the first beginning with a colon
    and, in the deprecated family, no version at its start. *)
Theorem recompose_idempotent :
  forall (kw : Keywords) (indent text : str) (d : Docstring),
    keywords_sane kw ->
    Rest.parse kw text = Ok d ->
    (forall s, short_description d = Some s -> starts_black s = true) ->
    (forall l, long_description d = Some l ->
               Py.startswith l [Py.colon] = false) ->
    (meta d = [] -> long_description d = None ->
     blank_after_short_description d = false) ->
    Forall (fun m =>
              description_normal COMPACT (desc_text m) = true
              /\ (record_family kw m = FDeprecated ->
                  Re.search_version (desc_text m) = None)) (meta d) ->
    recompose kw indent (Rest.compose COMPACT indent d) =
    Ok (Rest.compose COMPACT indent d).
Proof.
  intros kw indent text d Hsane Hparse F1 F10 F4 Hrec.
  unfold recompose. rewrite !(compose_compact_indent indent).
  destruct text as [|c0 text0].
  { cbn in Hparse. injection Hparse as <-. reflexivity. }
  rewrite parse_scan in Hparse by discriminate.
  destruct (Rest.parse_chunks kw
              (snd (Re.tag_blocks true (Inspect.cleandoc (c0 :: text0)))))
    as [ms|e] eqn:Hch; [|discriminate].
  cbn [bind] in Hparse. injection Hparse as Hd.
  assert (Hm : meta d = ms) by (rewrite <- Hd; apply meta_split_preamble).
  assert (Hwf : preamble_wf d = true).
  { rewrite <- Hd. apply parsed_preamble_wf; rewrite Hd; assumption. }
  pose proof (parse_chunks_Forall2 _
                (tag_blocks_nonempty true (Inspect.cleandoc (c0 :: text0)))
                Hch) as Hblocks.
  rewrite Hm in Hrec.
  assert (Hback : exists ms',
             Forall2
               (fun m m' =>
                  record_tokens_wf m'
                  /\ Rest.tag_text m' = Rest.tag_text m
                  /\ Rest._build_meta kw (args m') (desc_text m) = Ok m'
                  /\ description m' = Some (desc_text m)) ms ms').
  { apply Forall_exists_Forall2.
    clear -Hblocks Hrec Hsane.
    induction Hblocks as [|b m bs ms Hb _ IH]; [constructor|].
    inversion Hrec as [|? ? [_ Hdep] Hrec']; subst.
    constructor; [|now apply IH].
    destruct (parse_chunk_built _ _ Hb) as [desc0 Hbuilt].
    destruct (parse_chunk_tokens _ _ Hb) as [_ Htok].
    now apply (@rebuilt_record kw Hsane (args m) desc0 m (desc_text m)). }
  destruct Hback as [ms' Hback].
  assert (Hready : Forall (record_ready COMPACT) ms).
  { clear -Hback Hrec. induction Hback as [|m m' l l' Hmm _ IH];
      [constructor|].
    inversion Hrec as [|? ? [Hn _] Hrec']; subst.
    constructor; [|now apply IH]. split; [|exact Hn].
    destruct Hmm as (Hw & <- & _). now destruct (tag_text_read_back _ Hw). }
  assert (Hbuild : Forall2
                     (fun m m' =>
                        Rest._build_meta kw (Py.split_ws (Rest.tag_text m))
                          (desc_text m) = Ok m') ms ms').
  { clear -Hback. induction Hback as [|m m' l l' Hmm _ IH];
      constructor; [|exact IH].
    destruct Hmm as (Hw & <- & Hb & _).
    destruct (tag_text_read_back _ Hw) as [_ ->]. exact Hb. }
  assert (Hsame : map (Rest.compose_meta COMPACT []) ms' =
                  map (Rest.compose_meta COMPACT []) ms).
  { clear -Hback. induction Hback as [|m m' l l' Hmm _ IH];
      [reflexivity|].
    cbn [map]. rewrite IH. f_equal.
    destruct Hmm as (_ & Ht & _ & Hdesc). now apply compose_meta_same. }
  destruct ms as [|m1 ms1].
  - destruct (@parse_rendered_preamble kw COMPACT [] d Hwf Hm)
      as (g0 & k & Eg & Hp & _ & Hnone & Hsome).
    assert (Hbal : blank_after_long_description d = false).
    { rewrite <- Hd. apply split_preamble_clean.
      destruct (snd (Re.tag_blocks true (Inspect.cleandoc (c0 :: text0))))
        as [|b bs] eqn:Eb; [reflexivity|].
      inversion Hblocks. }
    assert (Hg0 : Rest.compose COMPACT [] d = g0).
    { destruct (long_description d) as [l|] eqn:El.
      - rewrite Hsome, Hbal in Eg by discriminate. cbn [repeat] in Eg.
        now rewrite app_nil_r in Eg.
      - rewrite (Hnone eq_refl). unfold Rest.compose, Rest.preamble_parts.
        rewrite Hm, El, Hbal, (F4 Hm eq_refl). cbn [map Py.truthy_opt app].
        destruct (short_description d) as [s|]; [|reflexivity].
        rewrite app_nil_r. now destruct s. }
    rewrite Hp. cbn [bind]. f_equal. rewrite <- Hg0.
    unfold Rest.compose at 1. rewrite meta_split_preamble.
    cbn [map]. unfold Rest.compose. rewrite Hm. cbn [map]. rewrite !app_nil_r.
    f_equal. apply preamble_parts_back_alone; try assumption.
    intros El. now apply F4.
  - rewrite (@parse_rendered kw COMPACT [] d ms'); try assumption;
      try reflexivity; try (rewrite Hm; assumption || discriminate).
    cbn [bind]. f_equal. unfold Rest.compose.
    change (Rest.compose_meta COMPACT indent)
      with (Rest.compose_meta COMPACT []).
    rewrite meta_split_preamble, Hm, Hsame.
    now rewrite preamble_parts_back.
Qed.

Lemma recompose_idempotent_witness :
  recompose alias_keywords (L "    ")
    (Rest.compose COMPACT (L "    ") notice_doc) =
  Ok (Rest.compose COMPACT (L "    ") notice_doc).
Proof.
  apply (@recompose_idempotent alias_keywords (L "    ") notice_text
           notice_doc).
  - repeat split; reflexivity.
  - reflexivity.
  - intros s [= <-]. reflexivity.
  - intros l [=].
  - intros [=].
  - repeat (apply Forall_cons;
            [split; [reflexivity | cbv; first [discriminate | reflexivity]]|]).
    apply Forall_nil.
Defined.

(** The conditions of the theorem are needed, each on its own.  A document
    without item whose short description is followed by a blank line: the
    first pass writes the line feed, the second does not. *)
Lemma recompose_trailing_blank_example :
  recompose spec_keywords [] (L "a" ++ [Py.nl; Py.nl] ++ L " ") =
    Ok (L "a" ++ [Py.nl])
  /\ recompose spec_keywords [] (L "a" ++ [Py.nl]) = Ok (L "a").
Proof. split; reflexivity. Qed.

(** A deprecation whose description, once its version is taken, begins with
    a version again. *)
Lemma recompose_version_example :
  recompose spec_keywords [] (L ":deprecated: 1.2 3.4 gone") =
    Ok (L ":deprecated: 3.4 gone")
  /\ recompose spec_keywords [] (L ":deprecated: 3.4 gone") =
     Ok (L ":deprecated: gone").
Proof. split; vm_compute; reflexivity. Qed.

(** A description that is not in normal form: its second line was empty in
    the source, and the third keeps an indentation. *)
Lemma recompose_description_example :
  recompose spec_keywords []
    (L ":k: x" ++ [Py.nl; Py.nl] ++ L "  a" ++ [Py.nl] ++ L " b") =
    Ok (L ":k: x" ++ [Py.nl] ++ L " a" ++ [Py.nl] ++ L "b")
  /\ recompose spec_keywords []
       (L ":k: x" ++ [Py.nl] ++ L " a" ++ [Py.nl] ++ L "b") =
     Ok (L ":k: x" ++ [Py.nl] ++ L "a" ++ [Py.nl] ++ L "b").
Proof. split; vm_compute; reflexivity. Qed.

(** A long description that begins with a colon, and a line of a
    description that begins with a colon: composed, they are blocks of their
    own, here with the keyword [arg], which the next pass writes [param]. *)
Lemma recompose_long_colon_example :
  recompose alias_keywords []
    (L "s" ++ [Py.nl] ++ L " :arg x: y" ++ [Py.nl] ++ L "z") =
    Ok (L "s" ++ [Py.nl] ++ L ":arg x: y" ++ [Py.nl] ++ L "z")
  /\ recompose alias_keywords []
       (L "s" ++ [Py.nl] ++ L ":arg x: y" ++ [Py.nl] ++ L "z") =
     Ok (L "s" ++ [Py.nl] ++ L ":param x: y" ++ [Py.nl] ++ L "z").
Proof. split; vm_compute; reflexivity. Qed.

Lemma recompose_colon_line_example :
  recompose alias_keywords []
    (L ":note: a" ++ [Py.nl] ++ L "  :arg x: y" ++ [Py.nl] ++ L ":z: w") =
    Ok (L ":note: a" ++ [Py.nl] ++ L ":arg x: y" ++ [Py.nl] ++ L ":z: w")
  /\ recompose alias_keywords []
       (L ":note: a" ++ [Py.nl] ++ L ":arg x: y" ++ [Py.nl] ++ L ":z: w") =
     Ok (L ":note: a" ++ [Py.nl] ++ L ":param x: y" ++ [Py.nl] ++ L ":z: w").
Proof. split; vm_compute; reflexivity. Qed.

(** A configuration in which the keyword [yields] that [compose] writes for
    a generator is registered as a returns keyword. *)
Lemma recompose_keywords_example :
  let kw := mkKeywords [L "param"] [L "returns"; L "yields"] [L "yield"]
              [L "raises"] [L "deprecated"] in
  recompose kw [] (L ":yield: x") = Ok (L ":yields: x")
  /\ recompose kw [] (L ":yields: x") = Ok (L ":returns: x").
Proof. split; vm_compute; reflexivity. Qed.
